(** * AutoMapperBase (src/base.ts): registry, dispatcher and mapper

    A shallow embedding of the class [AutoMapperBase] of [src/base.ts].
    The two private fields of the class ([_mappings], [_classNameMap]) and
    the [Mapping] objects they point to are threaded explicitly through a
    state-and-exception monad; a thrown [Error] is an outcome of the monad
    and leaves the state as it was when the exception was raised. *)

From Stdlib Require Import ZArith String Ascii List Bool Lia.
From stdpp Require Import base decidable option list gmap strings pretty.

Set Warnings "-register-all".

Open Scope string_scope.
Open Scope Z_scope.
Open Scope list_scope.

(** ** Types ([Constructible]) and JavaScript values *)

(** A class (constructor function). [cid] stands for the identity of the
    function object: two definitions with the same text and the same name
    are still two keys of a [WeakMap] when their [cid] differ.
    [csource] is the result of [toString()], [cbase] the class it extends. *)
Inductive Constructible : Type :=
  MkConstructible (cid : nat) (cname : string) (csource : string)
                  (cbase : option Constructible).

Definition cid (c : Constructible) : nat :=
  match c with MkConstructible i _ _ _ => i end.
Definition cname (c : Constructible) : string :=
  match c with MkConstructible _ n _ _ => n end.
Definition csource (c : Constructible) : string :=
  match c with MkConstructible _ _ s _ => s end.
Definition cbase (c : Constructible) : option Constructible :=
  match c with MkConstructible _ _ _ b => b end.

Fixpoint chain (c : Constructible) : list (nat * string * string) :=
  match c with
  | MkConstructible i n s b =>
      (i, n, s) :: match b with Some p => chain p | None => [] end
  end.

Fixpoint unchain (l : list (nat * string * string)) : option Constructible :=
  match l with
  | [] => None
  | (i, n, s) :: l' => Some (MkConstructible i n s (unchain l'))
  end.

Fixpoint unchain_chain (c : Constructible) : unchain (chain c) = Some c.
Proof.
  destruct c as [i n s [p|]]; simpl.
  - rewrite (unchain_chain p). reflexivity.
  - reflexivity.
Defined.

#[global] Instance Constructible_eq_dec : EqDecision Constructible.
Proof.
  intros x y. destruct (decide (chain x = chain y)) as [E|N].
  - left. apply (f_equal unchain) in E. rewrite !unchain_chain in E. congruence.
  - right. congruence.
Defined.

#[global] Instance Constructible_countable : Countable Constructible :=
  inj_countable chain unchain unchain_chain.

(** The built-in constructors reached by [x.constructor]. *)
Definition ObjectCtor : Constructible :=
  MkConstructible 0 "Object" "function Object() { [native code] }" None.
Definition ArrayCtor : Constructible :=
  MkConstructible 1 "Array" "function Array() { [native code] }" None.
Definition DateCtor : Constructible :=
  MkConstructible 2 "Date" "function Date() { [native code] }" None.
Definition NumberCtor : Constructible :=
  MkConstructible 3 "Number" "function Number() { [native code] }" None.
Definition StringCtor : Constructible :=
  MkConstructible 4 "String" "function String() { [native code] }" None.
Definition BooleanCtor : Constructible :=
  MkConstructible 5 "Boolean" "function Boolean() { [native code] }" None.

(** JavaScript values. Numbers are integers here: the mapper only moves
    them around and tests them for truthiness. *)
Inductive JSValue : Type :=
| VUndefined
| VNull
| VBool (b : bool)
| VNum (n : Z)
| VStr (s : string)
| VDate (t : Z)
| VArr (elems : list JSValue)
| VObj (ctor : Constructible) (fields : list (string * JSValue)).

(** [!!v]: the falsy values are undefined, null, false, 0 and the empty
    string. *)
Definition truthy (v : JSValue) : bool :=
  match v with
  | VUndefined | VNull => false
  | VBool b => b
  | VNum n => negb (n =? 0)
  | VStr s => negb (String.eqb s EmptyString)
  | VDate _ | VArr _ | VObj _ _ => true
  end.

(** [a || b] *)
Definition js_or (a b : JSValue) : JSValue := if truthy a then a else b.

(** [Array.isArray(v)] *)
Definition isArray (v : JSValue) : bool :=
  match v with VArr _ => true | _ => false end.

(** [typeof v === 'object'] ([typeof null] is ['object'] too). *)
Definition typeof_object (v : JSValue) : bool :=
  match v with
  | VNull | VDate _ | VArr _ | VObj _ _ => true
  | _ => false
  end.

(** [v.constructor]; reading a property of undefined or null is a
    TypeError, rendered as [None]. *)
Definition constructorOf (v : JSValue) : option Constructible :=
  match v with
  | VUndefined | VNull => None
  | VBool _ => Some BooleanCtor
  | VNum _ => Some NumberCtor
  | VStr _ => Some StringCtor
  | VDate _ => Some DateCtor
  | VArr _ => Some ArrayCtor
  | VObj c _ => Some c
  end.

(** The chain walked by [instanceof]: the class, the classes it extends,
    and [Object] at the root. *)
Fixpoint ancestors (c : Constructible) : list Constructible :=
  match c with
  | MkConstructible _ _ _ b =>
      c :: match b with Some p => ancestors p | None => [ObjectCtor] end
  end.

(** [v instanceof c]; false on primitives. *)
Definition instanceOf (v : JSValue) (c : Constructible) : bool :=
  match v with
  | VDate _ | VArr _ | VObj _ _ =>
      match constructorOf v with
      | Some c' => bool_decide (c ∈ ancestors c')
      | None => false
      end
  | _ => false
  end.

(** [arr[0]] *)
Definition first (l : list JSValue) : JSValue :=
  match l with [] => VUndefined | x :: _ => x end.

(** ** The identity hash of [_getHash] *)

(** [x & x], [x << 5]: the operand is taken to a signed 32-bit integer. *)
Definition toInt32 (z : Z) : Z := (z + 2 ^ 31) mod 2 ^ 32 - 2 ^ 31.

Definition charCode (a : ascii) : Z := Z.of_nat (nat_of_ascii a).

(** The body of the loop: [hash = (hash << 5) - hash + c; hash = hash & hash]. *)
Definition hash_step (hash : Z) (a : ascii) : Z :=
  let hash := toInt32 (Z.shiftl hash 5) - hash + charCode a in
  toInt32 hash.

Fixpoint hash_loop (hash : Z) (stringify : string) : Z :=
  match stringify with
  | EmptyString => hash
  | String a rest => hash_loop (hash_step hash a) rest
  end.

(** [String.prototype.trim] on code units below 256. *)
Definition is_whitespace (a : ascii) : bool :=
  let n := nat_of_ascii a in
  ((9 <=? n) && (n <=? 13) || (n =? 32) || (n =? 160))%nat.

Fixpoint trimStart (s : string) : string :=
  match s with
  | EmptyString => EmptyString
  | String a rest => if is_whitespace a then trimStart rest else s
  end.

Fixpoint trimEnd (s : string) : string :=
  match s with
  | EmptyString => EmptyString
  | String a rest =>
      match trimEnd rest with
      | EmptyString => if is_whitespace a then EmptyString else String a EmptyString
      | r => String a r
      end
  end.

Definition trim (s : string) : string := trimEnd (trimStart s).

(** [hash.toString()] *)
Definition toString (hash : Z) : string := pretty hash.

(** [s.includes(sub)] *)
Definition includes (s sub : string) : bool :=
  match String.index 0 sub s with Some _ => true | None => false end.


(** ** Errors, hooks and the rule set of a [Mapping] *)

(** The exceptions of the class. All of them are [new Error(message)] in
    the source; the constructor records which message it is and the names
    interpolated into it. [Thrown] is not one of them: it is a value
    thrown by a callback, which the class lets through. *)
Inductive Error : Type :=
| DuplicateMappingError (sourceName destinationName : string)
| MappingNotFoundError (sourceName : string) (destinationName : option string)
| IncompleteMappingError (paths : list string)
| TypeError (message : string)
| Thrown (value : JSValue).

(** What a call of a before/after callback does: it returns, having left
    the destination as given here (a callback mutates the destination it
    receives), or it throws. *)
Inductive ActionResult : Type :=
| Returns (destinationObj : JSValue)
| Throws (e : Error).

(** A before/after callback: it receives the source and the destination.
    [action_name] identifies the callback in the call trace. *)
Record MapAction : Type := {
  action_name : string;
  action : JSValue → JSValue → ActionResult;
}.

Record MapActionOptions : Type := {
  beforeMap : option MapAction;
  afterMap : option MapAction;
}.

(** The literal [{}] passed by [_mapArray]. *)
Definition emptyOptions : MapActionOptions :=
  {| beforeMap := None; afterMap := None |}.

(** A naming-convention tag. *)
Definition NamingConvention : Type := string.

Record CreateMapOptions : Type := {
  opt_sourceMemberNamingConvention : option NamingConvention;
  opt_destinationMemberNamingConvention : option NamingConvention;
}.

(** The tags tested by [_mapMember]; [MapInitialize] is every other tag
    (the rule inferred from the value). *)
Inductive TransformationType : Type :=
| Ignore | MapFrom | Condition | FromValue | MapWith | ConvertUsing
| NullSubstituion | MapInitialize.

#[global] Instance TransformationType_eq_dec : EqDecision TransformationType.
Proof. solve_decision. Defined.

(** [{ predicate, defaultValue? }], the shape of both [preCondition] and
    [condition]. *)
Record ConditionOptions : Type := {
  predicate : JSValue → bool;
  defaultValue : option JSValue;
}.

Record ConvertUsingTransformOptions : Type := {
  converter : JSValue → JSValue;
  value : JSValue → JSValue;
}.

(** [mapWith.fromValue] is a selector; the field is named [mw_fromValue]
    to keep it apart from the [fromValue] literal of the transformation. *)
Record MapWithTransformOptions : Type := {
  mw_destination : Constructible;
  mw_fromValue : JSValue → JSValue;
}.

(** [MapFromCallback = ValueSelector | Resolver]. The resolver is applied
    to the source and the destination. *)
Inductive MapFromCallback : Type :=
| ValueSelector (selector : JSValue → JSValue)
| Resolver (resolve : JSValue → JSValue → JSValue).

Record TransformationTypeOptions : Type := {
  type : TransformationType;
  preCondition : option ConditionOptions;
}.

Record MappingTransformation : Type := {
  transformationType : TransformationTypeOptions;
  mapFrom : option MapFromCallback;
  fromValue : JSValue;
  convertUsing : option ConvertUsingTransformOptions;
  mapWith : option MapWithTransformOptions;
  condition : option ConditionOptions;
  nullSubstitution : JSValue;
}.

(** An entry of [properties]. [_map] reads [transformation] and
    [destinationMemberPath] (line 142). [paths] is declared in [./types]
    and never read by [base.ts]: it is where the helpers of [./utils]
    keep the destination path of the rule and, once recorded, the source
    path it was computed from. *)
Record MappingProperty : Type := {
  paths : list string;
  transformation : MappingTransformation;
  destinationMemberPath : string;
}.

(** A [Map<string, MappingProperty>]: insertion-ordered, keys unique. *)
Definition Properties : Type := list (string * MappingProperty).

Record Mapping : Type := {
  source : Constructible;
  sourceKey : string;
  destination : Constructible;
  destinationKey : string;
  properties : Properties;
  sourceMemberNamingConvention : option NamingConvention;
  destinationMemberNamingConvention : option NamingConvention;
  beforeMapAction : option MapAction;
  afterMapAction : option MapAction;
  baseSource : option Constructible;
  baseDestination : option Constructible;
}.

(** Insertion-ordered string-keyed tables (a [Map], or an object used as
    one): [obj[key]] and [obj[key] = v]. *)
Fixpoint assoc_get {V : Type} (key : string) (t : list (string * V)) : option V :=
  match t with
  | [] => None
  | (k, v) :: rest => if String.eqb k key then Some v else assoc_get key rest
  end.

Fixpoint assoc_set {V : Type} (key : string) (v : V) (t : list (string * V))
  : list (string * V) :=
  match t with
  | [] => [(key, v)]
  | (k, w) :: rest =>
      if String.eqb k key then (k, v) :: rest else (k, w) :: assoc_set key v rest
  end.

(** ** Imports of [base.ts]

    [base.ts] imports these from [lodash.set], [./constants],
    [./metadata-explorer] and [./utils]; they are parameters of the
    development. *)
Class Utils : Type := {
  lodash_set : JSValue → string → JSValue → JSValue;
  defaultMapActionOptions : MapActionOptions;
  instantiate : Constructible → option JSValue → JSValue;
  _assertMappingErrors : JSValue → list string → option Error;
  _get : JSValue → JSValue → string → JSValue;
  _getMappingKey : string → string → string;
  _getProto : Constructible → option Constructible;
  _getSourcePropertyKey :
    option NamingConvention → option NamingConvention → string → string;
  _inheritBaseMapping : Mapping → Mapping → Mapping;
  _initializeReversedMappingProperties : Mapping → Properties;
  _isClass : JSValue → bool;
  _isDate : JSValue → bool;
  _isEmpty : JSValue → bool;
  _isObjectLike : JSValue → bool;
  _isResolver : MapFromCallback → bool;
  _setMappingPropertyForMapFromMember :
    string → string → Mapping → (JSValue → JSValue) → Mapping;
  _wrapMappingKey : string → string;
}.

(** ** State of an [AutoMapperBase] and the monad of its methods *)

(** A reference to a [Mapping] object. *)
Definition loc : Type := nat.

Inductive HookSide : Type := Before | After.
Inductive HookOrigin : Type := PerCall | Configured.

(** What a call does besides returning: a callback it runs, a
    [console.warn], or a nested call of [_map] / [_mapArray] with the
    events of that call. *)
Inductive Event : Type :=
| EvHook (side : HookSide) (origin : HookOrigin) (name : string)
| EvWarn (message : string)
| EvCall (callee : string) (inner : list Event).

(** [_mappings] is a plain object used as a table from keys to [Mapping]
    objects: an insertion-ordered list of entries with distinct keys. (The
    keys are the results of [_getMappingKey]; they are taken not to be
    integer-like, which an object enumerates first, nor names that an
    object inherits, such as [constructor].) [_classNameMap] is the
    [WeakMap] from classes to identities. [heap] holds the [Mapping]
    objects and [trace] what the calls did besides returning. *)
Record State : Type := {
  _mappings : list (string * loc);
  _classNameMap : gmap Constructible string;
  heap : list Mapping;
  trace : list Event;
}.

(** The state built by the constructor, and by [_dispose] when no
    [Mapping] object exists yet. *)
Definition initial : State :=
  {| _mappings := []; _classNameMap := ∅; heap := []; trace := [] |}.

Definition with_mappings (f : list (string * loc) → list (string * loc))
  (st : State) : State :=
  {| _mappings := f (_mappings st); _classNameMap := _classNameMap st;
     heap := heap st; trace := trace st |}.

Definition with_classNameMap
  (f : gmap Constructible string → gmap Constructible string)
  (st : State) : State :=
  {| _mappings := _mappings st; _classNameMap := f (_classNameMap st);
     heap := heap st; trace := trace st |}.

Definition with_heap (f : list Mapping → list Mapping) (st : State) : State :=
  {| _mappings := _mappings st; _classNameMap := _classNameMap st;
     heap := f (heap st); trace := trace st |}.

Definition with_trace (f : list Event → list Event) (st : State) : State :=
  {| _mappings := _mappings st; _classNameMap := _classNameMap st;
     heap := heap st; trace := f (trace st) |}.

(** A call returns, throws, or is cut because the recursion budget of the
    model is spent (the source has no budget: it would recurse on). *)
Inductive Outcome (A : Type) : Type :=
| Ok (a : A)
| Throw (e : Error)
| OutOfFuel.
Arguments Ok {A} a.
Arguments Throw {A} e.
Arguments OutOfFuel {A}.

Definition M (A : Type) : Type := State → Outcome A * State.

Definition ret {A} (a : A) : M A := fun st => (Ok a, st).

Definition bind {A B} (m : M A) (k : A → M B) : M B :=
  fun st =>
    match m st with
    | (Ok a, st') => k a st'
    | (Throw e, st') => (Throw e, st')
    | (OutOfFuel, st') => (OutOfFuel, st')
    end.

Definition throw {A} (e : Error) : M A := fun st => (Throw e, st).
Definition out_of_fuel {A} : M A := fun st => (OutOfFuel, st).
Definition gets {A} (f : State → A) : M A := fun st => (Ok (f st), st).
Definition modify (f : State → State) : M unit := fun st => (Ok tt, f st).

Notation "'let*' x ':=' m 'in' k" := (bind m (fun x => k))
  (at level 10, x pattern, m at level 100, k at level 200).

(** [console.warn(message)] and the record of a callback being run. *)
Definition emit (e : Event) : M unit := modify (with_trace (fun t => t ++ [e])).

(** Runs [m] as a call of [callee]: its events are collected under one
    [EvCall] of the caller's trace. *)
Definition call {A} (callee : string) (m : M A) : M A :=
  fun st =>
    let '(r, st') := m (with_trace (fun _ => []) st) in
    (r, with_trace (fun inner => trace st ++ [EvCall callee inner]) st').

(** Reading through a reference to a [Mapping]. References are created by
    [alloc] only and are never freed, so the [None] case is not reached
    from [initial]. *)
Definition deref (l : loc) : M Mapping :=
  fun st =>
    match heap st !! l with
    | Some m => (Ok m, st)
    | None => (Throw (TypeError "dangling reference"), st)
    end.

Definition alloc (m : Mapping) : M loc :=
  fun st => (Ok (length (heap st)), with_heap (fun h => h ++ [m]) st).

Definition update (l : loc) (f : Mapping → Mapping) : M unit :=
  modify (with_heap (fun h =>
    match h !! l with Some m => <[l := f m]> h | None => h end)).

Fixpoint mapM {A B} (f : A → M B) (l : list A) : M (list B) :=
  match l with
  | [] => ret []
  | x :: rest =>
      let* y := f x in
      let* ys := mapM f rest in
      ret (y :: ys)
  end.

(** ** Promises

    [Promise.resolve().then(callback)] creates a pending promise and
    queues the callback as a microtask. The queue is run first-in
    first-out; a callback that returns fulfils its promise, one that
    throws rejects it. The callbacks queued by this class are synchronous
    and queue nothing themselves. *)
Record EventLoop : Type := {
  mapper : State;
  microtasks : list (nat * M JSValue);
  promises : list (option (Outcome JSValue));
}.

Definition promise_then (callback : M JSValue) (el : EventLoop) : nat * EventLoop :=
  let p := length (promises el) in
  (p, {| mapper := mapper el;
         microtasks := microtasks el ++ [(p, callback)];
         promises := promises el ++ [None] |}).

Definition run_microtask (el : EventLoop) (job : nat * M JSValue) : EventLoop :=
  let '(r, st') := snd job (mapper el) in
  {| mapper := st';
     microtasks := microtasks el;
     promises := <[fst job := Some r]> (promises el) |}.

(** Runs the queued microtasks to completion. *)
Definition drain (el : EventLoop) : EventLoop :=
  fold_left run_microtask (microtasks el)
    {| mapper := mapper el; microtasks := []; promises := promises el |}.

(** ** The methods of [AutoMapperBase] *)

Section AutoMapperBase.
Context {U : Utils}.

(** [_getHash(source, shouldCreate)], lines 589-612. *)
Definition _getHash (source : Constructible) (shouldCreate : bool) : M string :=
  let* cached := gets (fun st => _classNameMap st !! source) in
  match cached with
  | Some h => ret h
  | None =>
      if shouldCreate then
        let stringify := trim (_wrapMappingKey (csource source)) in
        let hash := hash_loop 0 stringify in
        let* _ := modify (with_classNameMap <[source := toString hash]>) in
        ret (toString hash)
      else
        let* inherited :=
          gets (fun st =>
                  match _getProto source with
                  | Some proto => _classNameMap st !! proto
                  | None => None
                  end) in
        match inherited with
        | Some h => ret h
        | None => ret EmptyString
        end
  end.

(** [_getHashedNames(source, destination, shouldCreate = true)],
    lines 580-587. *)
Definition _getHashedNames (source destination : Constructible)
  (shouldCreate : bool) : M (string * string) :=
  let* s := _getHash source shouldCreate in
  let* d := _getHash destination shouldCreate in
  ret (s, d).

(** Truthiness of an optional string argument. *)
Definition given (key : option string) : bool :=
  match key with
  | Some k => negb (String.eqb k EmptyString)
  | None => false
  end.

(** [_hasMapping(source, destination, sourceKey?, destinationKey?)],
    lines 492-516. A stored [Mapping] is an object, hence truthy. *)
Definition _hasMapping (source destination : Constructible)
  (sourceKey destinationKey : option string) : M string :=
  let* key :=
    match sourceKey, destinationKey with
    | Some sk, Some dk =>
        if given sourceKey && given destinationKey
        then ret (_getMappingKey sk dk)
        else
          let* (srcKey, destKey) := _getHashedNames source destination true in
          ret (_getMappingKey srcKey destKey)
    | _, _ =>
        let* (srcKey, destKey) := _getHashedNames source destination true in
        ret (_getMappingKey srcKey destKey)
    end in
  let* existing := gets (fun st => assoc_get key (_mappings st)) in
  match existing with
  | Some _ =>
      throw (DuplicateMappingError (cname source) (cname destination))
  | None => ret key
  end.

(** [_createMappingObject(source, destination, options)], lines 366-407.
    [source.prototype.constructor] is the class itself. *)
Definition _createMappingObject (source0 destination0 : Constructible)
  (options : CreateMapOptions) : M loc :=
  let* (sourceKey0, destinationKey0) :=
    _getHashedNames source0 destination0 true in
  let* _key :=
    _hasMapping source0 destination0 (Some sourceKey0) (Some destinationKey0) in
  let* _mapping :=
    alloc {| source := source0;
             sourceKey := cname source0;
             destination := destination0;
             destinationKey := cname destination0;
             properties := [];
             sourceMemberNamingConvention :=
               opt_sourceMemberNamingConvention options;
             destinationMemberNamingConvention :=
               opt_destinationMemberNamingConvention options;
             beforeMapAction := None;
             afterMapAction := None;
             baseSource := None;
             baseDestination := None |} in
  let* _ := modify (with_mappings (assoc_set _key _mapping)) in
  ret _mapping.

(** [_getMappingForDestination(destination, sourceObj, isInherit = false)],
    lines 464-486. The message names [sourceObj.constructor.name], the
    constructor of a class, which is [Function]. *)
Definition _getMappingForDestination (destination0 sourceObj : Constructible)
  (isInherit : bool) : M (option loc) :=
  let* (srcKey, destKey) := _getHashedNames sourceObj destination0 false in
  let* mapping :=
    gets (fun st => assoc_get (_getMappingKey srcKey destKey) (_mappings st)) in
  match mapping with
  | None =>
      if isInherit then ret None
      else throw (MappingNotFoundError "Function" (Some "Function"))
  | Some l => ret (Some l)
  end.

(** [_createReversedMappingObject(mapping)], lines 409-457. *)
Definition _createReversedMappingObject (mapping : loc) : M loc :=
  let* m := deref mapping in
  let* _reversedKey := _hasMapping (destination m) (source m) None None in
  let* _reversedMapping :=
    alloc {| source := destination m;
             sourceKey := cname (destination m);
             destination := source m;
             destinationKey := cname (source m);
             sourceMemberNamingConvention :=
               destinationMemberNamingConvention m;
             destinationMemberNamingConvention :=
               sourceMemberNamingConvention m;
             properties := _initializeReversedMappingProperties m;
             beforeMapAction := None;
             afterMapAction := None;
             baseSource := baseDestination m;
             baseDestination := baseSource m |} in
  let* _ :=
    match baseDestination m, baseSource m with
    | Some reversedBaseSource, Some reversedBaseDestination =>
        let* reversedBaseMapping :=
          _getMappingForDestination
            reversedBaseDestination reversedBaseSource true in
        match reversedBaseMapping with
        | Some b =>
            let* base := deref b in
            update _reversedMapping (fun r => _inheritBaseMapping r base)
        | None => ret tt
        end
    | _, _ => ret tt
    end in
  let* _ := modify (with_mappings (assoc_set _reversedKey _reversedMapping)) in
  ret _reversedMapping.

(** [_dispose()], lines 459-462. The [Mapping] objects already handed out
    stay alive. *)
Definition _dispose : M unit :=
  let* _ := modify (with_mappings (fun _ => [])) in
  modify (with_classNameMap (fun _ => ∅)).

(** [_getMapping(source, destination)], lines 518-541. *)
Definition _getMapping (source0 destination0 : Constructible) : M loc :=
  let* (srcKey, destKey) := _getHashedNames source0 destination0 true in
  let* mapping :=
    gets (fun st => assoc_get (_getMappingKey srcKey destKey) (_mappings st)) in
  match mapping with
  | None =>
      throw (MappingNotFoundError (cname source0) (Some (cname destination0)))
  | Some l => ret l
  end.

(** [_getMappingForNestedKey(val)], lines 543-578. The two checks after
    the entry is found cannot fail: a stored destination is a class and
    [_getMapping] throws rather than return nothing. *)
Definition _getMappingForNestedKey (val : JSValue) : M loc :=
  match constructorOf val with
  | None => throw (TypeError "Cannot read properties of undefined")
  | Some sourceConstructor =>
      let* mappingName := _getHash sourceConstructor false in
      let* destinationEntry :=
        gets (fun st =>
          List.find
            (fun '(key, _) =>
               match assoc_get key (_mappings st) with
               | Some l =>
                   match heap st !! l with
                   | Some m => String.eqb (sourceKey m) (cname sourceConstructor)
                   | None => false
                   end
               | None => false
               end)
            (List.filter (fun '(key, _) => includes key mappingName)
                         (_mappings st))) in
      match destinationEntry with
      | None => throw (MappingNotFoundError (cname sourceConstructor) None)
      | Some (_, l) =>
          let* entry := deref l in
          _getMapping sourceConstructor (destination entry)
      end
  end.

(** *** Mapping one member, one object, one array *)

(** [beforeMap(sourceObj, destinationObj, { ...mapping })] and the three
    other callback calls: the callback is recorded, then run; what it
    throws is not caught. *)
Definition run_hook (side : HookSide) (origin : HookOrigin) (h : MapAction)
  (sourceObj destinationObj : JSValue) : M JSValue :=
  let* _ := emit (EvHook side origin (action_name h)) in
  match action h sourceObj destinationObj with
  | Returns destinationObj' => ret destinationObj'
  | Throws e => throw e
  end.

(** [new Date(v)] *)
Definition newDate (v : JSValue) : JSValue :=
  match v with
  | VDate t => VDate t
  | VNum n => VDate n
  | _ => VDate 0
  end.

(** [c?.defaultValue || null] *)
Definition defaultValue_or_null (c : option ConditionOptions) : JSValue :=
  js_or (match c with
         | Some c' =>
             match defaultValue c' with Some v => v | None => VUndefined end
         | None => VUndefined
         end) VNull.

(** [_map], [_mapArray] and [_mapMember] call each other. Their bodies
    take the recursive [_map] as [rec_map]; the knot is tied below. *)
Section Bodies.
Variable rec_map : JSValue → loc → MapActionOptions → bool → M JSValue.

(** [_mapArray(sourceArray, mapping, option)], lines 67-92. The array
    given to [beforeMap] is dropped by the assignment that follows. *)
Definition _mapArray_body (sourceArray : list JSValue) (mapping : loc)
  (option : MapActionOptions) : M JSValue :=
  call "_mapArray"
    (let* _ :=
       match beforeMap option with
       | Some h => run_hook Before PerCall h (VArr sourceArray) (VArr [])
       | None => ret VUndefined
       end in
     let* destination0 :=
       mapM (fun s => rec_map s mapping emptyOptions true) sourceArray in
     match afterMap option with
     | Some h => run_hook After PerCall h (VArr sourceArray) (VArr destination0)
     | None => ret (VArr destination0)
     end).

(** [_mapMember(...)], lines 185-364. Returns the destination object
    after the [set]. *)
Definition _mapMember_body (destinationObj : JSValue)
  (destinationMemberPath : string) (sourceObj : JSValue)
  (propSourceMemberPath : string) (mapping : loc)
  (transformation0 : MappingTransformation) : M JSValue :=
  let put v := ret (lodash_set destinationObj destinationMemberPath v) in
  match type (transformationType transformation0) with
  | Ignore => put VNull
  | ConvertUsing =>
      match convertUsing transformation0 with
      | Some cu => put (converter cu (value cu sourceObj))
      | None => throw (TypeError "Cannot destructure convertUsing")
      end
  | MapWith =>
      let _source :=
        match mapWith transformation0 with
        | Some mw => mw_fromValue mw sourceObj
        | None => VUndefined
        end in
      if _isEmpty _source then
        let* _ :=
          emit (EvWarn (String.append propSourceMemberPath " does not exist")) in
        put VNull
      else if negb (_isClass _source) then
        let* _ :=
          emit (EvWarn (String.append destinationMemberPath
                          " is a primitive. No mapping was executed")) in
        put VNull
      else
        match mapWith transformation0, constructorOf _source with
        | Some mw, Some sourceConstructor =>
            let* _mapping :=
              _getMappingForDestination
                (mw_destination mw) sourceConstructor false in
            match _mapping with
            | Some l =>
                match _source with
                | VArr elems =>
                    if _isEmpty (first elems) then put (VArr [])
                    else
                      let* r :=
                        _mapArray_body elems l defaultMapActionOptions in
                      put r
                | _ =>
                    let* r := rec_map _source l defaultMapActionOptions false in
                    put r
                end
            | None => throw (TypeError "mapping is undefined")
            end
        | _, _ => throw (TypeError "Cannot read properties of undefined")
        end
  | FromValue => put (fromValue transformation0)
  | Condition =>
      match condition transformation0 with
      | Some c =>
          if predicate c sourceObj
          then put (_get sourceObj VNull propSourceMemberPath)
          else put (defaultValue_or_null (condition transformation0))
      | None => put (defaultValue_or_null (condition transformation0))
      end
  | NullSubstituion =>
      put (_get sourceObj (nullSubstitution transformation0) propSourceMemberPath)
  | MapFrom =>
      match mapFrom transformation0 with
      | Some cb =>
          if _isResolver cb then
            match cb with
            | Resolver resolve0 => put (resolve0 sourceObj destinationObj)
            | ValueSelector _ => throw (TypeError "resolve is not a function")
            end
          else
            match cb with
            | ValueSelector selector0 =>
                let mapFromValue := selector0 sourceObj in
                let* _ :=
                  update mapping (fun m =>
                    _setMappingPropertyForMapFromMember
                      destinationMemberPath propSourceMemberPath m selector0) in
                put mapFromValue
            | Resolver _ => throw (TypeError "mapFrom is not a function")
            end
      | None => throw (TypeError "mapFrom is not a function")
      end
  | MapInitialize =>
      match mapFrom transformation0 with
      | Some (ValueSelector selector0) =>
          let sourceVal := selector0 sourceObj in
          let nested_or_copy :=
            if typeof_object sourceVal && _isClass sourceVal then
              let* nestedMapping := _getMappingForNestedKey sourceVal in
              let* r :=
                rec_map sourceVal nestedMapping defaultMapActionOptions false in
              put r
            else put sourceVal in
          match sourceVal with
          | VUndefined | VNull => put VNull
          | _ =>
              if _isObjectLike sourceVal then
                if _isDate sourceVal then put (newDate sourceVal)
                else
                  match sourceVal with
                  | VArr elems =>
                      let _first := first elems in
                      if _isEmpty _first then put (VArr [])
                      else if negb (_isObjectLike _first) then put (VArr elems)
                      else
                        let* nestedMapping := _getMappingForNestedKey _first in
                        let* r :=
                          _mapArray_body elems nestedMapping
                            defaultMapActionOptions in
                        put r
                  | _ => nested_or_copy
                  end
              else nested_or_copy
          end
      | _ => throw (TypeError "mapFrom is not a function")
      end
  end.

(** The body of the [for] loop of [_map], lines 141-170, for one entry of
    [props]: the destination path is pushed on [configKeys], the
    [preCondition] is tested, and the member is mapped. *)
Definition _map_property (m : Mapping) (mapping : loc) (sourceObj : JSValue)
  (acc : JSValue * list string) (p : MappingProperty)
  : M (JSValue * list string) :=
  let '(destinationObj, configKeys) := acc in
  let transformation0 := transformation p in
  let destinationMemberPath0 := destinationMemberPath p in
  let configKeys := configKeys ++ [destinationMemberPath0] in
  let propSourceMemberPath :=
    _getSourcePropertyKey (destinationMemberNamingConvention m)
      (sourceMemberNamingConvention m) destinationMemberPath0 in
  let skip :=
    match preCondition (transformationType transformation0) with
    | Some pc => negb (predicate pc sourceObj)
    | None => false
    end in
  if skip then
    ret (lodash_set destinationObj destinationMemberPath0
           (defaultValue_or_null
              (preCondition (transformationType transformation0))),
         configKeys)
  else
    let* destinationObj :=
      _mapMember_body destinationObj destinationMemberPath0 sourceObj
        propSourceMemberPath mapping transformation0 in
    ret (destinationObj, configKeys).

Fixpoint _map_properties (m : Mapping) (mapping : loc) (sourceObj : JSValue)
  (acc : JSValue * list string) (props : list MappingProperty)
  : M (JSValue * list string) :=
  match props with
  | [] => ret acc
  | p :: rest =>
      let* acc := _map_property m mapping sourceObj acc p in
      _map_properties m mapping sourceObj acc rest
  end.

(** The callback run before the members are mapped, lines 132-138, and
    after, lines 174-180. *)
Definition _map_hook (side : HookSide) (isArrayMap : bool)
  (perCall configured : option MapAction)
  (sourceObj destinationObj : JSValue) : M JSValue :=
  if isArrayMap then ret destinationObj
  else
    match perCall, configured with
    | Some h, _ => run_hook side PerCall h sourceObj destinationObj
    | None, Some h => run_hook side Configured h sourceObj destinationObj
    | None, None => ret destinationObj
    end.

(** [_map(sourceObj, mapping, option, isArrayMap)], lines 108-183. The
    fields of [mapping] are read once, on entry; [props] is the array made
    from [properties] before the first member is mapped. *)
Definition _map_body (sourceObj : JSValue) (mapping : loc)
  (option : MapActionOptions) (isArrayMap : bool) : M JSValue :=
  call "_map"
    (let* m := deref mapping in
     let sourceObj :=
       if instanceOf sourceObj (source m) then sourceObj
       else instantiate (source m) (Some sourceObj) in
     let destinationObj := instantiate (destination m) None in
     let* destinationObj :=
       _map_hook Before isArrayMap (beforeMap option) (beforeMapAction m)
         sourceObj destinationObj in
     let props := List.map snd (properties m) in
     let* (destinationObj, configKeys) :=
       _map_properties m mapping sourceObj (destinationObj, []) props in
     match _assertMappingErrors destinationObj configKeys with
     | Some e => throw e
     | None =>
         _map_hook After isArrayMap (afterMap option) (afterMapAction m)
           sourceObj destinationObj
     end).

End Bodies.

(** The recursion of [_map] through [_mapMember] is not structural (a
    selector may return anything), so [_map] takes a budget of nested
    calls. *)
Fixpoint _map (fuel : nat) (sourceObj : JSValue) (mapping : loc)
  (option : MapActionOptions) (isArrayMap : bool) : M JSValue :=
  match fuel with
  | O => out_of_fuel
  | S fuel' => _map_body (_map fuel') sourceObj mapping option isArrayMap
  end.

Definition _mapArray (fuel : nat) : list JSValue → loc → MapActionOptions → M JSValue :=
  _mapArray_body (_map fuel).

Definition _mapMember (fuel : nat)
  : JSValue → string → JSValue → string → loc → MappingTransformation → M JSValue :=
  _mapMember_body (_map fuel).

(** [_mapAsync(sourceObj, mapping, option, isArrayMap)], lines 94-106. *)
Definition _mapAsync (fuel : nat) (sourceObj : JSValue) (mapping : loc)
  (option : MapActionOptions) (isArrayMap : bool)
  : EventLoop → nat * EventLoop :=
  promise_then (_map fuel sourceObj mapping option isArrayMap).


End AutoMapperBase.

(** ** Vocabulary of the properties *)

Section Vocabulary.
Context {U : Utils}.

(** The identity [_getHash] computes for a class it has not seen. *)
Definition identity_hash (c : Constructible) : string :=
  toString (hash_loop 0 (trim (_wrapMappingKey (csource c)))).

(** A mapping is registered for the ordered pair: both classes have their
    identity in [_classNameMap] and [_mappings] has an entry under the key
    of the two identities. *)
Definition registered (st : State) (S D : Constructible) : Prop :=
  ∃ hS hD l,
    _classNameMap st !! S = Some hS ∧
    _classNameMap st !! D = Some hD ∧
    assoc_get (_getMappingKey hS hD) (_mappings st) = Some l.

(** Every cached identity was computed by [_getHash]. *)
Definition wf_cache (st : State) : Prop :=
  ∀ c h, _classNameMap st !! c = Some h → h = identity_hash c.

(** Nothing is taken out of the registry: the entries of [_mappings] and
    the cached identities of [st] are still those of [st']. *)
Definition grows (st st' : State) : Prop :=
  (∀ key l, assoc_get key (_mappings st) = Some l →
            assoc_get key (_mappings st') = Some l) ∧
  (∀ c h, _classNameMap st !! c = Some h → _classNameMap st' !! c = Some h).

(** The calls of the class other than [_dispose]. *)
Inductive Call : Type :=
| CreateMapping (source0 destination0 : Constructible)
    (options : CreateMapOptions)
| CreateReversedMapping (mapping : loc)
| Map (fuel : nat) (sourceObj : JSValue) (mapping : loc)
      (option : MapActionOptions) (isArrayMap : bool)
| MapArray (fuel : nat) (sourceArray : list JSValue) (mapping : loc)
      (option : MapActionOptions).

(** The state a call leaves, whether it returns or throws. *)
Definition after_call (st : State) (c : Call) : State :=
  match c with
  | CreateMapping source0 destination0 options =>
      snd (_createMappingObject source0 destination0 options st)
  | CreateReversedMapping mapping => snd (_createReversedMappingObject mapping st)
  | Map fuel sourceObj mapping option isArrayMap =>
      snd (_map fuel sourceObj mapping option isArrayMap st)
  | MapArray fuel sourceArray mapping option =>
      snd (_mapArray fuel sourceArray mapping option st)
  end.

(** A [MapFrom] rule of [m] with a plain selector, as the loop of [_map]
    hands it to [_mapMember]: the destination path of the rule, the source
    path [_getSourcePropertyKey] gives for it, and the selector. *)
Definition recording_rule (m : Mapping) (path sourcePath : string)
  (sel : JSValue → JSValue) : Prop :=
  ∃ p,
    p ∈ List.map snd (properties m) ∧
    type (transformationType (transformation p)) = MapFrom ∧
    mapFrom (transformation p) = Some (ValueSelector sel) ∧
    _isResolver (ValueSelector sel) = false ∧
    path = destinationMemberPath p ∧
    sourcePath =
      _getSourcePropertyKey (destinationMemberNamingConvention m)
        (sourceMemberNamingConvention m) (destinationMemberPath p).

(** [recording l m h h']: the [Mapping] objects [h'] are the objects [h]
    after an execution of the mapping [m], read through the reference [l]
    when the execution began. The objects change by two kinds of steps
    only: the call [_setMappingPropertyForMapFromMember(path, sourcePath,
    mapping, selector)] on the object at [l] itself, with the arguments of
    one of the [MapFrom] rules of [m]; and a nested execution of a mapping
    [m'], read through [l'] when that execution began. *)
Inductive recording : loc → Mapping → list Mapping → list Mapping → Prop :=
| recording_none l m h : recording l m h h
| recording_step l m h h1 m1 path sourcePath sel :
    recording l m h h1 →
    h1 !! l = Some m1 →
    recording_rule m path sourcePath sel →
    recording l m h
      (<[l := _setMappingPropertyForMapFromMember path sourcePath m1 sel]> h1)
| recording_nested l m h h1 h2 l' m' :
    recording l m h h1 →
    h1 !! l' = Some m' →
    recording l' m' h1 h2 →
    recording l m h h2.

(** What a call of [_map] on the reference [l] does to the [Mapping]
    objects: an execution of the mapping read at [l] on entry; nothing
    when the reference is dangling. *)
Definition executes (l : loc) (h h' : list Mapping) : Prop :=
  match h !! l with
  | Some m => recording l m h h'
  | None => h' = h
  end.

(** A step taken within the execution of [m], read at [l], that began
    with the objects [h0]. *)
Definition keeps_recording (l : loc) (m : Mapping) (h0 : list Mapping)
  (st st' : State) : Prop :=
  recording l m h0 (heap st) → recording l m h0 (heap st').

(** A mapping none of whose [MapFrom] rules records. *)
Definition records_nothing (m : Mapping) : Prop :=
  ∀ path sourcePath sel, ¬ recording_rule m path sourcePath sel.

(** A rule set without [MapFrom] rules. *)
Definition mapFrom_free (m : Mapping) : Prop :=
  Forall (fun p => type (transformationType (transformation p)) ≠ MapFrom)
    (List.map snd (properties m)).

End Vocabulary.

(** [preserves R m]: every run of [m], whatever its outcome, takes a state
    to one related to it by [R]. *)
Definition preserves {A} (R : State → State → Prop) (m : M A) : Prop :=
  ∀ st r st', m st = (r, st') → R st st'.

(** The recording step of a [MapFrom] rule with a selector, run for the
    destination path [path] and the source path [sp], stays within [R]. *)
Definition recording_preserved {U : Utils} (R : State → State → Prop)
  (mapping : loc) (path sp : string) (t : MappingTransformation) : Prop :=
  type (transformationType t) = MapFrom →
  ∀ sel,
    mapFrom t = Some (ValueSelector sel) →
    _isResolver (ValueSelector sel) = false →
    preserves R
      (update mapping
         (fun m => _setMappingPropertyForMapFromMember path sp m sel)).

(** The same for the rule [p] of the mapping [m], with the paths the loop
    of [_map] computes for it. *)
Definition rule_recording_preserved {U : Utils} (R : State → State → Prop)
  (m : Mapping) (mapping : loc) (p : MappingProperty) : Prop :=
  recording_preserved R mapping (destinationMemberPath p)
    (_getSourcePropertyKey (destinationMemberNamingConvention m)
       (sourceMemberNamingConvention m) (destinationMemberPath p))
    (transformation p).

(** A relation on heaps, as a relation on states. *)
Definition on_heap (Rh : list Mapping → list Mapping → Prop) (st st' : State)
  : Prop :=
  Rh (heap st) (heap st').

Definition is_hook (e : Event) : bool :=
  match e with EvHook _ _ _ => true | _ => false end.

(** The callbacks a call ran itself, the nested calls left out. *)
Definition own_hooks (evs : list Event) : list Event := List.filter is_hook evs.

(** The callback picked on one side: the per-call one if given, the
    configured one otherwise. *)
Definition chosen_hook (side : HookSide) (perCall configured : option MapAction)
  : list Event :=
  match perCall, configured with
  | Some h, _ => [EvHook side PerCall (action_name h)]
  | None, Some h => [EvHook side Configured (action_name h)]
  | None, None => []
  end.

(** The callback picked on one side of a call of [_map] for a single
    object: the per-call one if given, the configured one otherwise. *)
Definition chosen_action (perCall configured : option MapAction)
  : option MapAction :=
  match perCall with
  | Some h => Some h
  | None => configured
  end.

(** What calling the picked callback on the source and the destination
    gives; without a callback the destination stays as it is. *)
Definition action_result (h : option MapAction)
  (sourceObj destinationObj : JSValue) : ActionResult :=
  match h with
  | Some h' => action h' sourceObj destinationObj
  | None => Returns destinationObj
  end.

(** The outcome of a call that ends with a callback. *)
Definition returned (r : ActionResult) : Outcome JSValue :=
  match r with
  | Returns destinationObj => Ok destinationObj
  | Throws e => Throw e
  end.

(** A step that runs no callback of its own. *)
Definition quiet (st st' : State) : Prop :=
  ∃ evs, trace st' = trace st ++ evs ∧ own_hooks evs = [].

(** ** Further vocabulary *)

Section MoreVocabulary.
Context {U : Utils}.

(** The registry is well formed: the keys of [_mappings] are distinct,
    every entry refers to a live [Mapping] object, and every cached
    identity is the hash of its class. *)
Definition registry_ok (st : State) : Prop :=
  NoDup (List.map fst (_mappings st)) ∧
  Forall (fun entry => is_Some (heap st !! snd entry)) (_mappings st) ∧
  wf_cache st.

(** The calls of the class, [_dispose] included. *)
Inductive AnyCall : Type :=
| Dispose
| Other (c : Call).

Definition after_any (st : State) (c : AnyCall) : State :=
  match c with
  | Dispose => snd (_dispose st)
  | Other c' => after_call st c'
  end.

(** What [_map] keeps of the registry: the entries of [_mappings], the
    number of [Mapping] objects, and the well-formedness of the cache. *)
Definition keeps_registry (st st' : State) : Prop :=
  _mappings st' = _mappings st ∧
  length (heap st') = length (heap st) ∧
  (∀ c h, _classNameMap st !! c = Some h → _classNameMap st' !! c = Some h) ∧
  (wf_cache st → wf_cache st').

(** What the two registration methods keep: no [Mapping] object is
    dropped and the cache stays well formed. *)
Definition keeps_objects (st st' : State) : Prop :=
  (length (heap st) ≤ length (heap st'))%nat ∧ (wf_cache st → wf_cache st').

(** The [Mapping] object built by [_createMappingObject]. *)
Definition new_mapping (source0 destination0 : Constructible)
  (options : CreateMapOptions) : Mapping :=
  {| source := source0;
     sourceKey := cname source0;
     destination := destination0;
     destinationKey := cname destination0;
     properties := [];
     sourceMemberNamingConvention := opt_sourceMemberNamingConvention options;
     destinationMemberNamingConvention :=
       opt_destinationMemberNamingConvention options;
     beforeMapAction := None;
     afterMapAction := None;
     baseSource := None;
     baseDestination := None |}.

(** The [Mapping] object built by [_createReversedMappingObject], before
    the rules of a base mapping are merged in. *)
Definition reversed_mapping (m : Mapping) : Mapping :=
  {| source := destination m;
     sourceKey := cname (destination m);
     destination := source m;
     destinationKey := cname (source m);
     sourceMemberNamingConvention := destinationMemberNamingConvention m;
     destinationMemberNamingConvention := sourceMemberNamingConvention m;
     properties := _initializeReversedMappingProperties m;
     beforeMapAction := None;
     afterMapAction := None;
     baseSource := baseDestination m;
     baseDestination := baseSource m |}.

(** The outcome of the loop over the rules, passed through
    [_assertMappingErrors]: the destination object when the loop returned
    and the check accepted it. *)
Definition checked (members : Outcome (JSValue * list string))
  : Outcome JSValue :=
  match members with
  | Ok (destinationObj, configKeys) =>
      match _assertMappingErrors destinationObj configKeys with
      | Some e => Throw e
      | None => Ok destinationObj
      end
  | Throw e => Throw e
  | OutOfFuel => OutOfFuel
  end.

(** The elements [sources] are mapped one after the other, each by
    [_map(s, mapping, {}, true)] on the state the one before it left, and
    each call returns: [destinations] holds what the calls returned, in
    order, and [st'] is the state after the last one. *)
Fixpoint mapped_in_turn (fuel : nat) (mapping : loc) (st : State)
  (sources destinations : list JSValue) (st' : State) : Prop :=
  match sources, destinations with
  | [], [] => st' = st
  | s :: sources', d :: destinations' =>
      ∃ st1,
        _map fuel s mapping emptyOptions true st = (Ok d, st1) ∧
        mapped_in_turn fuel mapping st1 sources' destinations' st'
  | _, _ => False
  end.

End MoreVocabulary.

(** [g] does what [f] does whenever [f] is not cut by the budget. *)
Definition refines {A} (f g : M A) : Prop :=
  ∀ st r st', f st = (r, st') → r ≠ OutOfFuel → g st = (r, st').

(** The event of a per-call callback of [_mapArray], if one is given. *)
Definition batch_hook (side : HookSide) (h : option MapAction) : list Event :=
  match h with
  | Some h' => [EvHook side PerCall (action_name h')]
  | None => []
  end.
(** ** An instance of the imports

    The instance below is used to run the methods on concrete inputs. *)
Module Model.

(** ["a.b.c"] to [["a"; "b"; "c"]]. *)
Fixpoint split_path_aux (cur : string) (s : string) : list string :=
  match s with
  | EmptyString => [cur]
  | String a rest =>
      if Ascii.eqb a "."%char then cur :: split_path_aux EmptyString rest
      else split_path_aux (String.append cur (String a EmptyString)) rest
  end.

Definition split_path (path : string) : list string := split_path_aux EmptyString path.

Definition fields_of (v : JSValue) : list (string * JSValue) :=
  match v with VObj _ fs => fs | _ => [] end.

(** Modelled from the spec: [lodash.set], the nested-path-creating
    assignment (intermediate objects are created as needed along the
    path). *)
Fixpoint set_segments (segments : list string) (v : JSValue) (obj : JSValue)
  : JSValue :=
  match segments with
  | [] => v
  | k :: rest =>
      let child :=
        match assoc_get k (fields_of obj) with
        | Some (VObj c fs) => VObj c fs
        | _ => VObj ObjectCtor []
        end in
      let child' := match rest with [] => v | _ => set_segments rest v child end in
      match obj with
      | VObj c fs => VObj c (assoc_set k child' fs)
      | _ => obj
      end
  end.

Definition set (obj : JSValue) (path : string) (v : JSValue) : JSValue :=
  set_segments (split_path path) v obj.

Fixpoint get_segments (segments : list string) (obj : JSValue) : JSValue :=
  match segments with
  | [] => obj
  | k :: rest =>
      match assoc_get k (fields_of obj) with
      | Some child => get_segments rest child
      | None => VUndefined
      end
  end.

(** Modelled from the spec: [_get] of [./utils], the value at the path if
    present, else the given default. *)
Definition get (obj defaultVal : JSValue) (path : string) : JSValue :=
  match get_segments (split_path path) obj with
  | VUndefined | VNull => defaultVal
  | v => v
  end.

(** Modelled from the spec: [instantiate] of [./metadata-explorer], a new
    instance of the type, optionally seeded from a plain data bag. *)
Definition instantiate_bag (c : Constructible) (seed : option JSValue) : JSValue :=
  match seed with
  | Some v => VObj c (fields_of v)
  | None => VObj c []
  end.

(** Modelled from the spec: [_assertMappingErrors] of [./utils], one
    error listing every own property of the destination that is neither
    configured nor set. *)
Definition assertMappingErrors (destinationObj : JSValue)
  (configKeys : list string) : option Error :=
  let unmapped :=
    List.filter
      (fun '(k, v) =>
         match v with
         | VUndefined => negb (existsb (String.eqb k) configKeys)
         | _ => false
         end)
      (fields_of destinationObj) in
  match unmapped with
  | [] => None
  | _ => Some (IncompleteMappingError (List.map fst unmapped))
  end.

(** Modelled from the spec: [_getMappingKey] of [./utils], the two
    identity hashes joined by a delimiter that occurs in neither. *)
Definition getMappingKey (sourceKey0 destinationKey0 : string) : string :=
  String.append sourceKey0 (String.append "->" destinationKey0).

(** Modelled from the spec: [_inheritBaseMapping] of [./utils], the rules
    of the base mapping are merged wherever the mapping does not already
    define that destination path. *)
Definition inheritBaseMapping (m base : Mapping) : Mapping :=
  {| source := source m; sourceKey := sourceKey m;
     destination := destination m; destinationKey := destinationKey m;
     properties :=
       fold_left
         (fun ps '(k, p) =>
            match assoc_get k ps with
            | Some _ => ps
            | None => ps ++ [(k, p)]
            end)
         (properties base) (properties m);
     sourceMemberNamingConvention := sourceMemberNamingConvention m;
     destinationMemberNamingConvention := destinationMemberNamingConvention m;
     beforeMapAction := beforeMapAction m;
     afterMapAction := afterMapAction m;
     baseSource := baseSource m;
     baseDestination := baseDestination m |}.

(** The structural-copy rule of a path: the default rule, reading the
    value at [sourcePath]. *)
Definition copy_rule (destinationPath sourcePath : string) : MappingProperty :=
  {| paths := [destinationPath; sourcePath];
     destinationMemberPath := destinationPath;
     transformation :=
       {| transformationType := {| type := MapInitialize; preCondition := None |};
          mapFrom := Some (ValueSelector (fun s => get s VUndefined sourcePath));
          fromValue := VUndefined;
          convertUsing := None;
          mapWith := None;
          condition := None;
          nullSubstitution := VUndefined |} |}.

(** Modelled from the spec: [_initializeReversedMappingProperties] of
    [./utils], a rule with a recorded source path inverts to a structural
    copy from the destination path to that source path; a rule without one
    is left unmapped in the reverse direction. *)
Definition initializeReversedMappingProperties (m : Mapping) : Properties :=
  fold_left
    (fun ps '(k, p) =>
       match paths p with
       | [d; s] => assoc_set s (copy_rule s d) ps
       | _ => ps
       end)
    (properties m) [].

Definition isObjectLike (v : JSValue) : bool :=
  match v with VDate _ | VArr _ | VObj _ _ => true | _ => false end.

(** Modelled from the spec: [_setMappingPropertyForMapFromMember] of
    [./utils], executing a [MapFrom] rule with a selector records the
    implied source path on the rule of that destination path, for the
    later derivation of the reverse mapping. *)
Definition setMappingPropertyForMapFromMember (path sourcePath : string)
  (m : Mapping) (selector0 : JSValue → JSValue) : Mapping :=
  let recorded :=
    {| paths := [path; sourcePath];
       destinationMemberPath := path;
       transformation :=
         {| transformationType :=
              {| type := MapFrom;
                 preCondition :=
                   match assoc_get path (properties m) with
                   | Some p => preCondition (transformationType (transformation p))
                   | None => None
                   end |};
            mapFrom := Some (ValueSelector selector0);
            fromValue := VUndefined;
            convertUsing := None;
            mapWith := None;
            condition := None;
            nullSubstitution := VUndefined |} |} in
  {| source := source m; sourceKey := sourceKey m;
     destination := destination m; destinationKey := destinationKey m;
     properties := assoc_set path recorded (properties m);
     sourceMemberNamingConvention := sourceMemberNamingConvention m;
     destinationMemberNamingConvention := destinationMemberNamingConvention m;
     beforeMapAction := beforeMapAction m;
     afterMapAction := afterMapAction m;
     baseSource := baseSource m;
     baseDestination := baseDestination m |}.

(** Modelled from the spec: the remaining imports. No hook is run by
    default; a missing value is one that is absent or null; an object is
    anything that is not a primitive; the inheritance chain of a class is
    the class it extends; the serialized definition is hashed as it is;
    a path passes through unchanged when a convention is unset or the two
    conventions are the same. *)
#[export] Instance utils : Utils := {|
  lodash_set := set;
  defaultMapActionOptions := emptyOptions;
  instantiate := instantiate_bag;
  _assertMappingErrors := assertMappingErrors;
  _get := get;
  _getMappingKey := getMappingKey;
  _getProto := cbase;
  _getSourcePropertyKey := fun _ _ path => path;
  _inheritBaseMapping := inheritBaseMapping;
  _initializeReversedMappingProperties := initializeReversedMappingProperties;
  _isClass := isObjectLike;
  _isDate := fun v => match v with VDate _ => true | _ => false end;
  _isEmpty := fun v => match v with VUndefined | VNull => true | _ => false end;
  _isObjectLike := isObjectLike;
  _isResolver := fun cb => match cb with Resolver _ => true | _ => false end;
  _setMappingPropertyForMapFromMember := setMappingPropertyForMapFromMember;
  _wrapMappingKey := fun s => s;
|}.

End Model.


(** * Concrete runs *)

Module Examples.
Import Model.

Definition noConventions : CreateMapOptions :=
  {| opt_sourceMemberNamingConvention := None;
     opt_destinationMemberNamingConvention := None |}.

(** A transformation of the given tag with every option left out. *)
Definition bare (ty : TransformationType) : MappingTransformation :=
  {| transformationType := {| type := ty; preCondition := None |};
     mapFrom := None; fromValue := VUndefined; convertUsing := None;
     mapWith := None; condition := None; nullSubstitution := VUndefined |}.

Definition with_properties (ps : Properties) (m : Mapping) : Mapping :=
  {| source := source m; sourceKey := sourceKey m;
     destination := destination m; destinationKey := destinationKey m;
     properties := ps;
     sourceMemberNamingConvention := sourceMemberNamingConvention m;
     destinationMemberNamingConvention := destinationMemberNamingConvention m;
     beforeMapAction := beforeMapAction m;
     afterMapAction := afterMapAction m;
     baseSource := baseSource m;
     baseDestination := baseDestination m |}.

(** The configuration phase: the rule of a destination path is put into
    [properties] of the mapping. *)
Definition forMember (mapping : loc) (path : string) (t : MappingTransformation)
  (st : State) : State :=
  snd (update mapping
         (fun m =>
            with_properties
              (assoc_set path
                 {| paths := [path]; transformation := t;
                    destinationMemberPath := path |}
                 (properties m)) m) st).

Definition with_hooks (before after : option MapAction) (m : Mapping) : Mapping :=
  {| source := source m; sourceKey := sourceKey m;
     destination := destination m; destinationKey := destinationKey m;
     properties := properties m;
     sourceMemberNamingConvention := sourceMemberNamingConvention m;
     destinationMemberNamingConvention := destinationMemberNamingConvention m;
     beforeMapAction := before;
     afterMapAction := after;
     baseSource := baseSource m;
     baseDestination := baseDestination m |}.

(** *** Person to PersonDTO *)

Definition Person : Constructible :=
  MkConstructible 10 "Person" "class Person {}" None.
Definition PersonDTO : Constructible :=
  MkConstructible 11 "PersonDTO" "class PersonDTO {}" None.

Definition string_of (v : JSValue) : string :=
  match v with VStr s => s | _ => EmptyString end.

(** [s => s.firstName + ' ' + s.lastName] *)
Definition fullName_of (s : JSValue) : JSValue :=
  VStr (String.append (string_of (get s VUndefined "firstName"))
          (String.append " " (string_of (get s VUndefined "lastName")))).

Definition ada : JSValue :=
  VObj Person [("firstName", VStr "Ada"); ("lastName", VStr "Lovelace")].

(** After [createMapping(Person, PersonDTO)]. *)
Definition st_person : State :=
  snd (_createMappingObject Person PersonDTO noConventions initial).

Definition person_mapping : Mapping :=
  {| source := Person; sourceKey := "Person";
     destination := PersonDTO; destinationKey := "PersonDTO";
     properties := [];
     sourceMemberNamingConvention := None;
     destinationMemberNamingConvention := None;
     beforeMapAction := None; afterMapAction := None;
     baseSource := None; baseDestination := None |}.

(** With [fullName] configured by [MapFrom]. *)
Definition mapFrom_fullName : MappingTransformation :=
  {| transformationType := {| type := MapFrom; preCondition := None |};
     mapFrom := Some (ValueSelector fullName_of);
     fromValue := VUndefined; convertUsing := None; mapWith := None;
     condition := None; nullSubstitution := VUndefined |}.

Definition st_fullName : State :=
  forMember 0%nat "fullName" mapFrom_fullName st_person.

(** With both directions registered. *)
Definition st_both : State :=
  snd (_createMappingObject PersonDTO Person noConventions st_person).


(** *** Two definitions with one text *)

Definition User : Constructible :=
  MkConstructible 20 "User" "class User { constructor() { this.name = ''; } }" None.
Definition User' : Constructible :=
  MkConstructible 21 "User" "class User { constructor() { this.name = ''; } }" None.
Definition UserDTO : Constructible :=
  MkConstructible 22 "UserDTO" "class UserDTO {}" None.

(** *** Rules with a default value *)

(** [condition(s => false, v)] *)
Definition condition_never (v : JSValue) : MappingTransformation :=
  {| transformationType := {| type := Condition; preCondition := None |};
     mapFrom := None; fromValue := VUndefined; convertUsing := None;
     mapWith := None;
     condition := Some {| predicate := fun _ => false; defaultValue := Some v |};
     nullSubstitution := VUndefined |}.

(** [preCondition(s => false, v)] on a [fromValue(42)] rule. *)
Definition preCondition_never (v : JSValue) : MappingTransformation :=
  {| transformationType :=
       {| type := FromValue;
          preCondition :=
            Some {| predicate := fun _ => false; defaultValue := Some v |} |};
     mapFrom := None; fromValue := VNum 42; convertUsing := None;
     mapWith := None; condition := None; nullSubstitution := VUndefined |}.

(** [nullSubstitution(v)] *)
Definition nullSubstitution_of (v : JSValue) : MappingTransformation :=
  {| transformationType := {| type := NullSubstituion; preCondition := None |};
     mapFrom := None; fromValue := VUndefined; convertUsing := None;
     mapWith := None; condition := None; nullSubstitution := v |}.

(** *** An order and its items *)

Definition Order : Constructible :=
  MkConstructible 30 "Order" "class Order {}" None.
Definition OrderDTO : Constructible :=
  MkConstructible 31 "OrderDTO" "class OrderDTO {}" None.
Definition Item : Constructible :=
  MkConstructible 32 "Item" "class Item {}" None.
Definition ItemDTO : Constructible :=
  MkConstructible 33 "ItemDTO" "class ItemDTO {}" None.

Definition item (id : Z) : JSValue := VObj Item [("id", VNum id)].
Definition order (items : JSValue) : JSValue := VObj Order [("items", items)].

(** [mapFrom(s => s.id)] *)
Definition mapFrom_id : MappingTransformation :=
  {| transformationType := {| type := MapFrom; preCondition := None |};
     mapFrom := Some (ValueSelector (fun s => get s VUndefined "id"));
     fromValue := VUndefined; convertUsing := None; mapWith := None;
     condition := None; nullSubstitution := VUndefined |}.

(** [mapWith(ItemDTO, s => s.items)] *)
Definition mapWith_items : MappingTransformation :=
  {| transformationType := {| type := MapWith; preCondition := None |};
     mapFrom := None; fromValue := VUndefined; convertUsing := None;
     mapWith :=
       Some {| mw_destination := ItemDTO;
               mw_fromValue := fun s => get s VUndefined "items" |};
     condition := None; nullSubstitution := VUndefined |}.

(** The rule inferred for [items]. *)
Definition inferred_items : MappingTransformation :=
  {| transformationType := {| type := MapInitialize; preCondition := None |};
     mapFrom := Some (ValueSelector (fun s => get s VUndefined "items"));
     fromValue := VUndefined; convertUsing := None; mapWith := None;
     condition := None; nullSubstitution := VUndefined |}.

(** [Item -> ItemDTO] is mapping 0 with [identifier] from [id];
    [Order -> OrderDTO] is mapping 1. *)
Definition st_items : State :=
  let st := snd (_createMappingObject Item ItemDTO noConventions initial) in
  let st := forMember 0%nat "identifier" mapFrom_id st in
  snd (_createMappingObject Order OrderDTO noConventions st).

(** The same two mappings with the inferred rule for [items] only: no
    [MapFrom] rule anywhere. *)
Definition st_order_plain : State :=
  let st := snd (_createMappingObject Item ItemDTO noConventions initial) in
  let st := snd (_createMappingObject Order OrderDTO noConventions st) in
  forMember 1%nat "items" inferred_items st.

Definition st_order_mapWith : State := forMember 1%nat "items" mapWith_items st_items.
Definition st_order_inferred : State := forMember 1%nat "items" inferred_items st_items.

(** *** Callbacks *)

Definition stamp (name : string) : MapAction :=
  {| action_name := name;
     action := fun _ d => Returns (lodash_set d name (VBool true)) |}.

Definition st_hooks : State :=
  snd (update 0%nat
         (with_hooks (Some (stamp "configuredBefore"))
                     (Some (stamp "configuredAfter"))) st_person).

Definition hooked_mapping : Mapping :=
  with_hooks (Some (stamp "configuredBefore")) (Some (stamp "configuredAfter"))
    person_mapping.

End Examples.
(** * Further concrete runs *)

Module Cases.
Import Model Examples.

(** *** A class and its subclass *)

Definition Animal : Constructible :=
  MkConstructible 40 "Animal" "class Animal {}" None.
Definition Dog : Constructible :=
  MkConstructible 41 "Dog" "class Dog extends Animal {}" (Some Animal).
Definition AnimalDTO : Constructible :=
  MkConstructible 42 "AnimalDTO" "class AnimalDTO {}" None.

(** After [createMapping(Animal, AnimalDTO)]. *)
Definition st_animal : State :=
  after_call initial (CreateMapping Animal AnimalDTO noConventions).

(** *** One source, two destinations *)

Definition ItemView : Constructible :=
  MkConstructible 34 "ItemView" "class ItemView {}" None.

(** [Order -> OrderDTO], then [Item -> ItemDTO], then [Item -> ItemView]. *)
Definition st_two_views : State :=
  fold_left after_any
    [Other (CreateMapping Order OrderDTO noConventions);
     Other (CreateMapping Item ItemDTO noConventions);
     Other (CreateMapping Item ItemView noConventions)]
    initial.

(** *** A nested object mapped by [mapWith] *)

(** [mapWith(ItemDTO, s => s.first)] *)
Definition mapWith_first : MappingTransformation :=
  {| transformationType := {| type := MapWith; preCondition := None |};
     mapFrom := None; fromValue := VUndefined; convertUsing := None;
     mapWith :=
       Some {| mw_destination := ItemDTO;
               mw_fromValue := fun s => get s VUndefined "first" |};
     condition := None; nullSubstitution := VUndefined |}.

Definition order_of (first : JSValue) : JSValue := VObj Order [("first", first)].

(** *** The mapping of [st_fullName] *)

Definition fullName_mapping : Mapping :=
  with_properties
    [("fullName",
      {| paths := ["fullName"]; transformation := mapFrom_fullName;
         destinationMemberPath := "fullName" |})]
    person_mapping.

(** *** Callbacks of a batch *)

Definition batch_options : MapActionOptions :=
  {| beforeMap := Some (stamp "batchBefore");
     afterMap := Some (stamp "batchAfter") |}.

End Cases.
(** * Properties *)

(** ** Generic facts about the monad and the tables *)

Lemma bind_Ok {A B} (m : M A) (k : A → M B) st a st1 :
  m st = (Ok a, st1) → bind m k st = k a st1.
Proof. intros H. unfold bind. rewrite H. reflexivity. Qed.

Lemma bind_Throw {A B} (m : M A) (k : A → M B) st e st1 :
  m st = (Throw e, st1) → bind m k st = (Throw e, st1).
Proof. intros H. unfold bind. rewrite H. reflexivity. Qed.

Lemma bind_inv {A B} (m : M A) (k : A → M B) st r st' :
  bind m k st = (r, st') →
  (∃ a st1, m st = (Ok a, st1) ∧ k a st1 = (r, st')) ∨
  (∃ e, m st = (Throw e, st') ∧ r = Throw e) ∨
  (m st = (OutOfFuel, st') ∧ r = OutOfFuel).
Proof.
  unfold bind. destruct (m st) as [[a|e|] st1] eqn:E; intros H.
  - left. eauto.
  - right. left. inversion H; subst. eauto.
  - right. right. inversion H; subst. eauto.
Qed.

Lemma assoc_get_set_eq {V} key (v : V) t : assoc_get key (assoc_set key v t) = Some v.
Proof.
  induction t as [|[k w] t IH]; simpl.
  - rewrite String.eqb_refl. reflexivity.
  - destruct (String.eqb k key) eqn:E; simpl; rewrite E; auto.
Qed.

Lemma assoc_get_set_ne {V} key key' (v : V) t :
  key ≠ key' → assoc_get key' (assoc_set key v t) = assoc_get key' t.
Proof.
  intros Hne. induction t as [|[k w] t IH]; simpl.
  - destruct (String.eqb key key') eqn:E; [|reflexivity].
    apply String.eqb_eq in E. contradiction.
  - destruct (String.eqb k key) eqn:E; simpl.
    + apply String.eqb_eq in E. subst k.
      destruct (String.eqb key key') eqn:E'; [|reflexivity].
      apply String.eqb_eq in E'. contradiction.
    + destruct (String.eqb k key'); auto.
Qed.

Lemma assoc_set_fresh {V} key (v : V) t :
  assoc_get key t = None → assoc_set key v t = t ++ [(key, v)].
Proof.
  induction t as [|[k w] t IH]; simpl; [reflexivity|].
  destruct (String.eqb k key); [discriminate|].
  intros H. rewrite IH by exact H. reflexivity.
Qed.

(** ** The registry *)

Section Registry.
Context {U : Utils}.

Lemma wf_cache_initial : wf_cache initial.
Proof. intros c h H. simpl in H. rewrite lookup_empty in H. discriminate. Qed.

Lemma getHash_cached c h b st :
  _classNameMap st !! c = Some h → _getHash c b st = (Ok h, st).
Proof.
  intros H. unfold _getHash, bind, gets. rewrite H. reflexivity.
Qed.

Lemma getHash_create c st :
  _classNameMap st !! c = None →
  _getHash c true st =
    (Ok (identity_hash c), with_classNameMap <[c := identity_hash c]> st).
Proof.
  intros H. unfold _getHash, bind, gets. rewrite H. reflexivity.
Qed.

Lemma getHashedNames_cached S D hS hD b st :
  _classNameMap st !! S = Some hS →
  _classNameMap st !! D = Some hD →
  _getHashedNames S D b st = (Ok (hS, hD), st).
Proof.
  intros HS HD. unfold _getHashedNames.
  rewrite (bind_Ok _ _ _ _ _ (getHash_cached S hS b st HS)).
  rewrite (bind_Ok _ _ _ _ _ (getHash_cached D hD b st HD)).
  reflexivity.
Qed.

(** With both identities cached, [_hasMapping] computes the key of the two
    identities whether or not the optional arguments are passed. *)
Lemma hasMapping_key S D hS hD sk dk st :
  _classNameMap st !! S = Some hS →
  _classNameMap st !! D = Some hD →
  (sk = None ∨ sk = Some hS) → (dk = None ∨ dk = Some hD) →
  _hasMapping S D sk dk st =
    match assoc_get (_getMappingKey hS hD) (_mappings st) with
    | Some _ => (Throw (DuplicateMappingError (cname S) (cname D)), st)
    | None => (Ok (_getMappingKey hS hD), st)
    end.
Proof.
  intros HS HD Hsk Hdk. unfold _hasMapping.
  assert (Hnames := getHashedNames_cached S D hS hD true st HS HD).
  assert (Hkey :
    (match sk, dk with
     | Some sk', Some dk' =>
         if given sk && given dk then ret (_getMappingKey sk' dk')
         else
           let* (srcKey, destKey) := _getHashedNames S D true in
           ret (_getMappingKey srcKey destKey)
     | _, _ =>
         let* (srcKey, destKey) := _getHashedNames S D true in
         ret (_getMappingKey srcKey destKey)
     end) st = (Ok (_getMappingKey hS hD), st)).
  { destruct Hsk as [->| ->], Hdk as [->| ->];
      try (rewrite (bind_Ok _ _ _ _ _ Hnames); reflexivity).
    destruct (given (Some hS) && given (Some hD)).
    - reflexivity.
    - rewrite (bind_Ok _ _ _ _ _ Hnames). reflexivity. }
  rewrite (bind_Ok _ _ _ _ _ Hkey).
  unfold bind, gets.
  destruct (assoc_get (_getMappingKey hS hD) (_mappings st)); reflexivity.
Qed.

(** What [_getHash(c, true)] does to the state. *)
Lemma getHash_true_spec c st :
  ∃ h st',
    _getHash c true st = (Ok h, st') ∧
    _classNameMap st' !! c = Some h ∧
    _mappings st' = _mappings st ∧ heap st' = heap st ∧ trace st' = trace st ∧
    (∀ c' h', _classNameMap st !! c' = Some h' → _classNameMap st' !! c' = Some h') ∧
    (wf_cache st → wf_cache st' ∧ h = identity_hash c).
Proof.
  destruct (_classNameMap st !! c) as [h|] eqn:E.
  - exists h, st. rewrite (getHash_cached c h true st E).
    repeat split; auto.
  - exists (identity_hash c), (with_classNameMap <[c := identity_hash c]> st).
    rewrite (getHash_create c st E). simpl.
    repeat split; auto.
    + apply lookup_insert_eq.
    + intros c' h' H'. rewrite lookup_insert_ne; [exact H'|].
      intros ->. rewrite E in H'. discriminate.
    + intros c' h'. simpl. rewrite lookup_insert.
      case_decide as Hc; [intros [= <-]; subst; reflexivity|apply H].
Qed.

Lemma getHashedNames_true_spec S D st :
  ∃ hS hD st',
    _getHashedNames S D true st = (Ok (hS, hD), st') ∧
    _classNameMap st' !! S = Some hS ∧ _classNameMap st' !! D = Some hD ∧
    _mappings st' = _mappings st ∧ heap st' = heap st ∧ trace st' = trace st ∧
    (∀ c' h', _classNameMap st !! c' = Some h' → _classNameMap st' !! c' = Some h') ∧
    (wf_cache st → wf_cache st' ∧ hS = identity_hash S ∧ hD = identity_hash D).
Proof.
  destruct (getHash_true_spec S st) as (hS & st1 & E1 & HS & Hm1 & Hh1 & Ht1 & Hmono1 & Hwf1).
  destruct (getHash_true_spec D st1) as (hD & st2 & E2 & HD & Hm2 & Hh2 & Ht2 & Hmono2 & Hwf2).
  exists hS, hD, st2. unfold _getHashedNames.
  rewrite (bind_Ok _ _ _ _ _ E1), (bind_Ok _ _ _ _ _ E2).
  repeat split; auto; try congruence.
  - destruct (Hwf1 H) as [Hw1 _]. apply (Hwf2 Hw1).
  - apply (Hwf1 H).
  - destruct (Hwf1 H) as [Hw1 _]. apply (Hwf2 Hw1).
Qed.

(** [_getHash(c, false)] only reads. *)
Lemma getHash_false_spec c st :
  ∃ h, _getHash c false st = (Ok h, st).
Proof.
  unfold _getHash, bind, gets.
  destruct (_classNameMap st !! c); [eauto|].
  destruct (_getProto c) as [proto|]; [|eauto].
  destruct (_classNameMap st !! proto); eauto.
Qed.

Lemma getHashedNames_false_spec S D st :
  ∃ hS hD, _getHashedNames S D false st = (Ok (hS, hD), st).
Proof.
  destruct (getHash_false_spec S st) as [hS E1].
  destruct (getHash_false_spec D st) as [hD E2].
  exists hS, hD. unfold _getHashedNames.
  rewrite (bind_Ok _ _ _ _ _ E1), (bind_Ok _ _ _ _ _ E2). reflexivity.
Qed.

Lemma getMappingForDestination_state D S b st r st' :
  _getMappingForDestination D S b st = (r, st') → st' = st.
Proof.
  unfold _getMappingForDestination.
  destruct (getHashedNames_false_spec S D st) as (hS & hD & E).
  rewrite (bind_Ok _ _ _ _ _ E). unfold bind, gets.
  destruct (assoc_get _ _); [|destruct b]; intros [= _ <-]; reflexivity.
Qed.

Lemma bind_inv_hasMapping {B} S D hS hD st (k : string → M B) :
  _classNameMap st !! S = Some hS →
  _classNameMap st !! D = Some hD →
  bind (_hasMapping S D (Some hS) (Some hD)) k st =
    match assoc_get (_getMappingKey hS hD) (_mappings st) with
    | Some _ => (Throw (DuplicateMappingError (cname S) (cname D)), st)
    | None => k (_getMappingKey hS hD) st
    end.
Proof.
  intros HS HD.
  assert (Hk := hasMapping_key S D hS hD (Some hS) (Some hD) st HS HD
                  (or_intror eq_refl) (or_intror eq_refl)).
  destruct (assoc_get _ _).
  - exact (bind_Throw _ _ _ _ _ Hk).
  - exact (bind_Ok _ _ _ _ _ Hk).
Qed.

(** What [_createMappingObject] does when it returns. *)
Lemma createMapping_Ok S D options st l st' :
  _createMappingObject S D options st = (Ok l, st') →
  ∃ hS hD,
    _classNameMap st' !! S = Some hS ∧ _classNameMap st' !! D = Some hD ∧
    assoc_get (_getMappingKey hS hD) (_mappings st) = None ∧
    _mappings st' = _mappings st ++ [(_getMappingKey hS hD, l)] ∧
    l = length (heap st) ∧
    (∃ m, heap st' = heap st ++ [m] ∧ source m = S ∧ destination m = D ∧
          properties m = []) ∧
    (∀ c' h', _classNameMap st !! c' = Some h' → _classNameMap st' !! c' = Some h') ∧
    (wf_cache st → wf_cache st' ∧ hS = identity_hash S ∧ hD = identity_hash D).
Proof.
  unfold _createMappingObject.
  destruct (getHashedNames_true_spec S D st)
    as (hS & hD & st1 & E & HS & HD & Hm & Hh & Ht & Hmono & Hwf).
  rewrite (bind_Ok _ _ _ _ _ E).
  assert (Hk := hasMapping_key S D hS hD (Some hS) (Some hD) st1 HS HD
                  (or_intror eq_refl) (or_intror eq_refl)).
  destruct (assoc_get (_getMappingKey hS hD) (_mappings st1)) eqn:Eg.
  - rewrite (bind_Throw _ _ _ _ _ Hk). discriminate.
  - rewrite (bind_Ok _ _ _ _ _ Hk). unfold bind, alloc, modify, ret. simpl.
    intros [= <- <-]. exists hS, hD. simpl.
    rewrite Hm in Eg. rewrite Hm, Hh.
    repeat split; auto.
    + apply assoc_set_fresh, Eg.
    + eexists. split; [reflexivity|]. simpl. auto.
    + apply Hwf, H.
    + apply Hwf, H.
    + apply Hwf, H.
Qed.

(** A successful registration registers the pair. *)
Lemma createMapping_registers S D options st l st' :
  _createMappingObject S D options st = (Ok l, st') → registered st' S D.
Proof.
  intros H. apply createMapping_Ok in H.
  destruct H as (hS & hD & HS & HD & Hfree & Hm & _).
  exists hS, hD, l. repeat split; auto.
  rewrite Hm, <- (assoc_set_fresh _ l _ Hfree). apply assoc_get_set_eq.
Qed.

(** A registered pair is refused, and the refusal changes nothing. *)
Lemma registered_pair_is_refused S D options st :
  registered st S D →
  _createMappingObject S D options st =
    (Throw (DuplicateMappingError (cname S) (cname D)), st).
Proof.
  intros (hS & hD & l & HS & HD & Hl). unfold _createMappingObject.
  rewrite (bind_Ok _ _ _ _ _ (getHashedNames_cached S D hS hD true st HS HD)).
  rewrite (bind_inv_hasMapping S D hS hD st _ HS HD), Hl. reflexivity.
Qed.

(** C1. [_createMappingObject(S, D, options)] on a registry that already
    holds a mapping for the ordered pair (S, D) throws the
    duplicate-mapping error and leaves the state of the mapper as it was:
    no mapping is added, removed or replaced. *)
Theorem createMapping_duplicate S D options st :
  registered st S D →
  _createMappingObject S D options st =
    (Throw (DuplicateMappingError (cname S) (cname D)), st) ∧
  _mappings (snd (_createMappingObject S D options st)) = _mappings st.
Proof.
  intros Hreg. rewrite (registered_pair_is_refused S D options st Hreg).
  split; reflexivity.
Qed.

(** [_hasMapping] without the optional keys: the identities are computed
    (and cached) first. *)
Lemma hasMapping_nokeys S D st :
  ∃ hS hD st1,
    _getHashedNames S D true st = (Ok (hS, hD), st1) ∧
    _mappings st1 = _mappings st ∧ heap st1 = heap st ∧
    (∀ c h, _classNameMap st !! c = Some h → _classNameMap st1 !! c = Some h) ∧
    _hasMapping S D None None st =
      match assoc_get (_getMappingKey hS hD) (_mappings st) with
      | Some _ => (Throw (DuplicateMappingError (cname S) (cname D)), st1)
      | None => (Ok (_getMappingKey hS hD), st1)
      end.
Proof.
  destruct (getHashedNames_true_spec S D st)
    as (hS & hD & st1 & E & _ & _ & Hmp & Hh & _ & Hmono & _).
  exists hS, hD, st1. repeat split; auto.
  unfold _hasMapping, bind, gets, ret. rewrite E, Hmp.
  destruct (assoc_get _ _); reflexivity.
Qed.

(** What [_createReversedMappingObject] does to the registry, whatever
    its outcome: identities may be cached; either [_mappings] is as it
    was and the call did not return, or the call returned a fresh
    reference, stored under a key that was free. *)
Lemma createReversedMapping_spec mapping st r st' :
  _createReversedMappingObject mapping st = (r, st') →
  (∀ c h, _classNameMap st !! c = Some h → _classNameMap st' !! c = Some h) ∧
  ((_mappings st' = _mappings st ∧ ∀ l, r ≠ Ok l) ∨
   (∃ l key,
      r = Ok l ∧
      assoc_get key (_mappings st) = None ∧
      _mappings st' = _mappings st ++ [(key, l)] ∧
      l = length (heap st))).
Proof.
  unfold _createReversedMappingObject. intros Hrun.
  apply bind_inv in Hrun.
  destruct Hrun as [(m & st0 & Hd & Hrun)|[(e & Hd & ->)|[Hd ->]]];
    unfold deref in Hd; destruct (heap st !! mapping); try discriminate.
  2:{ injection Hd as _ <-. split; [auto|]. left. split; [auto|discriminate]. }
  injection Hd as -> <-.
  destruct (hasMapping_nokeys (destination m) (source m) st)
    as (hS & hD & st1 & _ & Hmp & Hh & Hmono & Hk).
  destruct (assoc_get (_getMappingKey hS hD) (_mappings st)) eqn:Efree.
  { rewrite (bind_Throw _ _ _ _ _ Hk) in Hrun. injection Hrun as <- <-.
    split; [exact Hmono|]. left. split; [exact Hmp|discriminate]. }
  rewrite (bind_Ok _ _ _ _ _ Hk) in Hrun.
  unfold bind at 1, alloc at 1 in Hrun.
  apply bind_inv in Hrun.
  assert (Hinherit : ∀ (u : Outcome unit) st3,
    match baseDestination m, baseSource m with
    | Some reversedBaseSource, Some reversedBaseDestination =>
        let* reversedBaseMapping :=
          _getMappingForDestination
            reversedBaseDestination reversedBaseSource true in
        match reversedBaseMapping with
        | Some b =>
            let* base := deref b in
            update (length (heap st1)) (fun r0 => _inheritBaseMapping r0 base)
        | None => ret tt
        end
    | _, _ => ret tt
    end
      (with_heap
         (fun h =>
            h ++ [{| source := destination m;
                     sourceKey := cname (destination m);
                     destination := source m;
                     destinationKey := cname (source m);
                     properties := _initializeReversedMappingProperties m;
                     sourceMemberNamingConvention :=
                       destinationMemberNamingConvention m;
                     destinationMemberNamingConvention :=
                       sourceMemberNamingConvention m;
                     beforeMapAction := None;
                     afterMapAction := None;
                     baseSource := baseDestination m;
                     baseDestination := baseSource m |}]) st1) = (u, st3) →
    _mappings st3 = _mappings st ∧ _classNameMap st3 = _classNameMap st1).
  { intros u st3 Hinh.
    destruct (baseDestination m) as [bs|];
      [|injection Hinh as _ <-; split; [exact Hmp|reflexivity]].
    destruct (baseSource m) as [bd|];
      [|injection Hinh as _ <-; split; [exact Hmp|reflexivity]].
    apply bind_inv in Hinh.
    destruct Hinh as [(ob & st4 & Hg & Hrest)|[(e & Hg & _)|[Hg _]]];
      apply getMappingForDestination_state in Hg; subst;
      try (split; [exact Hmp|reflexivity]).
    destruct ob as [b|];
      [|injection Hrest as _ <-; split; [exact Hmp|reflexivity]].
    apply bind_inv in Hrest.
    destruct Hrest as [(base & st5 & Hd & Hrest)|[(e & Hd & _)|[Hd _]]];
      unfold deref in Hd; destruct (heap _ !! b); try discriminate;
      injection Hd as ? <-; try (split; [exact Hmp|reflexivity]).
    unfold update, modify in Hrest. injection Hrest as _ <-.
    split; [exact Hmp|reflexivity]. }
  destruct Hrun as [(u & st3 & Hinh & Hrest)|[(e & Hinh & ->)|[Hinh ->]]];
    destruct (Hinherit _ _ Hinh) as [Hm3 Hc3].
  - unfold bind, modify, ret in Hrest. injection Hrest as <- <-.
    split; [simpl; rewrite Hc3; exact Hmono|].
    right. exists (length (heap st1)), (_getMappingKey hS hD). simpl.
    rewrite Hm3. repeat split; auto.
    + apply assoc_set_fresh, Efree.
    + rewrite Hh. reflexivity.
  - split; [rewrite Hc3; exact Hmono|]. left. split; [exact Hm3|discriminate].
  - split; [rewrite Hc3; exact Hmono|]. left. split; [exact Hm3|discriminate].
Qed.

(** C10. [_createReversedMappingObject(mapping)] throws the
    duplicate-mapping error and leaves the state as it was when the
    reversed pair (destination, source) is registered; when it returns,
    the reversed pair was not registered before, and the new mapping is
    the one entry added to [_mappings]. *)
Theorem createReversedMapping_duplicate mapping m st :
  heap st !! mapping = Some m →
  (registered st (destination m) (source m) →
   _createReversedMappingObject mapping st =
     (Throw (DuplicateMappingError (cname (destination m)) (cname (source m))),
      st)) ∧
  (∀ l st',
     _createReversedMappingObject mapping st = (Ok l, st') →
     ¬ registered st (destination m) (source m) ∧
     ∃ key,
       assoc_get key (_mappings st) = None ∧
       _mappings st' = _mappings st ++ [(key, l)] ∧
       l = length (heap st)).
Proof.
  intros Hm.
  assert (Hderef : deref mapping st = (Ok m, st))
    by (unfold deref; rewrite Hm; reflexivity).
  assert (Hdup :
    registered st (destination m) (source m) →
    _createReversedMappingObject mapping st =
      (Throw (DuplicateMappingError (cname (destination m)) (cname (source m))),
       st)).
  { intros (hS & hD & l & HS & HD & Hl). unfold _createReversedMappingObject.
    rewrite (bind_Ok _ _ _ _ _ Hderef). apply bind_Throw.
    rewrite (hasMapping_key _ _ hS hD None None st HS HD
               (or_introl eq_refl) (or_introl eq_refl)).
    rewrite Hl. reflexivity. }
  split; [exact Hdup|].
  intros l st' Hrun. split.
  { intros Hreg. rewrite (Hdup Hreg) in Hrun. discriminate. }
  destruct (createReversedMapping_spec _ _ _ _ Hrun)
    as [_ [[_ Hno]|(l' & key & [= <-] & Hfree & Hmp & Hl)]].
  - exfalso. exact (Hno l eq_refl).
  - exists key. auto.
Qed.

End Registry.
Section Identity.
Context {U : Utils}.

(** Two classes with the same serialized definition have the same
    identity. *)
Lemma identity_hash_source A B :
  csource A = csource B → identity_hash A = identity_hash B.
Proof. unfold identity_hash. intros ->. reflexivity. Qed.

(** C2, as amended. The identity of a class is the hash of its serialized
    definition. After (A, C) is registered: if A and B have the same
    identity hash (in particular the same serialized definition), both get
    that one identity and registering (B, C) throws the duplicate-mapping
    error, [_mappings] unchanged; if they hash differently, and keys with
    different source identities differ, and no mapping sits under the key
    of (B, C), then registering (B, C) succeeds and A and B have distinct
    identities. *)
Theorem identity_is_hash_of_definition A B C options options' st l st1 :
  wf_cache st →
  _createMappingObject A C options st = (Ok l, st1) →
  (identity_hash B = identity_hash A →
   ∃ st2,
     _createMappingObject B C options' st1 =
       (Throw (DuplicateMappingError (cname B) (cname C)), st2) ∧
     _classNameMap st2 !! A = Some (identity_hash A) ∧
     _classNameMap st2 !! B = Some (identity_hash A) ∧
     _mappings st2 = _mappings st1) ∧
  (identity_hash B ≠ identity_hash A →
   (∀ a b c, _getMappingKey a c = _getMappingKey b c → a = b) →
   assoc_get (_getMappingKey (identity_hash B) (identity_hash C)) (_mappings st)
     = None →
   ∃ l' st2,
     _createMappingObject B C options' st1 = (Ok l', st2) ∧
     _classNameMap st2 !! A = Some (identity_hash A) ∧
     _classNameMap st2 !! B = Some (identity_hash B)).
Proof.
  intros Hwf Hrun.
  destruct (createMapping_Ok _ _ _ _ _ _ Hrun)
    as (hA & hC & HA & HC & Hfree & Hmp & Hl & _ & Hmono & Hwf1).
  destruct (Hwf1 Hwf) as (Hwf' & -> & ->). clear Hwf1.
  (* the second call, step by step *)
  destruct (getHashedNames_true_spec B C st1)
    as (hB & hC' & st2 & E & HB & HC' & Hmp2 & Hh2 & Ht2 & Hmono2 & Hwf2).
  destruct (Hwf2 Hwf') as (Hwf'' & -> & ->). clear Hwf2.
  assert (Hk := hasMapping_key B C _ _ (Some (identity_hash B))
                  (Some (identity_hash C)) st2 HB HC'
                  (or_intror eq_refl) (or_intror eq_refl)).
  split.
  - intros Heq. exists st2. unfold _createMappingObject.
    rewrite (bind_Ok _ _ _ _ _ E).
    assert (Hthere :
      assoc_get (_getMappingKey (identity_hash B) (identity_hash C))
        (_mappings st2) = Some l).
    { rewrite Hmp2, Hmp, Heq, <- (assoc_set_fresh _ l _ Hfree).
      apply assoc_get_set_eq. }
    rewrite Hthere in Hk. rewrite (bind_Throw _ _ _ _ _ Hk).
    repeat split; auto. rewrite <- Heq. exact HB.
  - intros Hne Hinj Hfree'.
    assert (Hnone :
      assoc_get (_getMappingKey (identity_hash B) (identity_hash C))
        (_mappings st2) = None).
    { rewrite Hmp2, Hmp, <- (assoc_set_fresh _ l _ Hfree).
      rewrite assoc_get_set_ne; [exact Hfree'|].
      intros Hkeys. apply Hne. symmetry. exact (Hinj _ _ _ Hkeys). }
    rewrite Hnone in Hk.
    unfold _createMappingObject. rewrite (bind_Ok _ _ _ _ _ E).
    rewrite (bind_Ok _ _ _ _ _ Hk).
    unfold bind, alloc, modify, ret. simpl.
    eexists _, _. split; [reflexivity|]. simpl. auto.
Qed.

End Identity.

(** ** The dispatcher *)

Section Dispatcher.
Context {U : Utils}.
Variable rec_map : JSValue → loc → MapActionOptions → bool → M JSValue.

(** What the [Condition] branch of [_mapMember] writes: the configured
    default is tested for truthiness, so a falsy one is replaced by null. *)
Lemma condition_rule destinationObj path sourceObj spath mapping t c st :
  type (transformationType t) = Condition →
  condition t = Some c →
  _mapMember_body rec_map destinationObj path sourceObj spath mapping t st =
    (Ok (lodash_set destinationObj path
           (if predicate c sourceObj then _get sourceObj VNull spath
            else match defaultValue c with
                 | Some v => if truthy v then v else VNull
                 | None => VNull
                 end)),
     st).
Proof.
  intros Hty Hc. unfold _mapMember_body. rewrite Hty, Hc.
  unfold defaultValue_or_null, js_or.
  destruct (predicate c sourceObj); [reflexivity|].
  destruct (defaultValue c) as [v|]; reflexivity.
Qed.

(** What the loop of [_map] does for a rule whose [preCondition] fails:
    the default is written (null for a falsy one), nothing else happens.
    The member is not dispatched: the result is the same for every rule
    variant and every [rec_map]. *)
Lemma preCondition_rule m mapping sourceObj destinationObj configKeys p pc st :
  preCondition (transformationType (transformation p)) = Some pc →
  predicate pc sourceObj = false →
  _map_property rec_map m mapping sourceObj (destinationObj, configKeys) p st =
    (Ok (lodash_set destinationObj (destinationMemberPath p)
           (match defaultValue pc with
            | Some v => if truthy v then v else VNull
            | None => VNull
            end),
         configKeys ++ [destinationMemberPath p]),
     st).
Proof.
  intros Hpc Hfalse. unfold _map_property. rewrite Hpc, Hfalse. simpl.
  unfold defaultValue_or_null, js_or, ret.
  destruct (defaultValue pc) as [v|]; reflexivity.
Qed.

(** A rule whose [preCondition] is absent or holds is dispatched. *)
Lemma preCondition_passes m mapping sourceObj destinationObj configKeys p st :
  match preCondition (transformationType (transformation p)) with
  | Some pc => predicate pc sourceObj = true
  | None => True
  end →
  _map_property rec_map m mapping sourceObj (destinationObj, configKeys) p st =
    (let* d :=
       _mapMember_body rec_map destinationObj (destinationMemberPath p) sourceObj
         (_getSourcePropertyKey (destinationMemberNamingConvention m)
            (sourceMemberNamingConvention m) (destinationMemberPath p))
         mapping (transformation p) in
     ret (d, configKeys ++ [destinationMemberPath p])) st.
Proof.
  intros H. unfold _map_property.
  destruct (preCondition (transformationType (transformation p))) as [pc|].
  - rewrite H. reflexivity.
  - reflexivity.
Qed.

(** C7. An [Ignore] rule sets the destination path to null, whatever the
    source object is: in [_mapMember], and so in the loop of [_map] for a
    rule that is dispatched. *)
Theorem ignore_sets_null fuel m destinationObj path sourceObj spath mapping t st :
  type (transformationType t) = Ignore →
  _mapMember fuel destinationObj path sourceObj spath mapping t st =
    (Ok (lodash_set destinationObj path VNull), st) ∧
  ∀ p configKeys,
    transformation p = t →
    match preCondition (transformationType t) with
    | Some pc => predicate pc sourceObj = true
    | None => True
    end →
    _map_property (_map fuel) m mapping sourceObj (destinationObj, configKeys) p st =
      (Ok (lodash_set destinationObj (destinationMemberPath p) VNull,
           configKeys ++ [destinationMemberPath p]), st).
Proof.
  intros Hty. split.
  - unfold _mapMember, _mapMember_body. rewrite Hty. reflexivity.
  - intros p configKeys <- Hpre.
    unfold _map_property.
    destruct (preCondition (transformationType (transformation p))) as [pc|];
      [rewrite Hpre|]; simpl;
      unfold bind, _mapMember_body; rewrite Hty; reflexivity.
Qed.

(** In a [MapWith] rule the nested mapping is looked up under the
    constructor of the selected value, which for an array is [Array]. So
    unless [Array] (or what [_getProto] gives for it) has an identity in
    the registry, an array source is never mapped element-wise and never
    yields the empty array: the member is set to null with a warning, or
    the lookup throws. *)
Lemma mapWith_array destinationObj path sourceObj spath mapping t mw elems st :
  type (transformationType t) = MapWith →
  mapWith t = Some mw →
  mw_fromValue mw sourceObj = VArr elems →
  _classNameMap st !! ArrayCtor = None →
  match _getProto ArrayCtor with
  | Some proto => _classNameMap st !! proto = None
  | None => True
  end →
  (∀ destKey, assoc_get (_getMappingKey EmptyString destKey) (_mappings st) = None) →
  ∃ r st',
    _mapMember_body rec_map destinationObj path sourceObj spath mapping t st =
      (r, st') ∧
    ((r = Ok (lodash_set destinationObj path VNull) ∧
      ∃ msg, st' = with_trace (fun tr => tr ++ [EvWarn msg]) st) ∨
     (r = Throw (MappingNotFoundError "Function" (Some "Function")) ∧ st' = st)).
Proof.
  intros Hty Hmw Hsel Harr Hproto Hnokey.
  unfold _mapMember_body. rewrite Hty, Hmw, Hsel.
  destruct (_isEmpty (VArr elems)).
  { eexists _, _. split; [reflexivity|]. left. split; [reflexivity|].
    eexists. reflexivity. }
  destruct (_isClass (VArr elems)); simpl.
  2:{ eexists _, _. split; [reflexivity|]. left. split; [reflexivity|].
      eexists. reflexivity. }
  assert (Hs : _getHash ArrayCtor false st = (Ok EmptyString, st)).
  { unfold _getHash, bind, gets. rewrite Harr.
    destruct (_getProto ArrayCtor); [rewrite Hproto|]; reflexivity. }
  destruct (getHash_false_spec (mw_destination mw) st) as [hD Hd].
  eexists _, _. split.
  - unfold bind at 1. unfold _getMappingForDestination, _getHashedNames.
    unfold bind at 1. unfold bind at 1. rewrite Hs.
    unfold bind at 1. rewrite Hd. simpl.
    unfold bind, gets. rewrite Hnokey. simpl. reflexivity.
  - right. split; reflexivity.
Qed.

(** The structurally inferred rule on an array, lines 327-346: empty
    array for a missing first element, a copy when the first element is
    not object-like. *)
Lemma default_rule_array destinationObj path sourceObj spath mapping t sel elems st :
  type (transformationType t) = MapInitialize →
  mapFrom t = Some (ValueSelector sel) →
  sel sourceObj = VArr elems →
  _isObjectLike (VArr elems) = true →
  _isDate (VArr elems) = false →
  (_isEmpty (first elems) = true →
   _mapMember_body rec_map destinationObj path sourceObj spath mapping t st =
     (Ok (lodash_set destinationObj path (VArr [])), st)) ∧
  (_isEmpty (first elems) = false → _isObjectLike (first elems) = false →
   _mapMember_body rec_map destinationObj path sourceObj spath mapping t st =
     (Ok (lodash_set destinationObj path (VArr elems)), st)) ∧
  (_isEmpty (first elems) = false → _isObjectLike (first elems) = true →
   _mapMember_body rec_map destinationObj path sourceObj spath mapping t st =
     (let* nestedMapping := _getMappingForNestedKey (first elems) in
      let* r := _mapArray_body rec_map elems nestedMapping defaultMapActionOptions in
      ret (lodash_set destinationObj path r)) st).
Proof.
  intros Hty Hsel Hval Hobj Hdate.
  unfold _mapMember_body. rewrite Hty, Hsel, Hval, Hobj, Hdate.
  repeat split; intros H; rewrite H; try reflexivity.
  all: intros H'; rewrite H'; reflexivity.
Qed.

End Dispatcher.

(** ** What a call may change

    For a preorder [R], [preserves R] is closed under the operations of
    the monad. *)

Section Preserves.
Variable R : State → State → Prop.
Context `{!PreOrder R}.

Lemma preserves_ret {A} (a : A) : preserves R (ret a).
Proof. intros st r st' [= _ <-]. reflexivity. Qed.

Lemma preserves_throw {A} e : preserves R (@throw A e).
Proof. intros st r st' [= _ <-]. reflexivity. Qed.

Lemma preserves_out_of_fuel {A} : preserves R (@out_of_fuel A).
Proof. intros st r st' [= _ <-]. reflexivity. Qed.

Lemma preserves_gets {A} (f : State → A) : preserves R (gets f).
Proof. intros st r st' [= _ <-]. reflexivity. Qed.

Lemma preserves_deref l : preserves R (deref l).
Proof.
  intros st r st'. unfold deref.
  destruct (heap st !! l); intros [= _ <-]; reflexivity.
Qed.

Lemma preserves_bind {A B} (m : M A) (k : A → M B) :
  preserves R m → (∀ a, preserves R (k a)) → preserves R (bind m k).
Proof.
  intros Hm Hk st r st' Hrun. apply bind_inv in Hrun.
  destruct Hrun as [(a & st1 & H1 & H2)|[(e & H1 & _)|[H1 _]]].
  - transitivity st1; [exact (Hm _ _ _ H1)|exact (Hk _ _ _ _ H2)].
  - exact (Hm _ _ _ H1).
  - exact (Hm _ _ _ H1).
Qed.

Lemma preserves_mapM {A B} (f : A → M B) l :
  (∀ a, preserves R (f a)) → preserves R (mapM f l).
Proof.
  intros Hf. induction l as [|x l IH]; simpl.
  - apply preserves_ret.
  - apply preserves_bind; [apply Hf|]. intros y.
    apply preserves_bind; [exact IH|]. intros ys. apply preserves_ret.
Qed.

Context {U : Utils}.
Hypothesis R_cache :
  ∀ c st,
    _classNameMap st !! c = None →
    R st (with_classNameMap <[c := identity_hash c]> st).
Hypothesis R_warn : ∀ msg st, R st (with_trace (fun t => t ++ [EvWarn msg]) st).

Lemma preserves_getHash c b : preserves R (_getHash c b).
Proof.
  intros st r st'. unfold _getHash, bind, gets, modify, ret.
  destruct (_classNameMap st !! c) as [h|] eqn:E.
  - intros [= _ <-]. reflexivity.
  - destruct b.
    + intros [= _ <-]. apply R_cache, E.
    + destruct (match _getProto c with
                | Some proto => _classNameMap st !! proto
                | None => None
                end); intros [= _ <-]; reflexivity.
Qed.

Lemma preserves_getHashedNames S D b : preserves R (_getHashedNames S D b).
Proof.
  unfold _getHashedNames.
  apply preserves_bind; [apply preserves_getHash|]. intros s.
  apply preserves_bind; [apply preserves_getHash|]. intros d.
  apply preserves_ret.
Qed.

Lemma preserves_getMappingForDestination D S b :
  preserves R (_getMappingForDestination D S b).
Proof.
  unfold _getMappingForDestination.
  apply preserves_bind; [apply preserves_getHashedNames|]. intros [s d].
  apply preserves_bind; [apply preserves_gets|].
  intros [l|]; [apply preserves_ret|].
  destruct b; [apply preserves_ret|apply preserves_throw].
Qed.

Lemma preserves_getMapping S D : preserves R (_getMapping S D).
Proof.
  unfold _getMapping.
  apply preserves_bind; [apply preserves_getHashedNames|]. intros [s d].
  apply preserves_bind; [apply preserves_gets|].
  intros [l|]; [apply preserves_ret|apply preserves_throw].
Qed.

Lemma preserves_getMappingForNestedKey v :
  preserves R (_getMappingForNestedKey v).
Proof.
  unfold _getMappingForNestedKey.
  destruct (constructorOf v) as [c|]; [|apply preserves_throw].
  apply preserves_bind; [apply preserves_getHash|]. intros name.
  apply preserves_bind; [apply preserves_gets|].
  intros [[key l]|]; [|apply preserves_throw].
  apply preserves_bind; [apply preserves_deref|]. intros entry.
  apply preserves_getMapping.
Qed.

Lemma preserves_warn msg : preserves R (emit (EvWarn msg)).
Proof. intros st r st' [= _ <-]. apply R_warn. Qed.

(** The dispatcher and the loop of [_map], given what the nested calls
    preserve. The one write to a [Mapping] is the recording step of a
    [MapFrom] rule with a selector. *)
Section Member.
Variable rec_map : JSValue → loc → MapActionOptions → bool → M JSValue.
Hypothesis rec_map_preserves : ∀ s l o b, preserves R (rec_map s l o b).
Hypothesis mapArray_preserves :
  ∀ elems l o, preserves R (_mapArray_body rec_map elems l o).

Lemma preserves_mapMember destinationObj path sourceObj spath mapping t :
  recording_preserved R mapping path spath t →
  preserves R
    (_mapMember_body rec_map destinationObj path sourceObj spath mapping t).
Proof.
  intros Hrec. unfold _mapMember_body.
  destruct (type (transformationType t)) eqn:Hty.
  - (* Ignore *) apply preserves_ret.
  - (* MapFrom *)
    destruct (mapFrom t) as [cb|] eqn:Hcb; [|apply preserves_throw].
    destruct (_isResolver cb) eqn:Hres.
    + destruct cb; [apply preserves_throw|apply preserves_ret].
    + destruct cb as [sel|]; [|apply preserves_throw].
      apply preserves_bind; [exact (Hrec Hty sel Hcb Hres)|].
      intros _. apply preserves_ret.
  - (* Condition *)
    destruct (condition t) as [c|]; [|apply preserves_ret].
    destruct (predicate c sourceObj); apply preserves_ret.
  - (* FromValue *) apply preserves_ret.
  - (* MapWith *)
    destruct (_isEmpty _).
    { apply preserves_bind; [apply preserves_warn|]. intros _. apply preserves_ret. }
    destruct (negb _).
    { apply preserves_bind; [apply preserves_warn|]. intros _. apply preserves_ret. }
    destruct (mapWith t) as [mw|]; [|apply preserves_throw].
    destruct (constructorOf _) as [c|]; [|apply preserves_throw].
    apply preserves_bind; [apply preserves_getMappingForDestination|].
    intros [l|]; [|apply preserves_throw].
    destruct (mw_fromValue mw sourceObj);
      try (apply preserves_bind; [apply rec_map_preserves|];
           intros r; apply preserves_ret).
    destruct (_isEmpty _); [apply preserves_ret|].
    apply preserves_bind; [apply mapArray_preserves|].
    intros r; apply preserves_ret.
  - (* ConvertUsing *)
    destruct (convertUsing t); [apply preserves_ret|apply preserves_throw].
  - (* NullSubstituion *) apply preserves_ret.
  - (* MapInitialize *)
    destruct (mapFrom t) as [[sel|res]|]; try apply preserves_throw.
    assert (Hnested :
      preserves R
        (if typeof_object (sel sourceObj) && _isClass (sel sourceObj)
         then
           let* nestedMapping := _getMappingForNestedKey (sel sourceObj) in
           let* r := rec_map (sel sourceObj) nestedMapping
                       defaultMapActionOptions false in
           ret (lodash_set destinationObj path r)
         else ret (lodash_set destinationObj path (sel sourceObj)))).
    { destruct (_ && _); [|apply preserves_ret].
      apply preserves_bind; [apply preserves_getMappingForNestedKey|].
      intros l. apply preserves_bind; [apply rec_map_preserves|].
      intros r. apply preserves_ret. }
    destruct (sel sourceObj) eqn:Hval; try apply preserves_ret;
      (destruct (_isObjectLike _); [|exact Hnested]);
      (destruct (_isDate _); [apply preserves_ret|]);
      try exact Hnested.
    destruct (_isEmpty _); [apply preserves_ret|].
    destruct (negb _); [apply preserves_ret|].
    apply preserves_bind; [apply preserves_getMappingForNestedKey|].
    intros l. apply preserves_bind; [apply mapArray_preserves|].
    intros r. apply preserves_ret.
Qed.

Lemma preserves_map_property m mapping sourceObj acc p :
  rule_recording_preserved R m mapping p →
  preserves R (_map_property rec_map m mapping sourceObj acc p).
Proof.
  intros Hrec. unfold _map_property. destruct acc as [d keys].
  destruct (match preCondition _ with Some pc => _ | None => false end).
  - apply preserves_ret.
  - apply preserves_bind; [apply preserves_mapMember, Hrec|].
    intros d'. apply preserves_ret.
Qed.

Lemma preserves_map_properties m mapping sourceObj props :
  Forall (rule_recording_preserved R m mapping) props →
  ∀ acc, preserves R (_map_properties rec_map m mapping sourceObj acc props).
Proof.
  induction 1 as [|p props Hp _ IH]; intros acc; simpl.
  - apply preserves_ret.
  - apply preserves_bind; [apply preserves_map_property, Hp|].
    intros acc'. apply IH.
Qed.

End Member.
End Preserves.

(** ** Relations that do not look at the trace

    What [_map] does stays within a preorder [R] that ignores the trace
    and admits a new cached identity, as soon as the recording step of
    every [MapFrom] rule does. *)
Section StateRelations.
Context {U : Utils}.
Variable R : State → State → Prop.
Context `{!PreOrder R}.
Hypothesis R_cache :
  ∀ c st,
    _classNameMap st !! c = None →
    R st (with_classNameMap <[c := identity_hash c]> st).
Hypothesis R_trace :
  ∀ f g st st', R st st' → R (with_trace f st) (with_trace g st').

Lemma with_trace_id st : with_trace (fun t => t) st = st.
Proof. destruct st. reflexivity. Qed.

Lemma with_trace_with_trace f g st :
  with_trace g (with_trace f st) = with_trace (fun t => g (f t)) st.
Proof. destruct st. reflexivity. Qed.

Lemma R_only_trace f st : R st (with_trace f st).
Proof.
  rewrite <- (with_trace_id st) at 1. apply R_trace. reflexivity.
Qed.

Lemma preserves_run_hook side origin h s d :
  preserves R (run_hook side origin h s d).
Proof.
  unfold run_hook. apply preserves_bind; [apply _| |].
  - intros st r st' [= _ <-]. apply R_only_trace.
  - intros _. destruct (action h s d); [apply preserves_ret, _|apply preserves_throw, _].
Qed.

Lemma preserves_call {A} callee (m : M A) :
  preserves R m → preserves R (call callee m).
Proof.
  intros Hm st r st'. unfold call.
  destruct (m (with_trace (fun _ => []) st)) as [r1 st1] eqn:E.
  intros [= _ <-]. apply Hm in E.
  apply (R_trace (fun _ => trace st)
           (fun inner => trace st ++ [EvCall callee inner])) in E.
  rewrite with_trace_with_trace in E.
  replace (with_trace (fun _ => trace st) st) with st in E
    by (destruct st; reflexivity).
  exact E.
Qed.

Lemma preserves_map_hook side isArrayMap perCall configured s d :
  preserves R (_map_hook side isArrayMap perCall configured s d).
Proof.
  unfold _map_hook. destruct isArrayMap; [apply preserves_ret, _|].
  destruct perCall; [apply preserves_run_hook|].
  destruct configured; [apply preserves_run_hook|apply preserves_ret, _].
Qed.

Lemma preserves_mapArray_body rec_map elems l o :
  (∀ s l' o' b, preserves R (rec_map s l' o' b)) →
  preserves R (_mapArray_body rec_map elems l o).
Proof.
  intros Hrec. unfold _mapArray_body. apply preserves_call.
  apply preserves_bind; [apply _| |].
  - destruct (beforeMap o); [apply preserves_run_hook|apply preserves_ret, _].
  - intros _. apply preserves_bind; [apply _| |].
    + apply preserves_mapM; [apply _|]. intros s. apply Hrec.
    + intros ds.
      destruct (afterMap o); [apply preserves_run_hook|apply preserves_ret, _].
Qed.

(** Every rule of the mapping read on entry records within [R], or the
    state on entry is related to every state. *)
Hypothesis R_rules :
  ∀ st mapping m,
    heap st !! mapping = Some m →
    Forall (rule_recording_preserved R m mapping)
      (List.map snd (properties m)) ∨
    (∀ st', R st st').

Lemma preserves_map_body rec_map s l o b :
  (∀ s' l' o' b', preserves R (rec_map s' l' o' b')) →
  preserves R (_map_body rec_map s l o b).
Proof.
  intros Hrec. unfold _map_body. apply preserves_call.
  intros st r st' Hrun. apply bind_inv in Hrun.
  destruct Hrun as [(m & st1 & Hd & Hrest)|[(e & Hd & _)|[Hd _]]];
    try (exact (preserves_deref R l _ _ _ Hd)).
  unfold deref in Hd. destruct (heap st !! l) eqn:Hl; [|discriminate].
  injection Hd as -> <-.
  destruct (R_rules st l m Hl) as [Hrules|Hany]; [|apply Hany].
  match type of Hrest with
  | ?c st = _ => assert (Hk : preserves R c); [|exact (Hk _ _ _ Hrest)]
  end.
  apply preserves_bind; [apply _|apply preserves_map_hook|].
  intros d. apply preserves_bind; [apply _| |].
  - apply preserves_map_properties;
      [apply _
      |exact R_cache
      |intros msg st2; apply R_only_trace
      |exact Hrec
      |intros elems l' o'; apply preserves_mapArray_body, Hrec
      |exact Hrules].
  - intros [d' keys].
    destruct (_assertMappingErrors d' keys);
      [apply preserves_throw, _|apply preserves_map_hook].
Qed.

Lemma preserves_map fuel : ∀ s l o b, preserves R (_map fuel s l o b).
Proof.
  induction fuel as [|fuel IH]; intros s l o b; simpl.
  - apply preserves_out_of_fuel, _.
  - apply preserves_map_body, IH.
Qed.

Lemma preserves_mapArray fuel elems l o :
  preserves R (_mapArray fuel elems l o).
Proof. apply preserves_mapArray_body, preserves_map. Qed.

End StateRelations.

(** ** Map execution and the [Mapping] objects *)

Section Recording.
Context {U : Utils}.

#[local] Instance keeps_recording_preorder l m h0 :
  PreOrder (keeps_recording l m h0).
Proof.
  split.
  - intros st H. exact H.
  - intros a b c Hab Hbc H. apply Hbc, Hab, H.
Qed.

Lemma keeps_recording_same_heap l m h0 st st' :
  heap st' = heap st → keeps_recording l m h0 st st'.
Proof. intros Heq H. rewrite Heq. exact H. Qed.



Lemma mapFrom_free_records_nothing m : mapFrom_free m → records_nothing m.
Proof.
  intros Hfree path sp sel (p & Hin & Hty & _). unfold mapFrom_free in Hfree.
  rewrite Forall_forall in Hfree. exact (Hfree p Hin Hty).
Qed.

(** Without [MapFrom] rules anywhere an execution changes no object. *)
Lemma recording_mapFrom_free l m h h' :
  recording l m h h' → h !! l = Some m → Forall mapFrom_free h → h' = h.
Proof.
  induction 1 as [| l m h h1 m1 path sp sel _ IH Hl1 Hrule
                  | l m h h1 h2 l' m' _ IH1 Hl' _ IH2];
    intros Hl Hfree.
  - reflexivity.
  - exfalso. rewrite Forall_forall in Hfree.
    apply (mapFrom_free_records_nothing m) in Hrule; [exact Hrule|].
    apply Hfree. eapply list_elem_of_lookup_2, Hl.
  - specialize (IH1 Hl Hfree). subst h1. apply IH2; assumption.
Qed.

(** The recording step of a rule of [m], run on the object at [l], is a
    step of the execution of [m]. *)
Lemma rules_keep_recording l m h0 :
  Forall (rule_recording_preserved (keeps_recording l m h0) m l)
    (List.map snd (properties m)).
Proof.
  apply Forall_forall. intros p Hp Hty sel Hsel Hres st r st'.
  unfold update, modify. intros [= _ <-] Hso. simpl.
  destruct (heap st !! l) as [m1|] eqn:Hl; [|exact Hso].
  eapply recording_step; [exact Hso|exact Hl|].
  exists p. repeat split; assumption.
Qed.

(** A call of [_map] is an execution of the mapping it is given. *)
Lemma map_executes fuel :
  ∀ s l o b, preserves (on_heap (executes l)) (_map fuel s l o b).
Proof.
  induction fuel as [|fuel IH]; intros s l o b st r st' Hrun.
  - injection Hrun as _ <-. unfold on_heap, executes.
    destruct (heap st !! l); [apply recording_none|reflexivity].
  - simpl in Hrun. unfold _map_body, call in Hrun.
    match type of Hrun with
    | (let '(_, _) := ?c ?st0 in _) = _ =>
        destruct (c st0) as [r1 st1] eqn:Hbody
    end.
    injection Hrun as _ <-. unfold on_heap, executes. cbn [heap with_trace].
    apply bind_inv in Hbody.
    destruct Hbody as [(m & st2 & Hd & Hrest)|[(e & Hd & _)|[Hd _]]];
      unfold deref in Hd; cbn [heap with_trace] in Hd;
      destruct (heap st !! l) as [m0|] eqn:Hl; try discriminate.
    + injection Hd as -> <-.
      assert (Hnested : ∀ s' l' o' b',
        preserves (keeps_recording l m (heap st)) (_map fuel s' l' o' b')).
      { intros s' l' o' b' sta ra sta' Hra Hso.
        apply IH in Hra. unfold on_heap, executes in Hra.
        destruct (heap sta !! l') as [m'|] eqn:Hl'.
        - eapply recording_nested; eassumption.
        - rewrite Hra. exact Hso. }
      assert (Htrace : ∀ f g sta sta',
        keeps_recording l m (heap st) sta sta' →
        keeps_recording l m (heap st) (with_trace f sta) (with_trace g sta'))
        by (intros f g sta sta' H; exact H).
      match type of Hrest with
      | ?c _ = _ =>
          assert (Hk : preserves (keeps_recording l m (heap st)) c)
      end.
      { apply preserves_bind; [apply _|apply preserves_map_hook; [apply _|exact Htrace]|].
        intros d. apply preserves_bind; [apply _| |].
        - apply preserves_map_properties.
          + apply _.
          + intros c sta _. apply keeps_recording_same_heap. reflexivity.
          + intros msg sta. apply keeps_recording_same_heap. reflexivity.
          + exact Hnested.
          + intros elems l' o'.
            apply preserves_mapArray_body; [apply _|exact Htrace|exact Hnested].
          + apply rules_keep_recording.
        - intros [d' keys].
          destruct (_assertMappingErrors d' keys);
            [apply preserves_throw, _
            |apply preserves_map_hook; [apply _|exact Htrace]]. }
      apply (Hk _ _ _ Hrest). apply recording_none.
    + injection Hd as _ <-. reflexivity.
Qed.

(** Without [MapFrom] rules the mappings are left as they were. *)
Lemma map_keeps_mapFrom_free fuel sourceObj mapping option isArrayMap st r st' :
  _map fuel sourceObj mapping option isArrayMap st = (r, st') →
  Forall mapFrom_free (heap st) → heap st' = heap st.
Proof.
  intros Hrun Hfree. apply map_executes in Hrun.
  unfold on_heap, executes in Hrun.
  destruct (heap st !! mapping) as [m|] eqn:Hm; [|exact Hrun].
  exact (recording_mapFrom_free _ _ _ _ Hrun Hm Hfree).
Qed.

(** What the dispatcher does for a [MapFrom] rule with a plain selector:
    the selected value is written at the destination path, and
    [_setMappingPropertyForMapFromMember] is called on the mapping being
    executed. Whether the mapping is changed is decided by that helper
    alone. *)
Lemma mapFrom_rule_records fuel destinationObj path sourceObj spath mapping t
  sel m st :
  type (transformationType t) = MapFrom →
  mapFrom t = Some (ValueSelector sel) →
  _isResolver (ValueSelector sel) = false →
  heap st !! mapping = Some m →
  _mapMember fuel destinationObj path sourceObj spath mapping t st =
    (Ok (lodash_set destinationObj path (sel sourceObj)),
     with_heap
       (fun h =>
          <[mapping := _setMappingPropertyForMapFromMember path spath m sel]> h)
       st).
Proof.
  intros Hty Hsel Hres Hm. unfold _mapMember, _mapMember_body.
  rewrite Hty, Hsel, Hres. unfold bind, update, modify, ret.
  unfold with_heap. rewrite Hm. reflexivity.
Qed.


End Recording.

(** ** The registry only grows *)

Section Growth.
Context {U : Utils}.

#[local] Instance grows_preorder : PreOrder grows.
Proof.
  split.
  - intros st. split; auto.
  - intros a b c [M1 C1] [M2 C2]. split; auto.
Qed.

Lemma grows_registered st st' S D :
  grows st st' → registered st S D → registered st' S D.
Proof.
  intros [Hm Hc] (hS & hD & l & HS & HD & Hl).
  exists hS, hD, l. auto.
Qed.

Lemma grows_cache c h st :
  _classNameMap st !! c = None → grows st (with_classNameMap <[c := h]> st).
Proof.
  intros E. split; [auto|]. intros c' h' H'. simpl.
  rewrite lookup_insert_ne; [exact H'|]. intros ->. rewrite E in H'. discriminate.
Qed.

Lemma grows_heap_trace st st' :
  _mappings st' = _mappings st → _classNameMap st' = _classNameMap st →
  grows st st'.
Proof. intros Hm Hc. split; intros ? ?; rewrite ?Hm, ?Hc; auto. Qed.

Lemma grows_map fuel s l o b : preserves grows (_map fuel s l o b).
Proof.
  apply preserves_map.
  - apply _.
  - intros c st. apply grows_cache.
  - intros f g st st' [Hm Hc]. split; [exact Hm|exact Hc].
  - intros st mapping m _. left. apply Forall_forall. intros p _ _ path sp sel.
    intros st0 r st0'. unfold update, modify. intros [= _ <-].
    apply grows_heap_trace; reflexivity.
Qed.

Lemma grows_mapArray fuel elems l o : preserves grows (_mapArray fuel elems l o).
Proof.
  apply preserves_mapArray_body.
  - apply _.
  - intros f g st st' [Hm Hc]. split; [exact Hm|exact Hc].
  - apply grows_map.
Qed.

Lemma grows_append st st' key (l : loc) :
  assoc_get key (_mappings st) = None →
  _mappings st' = _mappings st ++ [(key, l)] →
  (∀ c h, _classNameMap st !! c = Some h → _classNameMap st' !! c = Some h) →
  grows st st'.
Proof.
  intros Hfree Hm Hc. split; [|exact Hc].
  intros key' l' H'. rewrite Hm, <- (assoc_set_fresh _ l _ Hfree).
  rewrite assoc_get_set_ne; [exact H'|].
  intros ->. rewrite Hfree in H'. discriminate.
Qed.

Lemma grows_createMapping S D options :
  preserves grows (_createMappingObject S D options).
Proof.
  intros st r st' Hrun. destruct r as [l|e|].
  - destruct (createMapping_Ok _ _ _ _ _ _ Hrun)
      as (hS & hD & _ & _ & Hfree & Hm & _ & _ & Hmono & _).
    eapply grows_append; eassumption.
  - revert Hrun. unfold _createMappingObject.
    destruct (getHashedNames_true_spec S D st)
      as (hS & hD & st1 & E & HS & HD & Hm & Hh & Ht & Hmono & _).
    rewrite (bind_Ok _ _ _ _ _ E).
    rewrite (bind_inv_hasMapping S D hS hD st1 _ HS HD).
    destruct (assoc_get _ _).
    + intros [= _ <-]. split; [rewrite Hm; auto|exact Hmono].
    + unfold bind, alloc, modify, ret. simpl. discriminate.
  - revert Hrun. unfold _createMappingObject.
    destruct (getHashedNames_true_spec S D st)
      as (hS & hD & st1 & E & HS & HD & Hm & Hh & Ht & Hmono & _).
    rewrite (bind_Ok _ _ _ _ _ E).
    rewrite (bind_inv_hasMapping S D hS hD st1 _ HS HD).
    destruct (assoc_get _ _); [discriminate|].
    unfold bind, alloc, modify, ret. simpl. discriminate.
Qed.

Lemma grows_createReversedMapping mapping :
  preserves grows (_createReversedMappingObject mapping).
Proof.
  intros st r st' Hrun.
  destruct (createReversedMapping_spec mapping st r st' Hrun)
    as [Hmono [[Hm _]|(l & key & _ & Hfree & Hm & _)]].
  - split; [rewrite Hm; auto|exact Hmono].
  - eapply grows_append; eassumption.
Qed.

Lemma grows_after_call st c : grows st (after_call st c).
Proof.
  destruct c as [S D o|l|fuel s l o b|fuel elems l o]; simpl.
  - destruct (_createMappingObject S D o st) eqn:E.
    exact (grows_createMapping _ _ _ _ _ _ E).
  - destruct (_createReversedMappingObject l st) eqn:E.
    exact (grows_createReversedMapping _ _ _ _ E).
  - destruct (_map fuel s l o b st) eqn:E. exact (grows_map _ _ _ _ _ _ _ _ E).
  - destruct (_mapArray fuel elems l o st) eqn:E.
    exact (grows_mapArray _ _ _ _ _ _ _ E).
Qed.

Lemma grows_after_calls calls : ∀ st, grows st (fold_left after_call calls st).
Proof.
  induction calls as [|c calls IH]; intros st; simpl; [reflexivity|].
  transitivity (after_call st c); [apply grows_after_call|apply IH].
Qed.

(** Once [_createMappingObject(S, D)] has returned, a later call for the
    same pair throws and changes nothing, whatever calls other than
    [_dispose] were made in between. *)
Corollary createMapping_duplicate_later S D options options' st l st1 calls :
  _createMappingObject S D options st = (Ok l, st1) →
  let st2 := fold_left after_call calls st1 in
  _createMappingObject S D options' st2 =
    (Throw (DuplicateMappingError (cname S) (cname D)), st2).
Proof.
  intros Hrun st2. apply registered_pair_is_refused.
  eapply grows_registered; [apply grows_after_calls|].
  eapply createMapping_registers, Hrun.
Qed.

End Growth.
(** ** The callbacks of one call of [_map] *)

Lemma own_hooks_app a b : own_hooks (a ++ b) = own_hooks a ++ own_hooks b.
Proof. apply List.filter_app. Qed.

Lemma own_hooks_chosen side perCall configured :
  own_hooks (chosen_hook side perCall configured) =
  chosen_hook side perCall configured.
Proof. destruct perCall, configured; reflexivity. Qed.

Section Hooks.
Context {U : Utils}.

#[local] Instance quiet_preorder : PreOrder quiet.
Proof.
  split.
  - intros st. exists []. split; [symmetry; apply app_nil_r|reflexivity].
  - intros a b c (e1 & H1 & Q1) (e2 & H2 & Q2). exists (e1 ++ e2). split.
    + rewrite H2, H1, app_assoc. reflexivity.
    + rewrite own_hooks_app, Q1, Q2. reflexivity.
Qed.

Lemma quiet_same_trace st st' : trace st' = trace st → quiet st st'.
Proof. intros H. exists []. rewrite H, app_nil_r. split; reflexivity. Qed.

Lemma quiet_call {A} callee (m : M A) : preserves quiet (call callee m).
Proof.
  intros st r st'. unfold call.
  destruct (m (with_trace (fun _ => []) st)) as [r1 st1].
  intros [= _ <-]. exists [EvCall callee (trace st1)]. split; reflexivity.
Qed.

Lemma quiet_map fuel s l o b : preserves quiet (_map fuel s l o b).
Proof.
  destruct fuel; simpl.
  - apply preserves_out_of_fuel, _.
  - apply quiet_call.
Qed.

Lemma quiet_map_properties fuel m mapping sourceObj props acc :
  preserves quiet (_map_properties (_map fuel) m mapping sourceObj acc props).
Proof.
  apply preserves_map_properties.
  - apply _.
  - intros c st _. apply quiet_same_trace. reflexivity.
  - intros msg st. exists [EvWarn msg]. split; reflexivity.
  - apply quiet_map.
  - intros elems l o. apply quiet_call.
  - apply Forall_forall. intros p _ _ sel _ _ st r st'.
    unfold update, modify. intros [= _ <-]. apply quiet_same_trace. reflexivity.
Qed.

(** One side of a call: the picked callback is recorded and called once,
    and what it returns or throws is the outcome; an element of a batch
    has no callback. *)
Lemma map_hook_run side isArrayMap perCall configured s d st :
  _map_hook side isArrayMap perCall configured s d st =
    (returned
       (action_result
          (if isArrayMap then None else chosen_action perCall configured) s d),
     with_trace
       (fun t => t ++ if isArrayMap then []
                      else chosen_hook side perCall configured) st).
Proof.
  assert (Hid : with_trace (fun t => t ++ []) st = st).
  { destruct st. unfold with_trace. simpl. rewrite app_nil_r. reflexivity. }
  unfold _map_hook, run_hook, chosen_hook, chosen_action, action_result,
    bind, emit, modify, ret, throw.
  destruct isArrayMap; [rewrite Hid; reflexivity|].
  destruct perCall as [h|].
  - destruct (action h s d); reflexivity.
  - destruct configured as [h|]; [|rewrite Hid; reflexivity].
    destruct (action h s d); reflexivity.
Qed.

(** The three phases of a call of [_map]: the callback before, the loop
    over the rules with the check, the callback after. *)
Lemma map_phases fuel sourceObj mapping m option isArrayMap st r st' :
  heap st !! mapping = Some m →
  _map (S fuel) sourceObj mapping option isArrayMap st = (r, st') →
  let s :=
    if instanceOf sourceObj (source m) then sourceObj
    else instantiate (source m) (Some sourceObj) in
  let before :=
    if isArrayMap then None
    else chosen_action (beforeMap option) (beforeMapAction m) in
  let after :=
    if isArrayMap then None
    else chosen_action (afterMap option) (afterMapAction m) in
  let ran_before :=
    if isArrayMap then []
    else chosen_hook Before (beforeMap option) (beforeMapAction m) in
  let ran_after :=
    if isArrayMap then []
    else chosen_hook After (afterMap option) (afterMapAction m) in
  match action_result before s (instantiate (destination m) None) with
  | Throws e =>
      r = Throw e ∧
      st' = with_trace (fun t => t ++ [EvCall "_map" ran_before]) st
  | Returns d0 =>
      ∃ members st1,
        _map_properties (_map fuel) m mapping s (d0, [])
          (List.map snd (properties m))
          (with_trace (fun _ => ran_before) st) = (members, st1) ∧
        own_hooks (trace st1) = ran_before ∧
        match checked members with
        | Ok d1 =>
            r = returned (action_result after s d1) ∧
            st' = with_trace
                    (fun _ => trace st ++ [EvCall "_map" (trace st1 ++ ran_after)])
                    st1
        | failed =>
            r = failed ∧
            st' = with_trace
                    (fun _ => trace st ++ [EvCall "_map" (trace st1)]) st1
        end
  end.
Proof.
  intros Hm Hrun s before after ran_before ran_after.
  simpl in Hrun. unfold _map_body, call in Hrun.
  set (st0 := with_trace (fun _ => []) st) in Hrun.
  match type of Hrun with
  | (let '(_, _) := ?c st0 in _) = _ => set (body := c) in Hrun
  end.
  destruct (body st0) as [r1 st2] eqn:Hbody. injection Hrun as <- <-.
  unfold body in Hbody. clear body.
  assert (Hd : deref mapping st0 = (Ok m, st0))
    by (unfold deref; simpl; rewrite Hm; reflexivity).
  rewrite (bind_Ok _ _ _ _ _ Hd) in Hbody.
  unfold bind at 1 in Hbody. rewrite map_hook_run in Hbody.
  fold s before ran_before in Hbody.
  assert (Hstart :
    with_trace (fun t => t ++ ran_before) st0 =
    with_trace (fun _ => ran_before) st)
    by (destruct st; reflexivity).
  rewrite Hstart in Hbody.
  destruct (action_result before s (instantiate (destination m) None))
    as [d0|e]; cbn [returned] in Hbody.
  - destruct (_map_properties (_map fuel) m mapping s (d0, [])
                (List.map snd (properties m))
                (with_trace (fun _ => ran_before) st))
      as [members st1] eqn:Hloop.
    exists members, st1. split; [reflexivity|].
    assert (Hquiet : own_hooks (trace st1) = ran_before).
    { apply quiet_map_properties in Hloop. destruct Hloop as (evs & Ht & Hq).
      rewrite Ht, own_hooks_app, Hq, app_nil_r. cbn [trace with_trace].
      unfold ran_before. destruct isArrayMap; [reflexivity|].
      apply own_hooks_chosen. }
    split; [exact Hquiet|].
    unfold bind at 1 in Hbody. rewrite Hloop in Hbody. unfold checked.
    destruct members as [[d1 keys]|e|].
    + destruct (_assertMappingErrors d1 keys) as [e|].
      * injection Hbody as <- <-. split; reflexivity.
      * rewrite map_hook_run in Hbody. fold after ran_after in Hbody.
        injection Hbody as <- <-. split; [reflexivity|].
        destruct st1, st. reflexivity.
    + injection Hbody as <- <-. split; reflexivity.
    + injection Hbody as <- <-. split; reflexivity.
  - injection Hbody as <- <-. split; [reflexivity|].
    destruct st. reflexivity.
Qed.

(** C8. A call of [_map] for a single object calls at most one callback
    on each side. Before the rules, the per-call [beforeMap] if one is
    given, else the configured [beforeMapAction] if there is one, is
    called on the source and the fresh destination: the rules are mapped
    onto what it leaves, and when it throws the call throws and maps
    nothing. After the check, the same choice between [afterMap] and
    [afterMapAction] is called on the checked destination, and what it
    returns or throws is the outcome of the call. No other callback is
    run by the call itself: its own events are the one before and, when
    the check was passed, the one after. *)
Theorem one_hook_per_side fuel sourceObj mapping m option st r st' :
  heap st !! mapping = Some m →
  _map (S fuel) sourceObj mapping option false st = (r, st') →
  let s :=
    if instanceOf sourceObj (source m) then sourceObj
    else instantiate (source m) (Some sourceObj) in
  let before := chosen_action (beforeMap option) (beforeMapAction m) in
  let after := chosen_action (afterMap option) (afterMapAction m) in
  let ran_before := chosen_hook Before (beforeMap option) (beforeMapAction m) in
  let ran_after := chosen_hook After (afterMap option) (afterMapAction m) in
  match action_result before s (instantiate (destination m) None) with
  | Throws e =>
      r = Throw e ∧
      st' = with_trace (fun t => t ++ [EvCall "_map" ran_before]) st
  | Returns d0 =>
      ∃ members st1,
        _map_properties (_map fuel) m mapping s (d0, [])
          (List.map snd (properties m))
          (with_trace (fun _ => ran_before) st) = (members, st1) ∧
        own_hooks (trace st1) = ran_before ∧
        match checked members with
        | Ok d1 =>
            r = returned (action_result after s d1) ∧
            st' = with_trace
                    (fun _ => trace st ++ [EvCall "_map" (trace st1 ++ ran_after)])
                    st1
        | failed =>
            r = failed ∧
            st' = with_trace
                    (fun _ => trace st ++ [EvCall "_map" (trace st1)]) st1
        end
  end.
Proof.
  intros Hm Hrun.
  exact (map_phases fuel sourceObj mapping m option false st r st' Hm Hrun).
Qed.

End Hooks.
(** ** The asynchronous variants *)




Section Async.
Context {U : Utils}.


End Async.

(** * Further properties of the registry *)

Section Lookups.
Context {U : Utils}.

Lemma assoc_get_app_fresh {V} key (v : V) t :
  assoc_get key t = None → assoc_get key (t ++ [(key, v)]) = Some v.
Proof.
  intros H. rewrite <- (assoc_set_fresh key v t H). apply assoc_get_set_eq.
Qed.

(** The object [_createMappingObject] allocates. *)
Lemma createMapping_object S D options st l st' :
  _createMappingObject S D options st = (Ok l, st') →
  heap st' = heap st ++ [new_mapping S D options] ∧ trace st' = trace st.
Proof.
  unfold _createMappingObject.
  destruct (getHashedNames_true_spec S D st)
    as (hS & hD & st1 & E & HS & HD & Hm & Hh & Ht & _).
  rewrite (bind_Ok _ _ _ _ _ E).
  rewrite (bind_inv_hasMapping S D hS hD st1 _ HS HD).
  destruct (assoc_get _ _); [discriminate|].
  unfold bind, alloc, modify, ret. simpl. intros [= <- <-]. simpl.
  rewrite Hh, Ht. split; reflexivity.
Qed.

(** With both identities cached, [_getMapping] is the lookup of their
    key. *)
Lemma getMapping_cached S D hS hD st :
  _classNameMap st !! S = Some hS →
  _classNameMap st !! D = Some hD →
  _getMapping S D st =
    match assoc_get (_getMappingKey hS hD) (_mappings st) with
    | Some l => (Ok l, st)
    | None => (Throw (MappingNotFoundError (cname S) (Some (cname D))), st)
    end.
Proof.
  intros HS HD. unfold _getMapping.
  rewrite (bind_Ok _ _ _ _ _ (getHashedNames_cached S D hS hD true st HS HD)).
  unfold bind, gets. destruct (assoc_get _ _); reflexivity.
Qed.

Lemma getMappingForDestination_cached S D hS hD b st :
  _classNameMap st !! S = Some hS →
  _classNameMap st !! D = Some hD →
  _getMappingForDestination D S b st =
    match assoc_get (_getMappingKey hS hD) (_mappings st) with
    | Some l => (Ok (Some l), st)
    | None =>
        if b then (Ok None, st)
        else (Throw (MappingNotFoundError "Function" (Some "Function")), st)
    end.
Proof.
  intros HS HD. unfold _getMappingForDestination.
  rewrite (bind_Ok _ _ _ _ _ (getHashedNames_cached S D hS hD false st HS HD)).
  unfold bind, gets. destruct (assoc_get _ _); [|destruct b]; reflexivity.
Qed.

(** X1. A mapping that [_createMappingObject(S, D, options)] returned is
    the one [_getMapping(S, D)] and [_getMappingForDestination(D, S)]
    resolve to, with the state untouched by the lookup, after any calls
    other than [_dispose]; the object it refers to was created with
    source, destination, names and conventions as passed, no rule, no
    callback and no base pair. *)
Theorem lookup_after_create S D options st l st1 calls :
  _createMappingObject S D options st = (Ok l, st1) →
  heap st1 !! l = Some (new_mapping S D options) ∧
  _getMapping S D (fold_left after_call calls st1) =
    (Ok l, fold_left after_call calls st1) ∧
  ∀ isInherit,
    _getMappingForDestination D S isInherit (fold_left after_call calls st1) =
      (Ok (Some l), fold_left after_call calls st1).
Proof.
  intros Hrun.
  destruct (createMapping_object _ _ _ _ _ _ Hrun) as [Hheap _].
  destruct (createMapping_Ok _ _ _ _ _ _ Hrun)
    as (hS & hD & HS & HD & Hfree & Hm & Hl & _).
  split.
  - rewrite Hheap, Hl, lookup_app_r by lia. rewrite Nat.sub_diag. reflexivity.
  - destruct (grows_after_calls calls st1) as [Gm Gc].
    assert (Hentry : assoc_get (_getMappingKey hS hD)
                       (_mappings (fold_left after_call calls st1)) = Some l).
    { apply Gm. rewrite Hm. apply assoc_get_app_fresh, Hfree. }
    split.
    + rewrite (getMapping_cached S D hS hD _ (Gc _ _ HS) (Gc _ _ HD)), Hentry.
      reflexivity.
    + intros b.
      rewrite (getMappingForDestination_cached S D hS hD b _
                 (Gc _ _ HS) (Gc _ _ HD)), Hentry.
      reflexivity.
Qed.

(** What one call of [_getMapping] does to the state and returns. *)
Lemma getMapping_run S D st r st' :
  _getMapping S D st = (r, st') →
  _mappings st' = _mappings st ∧ heap st' = heap st ∧ trace st' = trace st ∧
  ∃ hS hD,
    _classNameMap st' !! S = Some hS ∧ _classNameMap st' !! D = Some hD ∧
    r = match assoc_get (_getMappingKey hS hD) (_mappings st) with
        | Some l => Ok l
        | None => Throw (MappingNotFoundError (cname S) (Some (cname D)))
        end.
Proof.
  unfold _getMapping.
  destruct (getHashedNames_true_spec S D st)
    as (hS & hD & st1 & E & HS & HD & Hm & Hh & Ht & _).
  rewrite (bind_Ok _ _ _ _ _ E). unfold bind, gets. rewrite Hm.
  destruct (assoc_get _ _) eqn:Eg; intros [= <- <-];
    repeat split; auto; exists hS, hD; rewrite Eg; auto.
Qed.

(** X2. [_getMapping(S, D)] never changes [_mappings], the [Mapping]
    objects or the trace, but it caches an identity for both classes even
    when it fails; it returns the entry under the key of the two
    identities and throws the not-found error, naming both classes, when
    there is none. *)
Theorem getMapping_outcome S D st r st' :
  _getMapping S D st = (r, st') →
  _mappings st' = _mappings st ∧ heap st' = heap st ∧ trace st' = trace st ∧
  ∃ hS hD,
    _classNameMap st' !! S = Some hS ∧ _classNameMap st' !! D = Some hD ∧
    r = match assoc_get (_getMappingKey hS hD) (_mappings st) with
        | Some l => Ok l
        | None => Throw (MappingNotFoundError (cname S) (Some (cname D)))
        end.
Proof. exact (getMapping_run S D st r st'). Qed.

(** X3. [_getMappingForDestination] only reads: whatever its outcome the
    state is the one it was called on (no identity is created). With
    [isInherit] it always returns, with nothing when no mapping is found;
    without it, it returns the same mapping or throws the not-found error
    exactly when there is none. *)
Theorem getMappingForDestination_probe D S st :
  ∃ found,
    _getMappingForDestination D S true st = (Ok found, st) ∧
    _getMappingForDestination D S false st =
      match found with
      | Some l => (Ok (Some l), st)
      | None => (Throw (MappingNotFoundError "Function" (Some "Function")), st)
      end.
Proof.
  destruct (getHashedNames_false_spec S D st) as (hS & hD & E).
  exists (assoc_get (_getMappingKey hS hD) (_mappings st)).
  unfold _getMappingForDestination.
  rewrite !(bind_Ok _ _ _ _ _ E). unfold bind, gets.
  destruct (assoc_get _ _); split; reflexivity.
Qed.

(** X4. A class without an identity of its own is looked up under the
    identity of what [_getProto] gives for it: a subclass of a registered
    source resolves to the mapping of that source. The lookup goes one
    level up only: when the prototype has no identity either, the
    identity is the empty string whatever lies further up, and nothing is
    cached. *)
Theorem lookup_through_prototype Sub Base D st :
  _classNameMap st !! Sub = None →
  _getProto Sub = Some Base →
  (∀ hB hD l isInherit,
     _classNameMap st !! Base = Some hB →
     _classNameMap st !! D = Some hD →
     assoc_get (_getMappingKey hB hD) (_mappings st) = Some l →
     _getHash Sub false st = (Ok hB, st) ∧
     _getMappingForDestination D Sub isInherit st = (Ok (Some l), st)) ∧
  (_classNameMap st !! Base = None →
   _getHash Sub false st = (Ok EmptyString, st)).
Proof.
  intros Hsub Hproto. split.
  - intros hB hD l b HB HD Hl.
    assert (Hs : _getHash Sub false st = (Ok hB, st)).
    { unfold _getHash, bind, gets. rewrite Hsub, Hproto, HB. reflexivity. }
    split; [exact Hs|].
    unfold _getMappingForDestination, _getHashedNames.
    unfold bind at 1. unfold bind at 1. rewrite Hs.
    unfold bind at 1. rewrite (getHash_cached D hD false st HD). simpl.
    unfold bind, gets. rewrite Hl. reflexivity.
  - intros HB. unfold _getHash, bind, gets. rewrite Hsub, Hproto, HB.
    reflexivity.
Qed.

(** X5. [_dispose()] always returns and empties the registry: no pair is
    registered, every [_getMapping] throws the not-found error, and every
    pair, registered before or not, can be registered (again); the new
    mapping is a fresh object, the [Mapping] objects handed out before are
    kept. *)
Theorem dispose_resets st :
  fst (_dispose st) = Ok tt ∧
  _mappings (snd (_dispose st)) = [] ∧
  _classNameMap (snd (_dispose st)) = ∅ ∧
  heap (snd (_dispose st)) = heap st ∧
  trace (snd (_dispose st)) = trace st ∧
  ∀ S D,
    ¬ registered (snd (_dispose st)) S D ∧
    fst (_getMapping S D (snd (_dispose st))) =
      Throw (MappingNotFoundError (cname S) (Some (cname D))) ∧
    ∀ options,
      fst (_createMappingObject S D options (snd (_dispose st))) =
        Ok (length (heap st)).
Proof.
  repeat split; try reflexivity.
  - intros (hS & hD & l & HS & _). simpl in HS.
    rewrite lookup_empty in HS. discriminate.
  - destruct (_getMapping S D (snd (_dispose st))) as [r st'] eqn:E.
    destruct (getMapping_run _ _ _ _ _ E) as (_ & _ & _ & hS & hD & _ & _ & ->).
    reflexivity.
  - intros options. unfold _createMappingObject.
    destruct (getHashedNames_true_spec S D (snd (_dispose st)))
      as (hS & hD & st1 & E & HS & HD & Hm & Hh & _).
    rewrite (bind_Ok _ _ _ _ _ E).
    rewrite (bind_inv_hasMapping S D hS hD st1 _ HS HD), Hm. simpl.
    unfold bind, alloc, modify, ret. simpl. rewrite Hh. reflexivity.
Qed.

(** X6. Once [_getHash(c, true)] has returned an identity for a class,
    every later [_getHash(c, _)] returns that same identity and changes
    nothing, whatever calls other than [_dispose] were made in between. *)
Theorem identity_is_stable c st h st1 calls shouldCreate :
  _getHash c true st = (Ok h, st1) →
  _getHash c shouldCreate (fold_left after_call calls st1) =
    (Ok h, fold_left after_call calls st1).
Proof.
  intros Hrun.
  destruct (getHash_true_spec c st) as (h' & st' & E & Hc & _).
  rewrite Hrun in E. injection E as -> ->.
  apply getHash_cached.
  apply (proj2 (grows_after_calls calls st')). exact Hc.
Qed.

End Lookups.

(** * Invariants of the registry *)

Section Invariants.
Context {U : Utils}.

#[local] Instance keeps_registry_preorder : PreOrder keeps_registry.
Proof.
  split.
  - intros st. repeat split; auto.
  - intros a b c (M1 & L1 & C1 & W1) (M2 & L2 & C2 & W2).
    repeat split; [congruence|congruence|auto|auto].
Qed.

Lemma wf_cache_insert c st :
  wf_cache st → wf_cache (with_classNameMap <[c := identity_hash c]> st).
Proof.
  intros Hwf c' h'. simpl. rewrite lookup_insert.
  case_decide as Hc; [intros [= <-]; subst; reflexivity|apply Hwf].
Qed.

Lemma keeps_registry_cache c st :
  _classNameMap st !! c = None →
  keeps_registry st (with_classNameMap <[c := identity_hash c]> st).
Proof.
  intros E. repeat split; auto.
  - intros c' h' H'. simpl. rewrite lookup_insert_ne; [exact H'|].
    intros ->. rewrite E in H'. discriminate.
  - apply wf_cache_insert.
Qed.

Lemma keeps_registry_map fuel s l o b : preserves keeps_registry (_map fuel s l o b).
Proof.
  apply preserves_map.
  - apply _.
  - apply keeps_registry_cache.
  - intros f g st st' H. exact H.
  - intros st mapping m _. left. apply Forall_forall. intros p _ _ sel _ _.
    intros st0 r st0'. unfold update, modify. intros [= _ <-].
    repeat split; auto. simpl.
    destruct (heap st0 !! mapping); [apply length_insert|reflexivity].
Qed.

Lemma keeps_registry_mapArray fuel elems l o :
  preserves keeps_registry (_mapArray fuel elems l o).
Proof.
  apply preserves_mapArray_body.
  - apply _.
  - intros f g st st' H. exact H.
  - apply keeps_registry_map.
Qed.

(** X7. A call of [_map] or [_mapArray], whatever its outcome, leaves the
    entries of [_mappings] exactly as they were and neither creates nor
    drops a [Mapping] object; the only thing it may add to the registry
    is the cached identity of a class (every identity cached before is
    kept). *)
Theorem map_keeps_registry fuel sourceObj sourceArray mapping option isArrayMap st :
  keeps_registry st (snd (_map fuel sourceObj mapping option isArrayMap st)) ∧
  keeps_registry st (snd (_mapArray fuel sourceArray mapping option st)).
Proof.
  split.
  - destruct (_map fuel sourceObj mapping option isArrayMap st) eqn:E.
    exact (keeps_registry_map _ _ _ _ _ _ _ _ E).
  - destruct (_mapArray fuel sourceArray mapping option st) eqn:E.
    exact (keeps_registry_mapArray _ _ _ _ _ _ _ E).
Qed.

#[local] Instance keeps_objects_preorder : PreOrder keeps_objects.
Proof.
  split.
  - intros st. split; auto.
  - intros a b c [L1 W1] [L2 W2]. split; [lia|auto].
Qed.

Lemma keeps_objects_cache c st :
  _classNameMap st !! c = None →
  keeps_objects st (with_classNameMap <[c := identity_hash c]> st).
Proof. intros _. split; [reflexivity|apply wf_cache_insert]. Qed.

Lemma keeps_objects_warn msg st :
  keeps_objects st (with_trace (fun t => t ++ [EvWarn msg]) st).
Proof. split; [reflexivity|auto]. Qed.

Lemma keeps_objects_hasMapping S D sk dk :
  preserves keeps_objects (_hasMapping S D sk dk).
Proof.
  unfold _hasMapping.
  assert (Hnames : preserves keeps_objects
    (let* (srcKey, destKey) := _getHashedNames S D true in
     ret (_getMappingKey srcKey destKey))).
  { apply preserves_bind; [apply _| |].
    - apply preserves_getHashedNames;
        [apply _|apply keeps_objects_cache].
    - intros [s d]. apply preserves_ret, _. }
  apply preserves_bind; [apply _| |].
  - destruct sk as [sk|]; [|exact Hnames].
    destruct dk as [dk|]; [|exact Hnames].
    destruct (_ && _); [apply preserves_ret, _|exact Hnames].
  - intros key. apply preserves_bind; [apply _|apply preserves_gets, _|].
    intros [l|]; [apply preserves_throw, _|apply preserves_ret, _].
Qed.

Lemma keeps_objects_alloc m : preserves keeps_objects (alloc m).
Proof.
  intros st r st'. unfold alloc. intros [= _ <-]. split; [|auto].
  simpl. rewrite length_app. lia.
Qed.

Lemma keeps_objects_update l f : preserves keeps_objects (update l f).
Proof.
  intros st r st'. unfold update, modify. intros [= _ <-]. split; [|auto].
  simpl. destruct (heap st !! l); [rewrite length_insert|]; lia.
Qed.

Lemma keeps_objects_store key l :
  preserves keeps_objects (modify (with_mappings (assoc_set key l))).
Proof. intros st r st'. unfold modify. intros [= _ <-]. split; auto. Qed.

Lemma keeps_objects_createMapping S D options :
  preserves keeps_objects (_createMappingObject S D options).
Proof.
  unfold _createMappingObject.
  apply preserves_bind; [apply _| |].
  - apply preserves_getHashedNames; [apply _|apply keeps_objects_cache].
  - intros [s d]. apply preserves_bind; [apply _|apply keeps_objects_hasMapping|].
    intros key. apply preserves_bind; [apply _|apply keeps_objects_alloc|].
    intros l. apply preserves_bind; [apply _|apply keeps_objects_store|].
    intros _. apply preserves_ret, _.
Qed.

Lemma keeps_objects_createReversedMapping mapping :
  preserves keeps_objects (_createReversedMappingObject mapping).
Proof.
  unfold _createReversedMappingObject.
  apply preserves_bind; [apply _|apply preserves_deref, _|].
  intros m. apply preserves_bind; [apply _|apply keeps_objects_hasMapping|].
  intros key. apply preserves_bind; [apply _|apply keeps_objects_alloc|].
  intros l. apply preserves_bind; [apply _| |].
  - destruct (baseDestination m); [|apply preserves_ret, _].
    destruct (baseSource m); [|apply preserves_ret, _].
    apply preserves_bind; [apply _| |].
    + apply preserves_getMappingForDestination;
        [apply _|apply keeps_objects_cache].
    + intros [b|]; [|apply preserves_ret, _].
      apply preserves_bind; [apply _|apply preserves_deref, _|].
      intros base. apply keeps_objects_update.
  - intros _. apply preserves_bind; [apply _|apply keeps_objects_store|].
    intros _. apply preserves_ret, _.
Qed.

Lemma assoc_get_None_fst {V} key (t : list (string * V)) :
  assoc_get key t = None → key ∉ List.map fst t.
Proof.
  induction t as [|[k v] t IH]; simpl; intros H Hin.
  - apply elem_of_nil in Hin. exact Hin.
  - destruct (String.eqb k key) eqn:E; [discriminate|].
    apply elem_of_cons in Hin. destruct Hin as [->|Hin].
    + rewrite String.eqb_refl in E. discriminate.
    + exact (IH H Hin).
Qed.

Lemma live_entries_mono (ms : list (string * loc)) (h h' : list Mapping) :
  (length h ≤ length h')%nat →
  Forall (fun entry => is_Some (h !! snd entry)) ms →
  Forall (fun entry => is_Some (h' !! snd entry)) ms.
Proof.
  intros Hlen H. eapply Forall_impl; [exact H|]. intros [k l] Hl. simpl in *.
  apply lookup_lt_is_Some. apply lookup_lt_is_Some in Hl. lia.
Qed.

(** A store under a free key, of a reference to a live object, keeps the
    registry well formed. *)
Lemma registry_ok_append st st' key l :
  registry_ok st →
  keeps_objects st st' →
  assoc_get key (_mappings st) = None →
  _mappings st' = _mappings st ++ [(key, l)] →
  l = length (heap st) →
  (length (heap st) < length (heap st'))%nat →
  registry_ok st'.
Proof.
  intros (Hnd & Hlive & Hwf) [Hlen Hwf'] Hfree Hm Hl Hlt. repeat split.
  - rewrite Hm, map_app. simpl. apply NoDup_app. repeat split.
    + exact Hnd.
    + intros k Hk Hk'. apply list_elem_of_singleton in Hk'. subst k.
      exact (assoc_get_None_fst _ _ Hfree Hk).
    + apply NoDup_singleton.
  - rewrite Hm. apply Forall_app. split.
    + eapply live_entries_mono; eassumption.
    + constructor; [|constructor]. simpl. apply lookup_lt_is_Some. lia.
  - auto.
Qed.

Lemma registry_ok_same st st' :
  registry_ok st → keeps_objects st st' → _mappings st' = _mappings st →
  registry_ok st'.
Proof.
  intros (Hnd & Hlive & Hwf) [Hlen Hwf'] Hm. repeat split.
  - rewrite Hm. exact Hnd.
  - rewrite Hm. eapply live_entries_mono; eassumption.
  - auto.
Qed.

Lemma createMapping_failed S D options st r st' :
  _createMappingObject S D options st = (r, st') →
  (∀ l, r ≠ Ok l) → _mappings st' = _mappings st.
Proof.
  unfold _createMappingObject.
  destruct (getHashedNames_true_spec S D st)
    as (hS & hD & st1 & E & HS & HD & Hm & _).
  rewrite (bind_Ok _ _ _ _ _ E).
  rewrite (bind_inv_hasMapping S D hS hD st1 _ HS HD).
  destruct (assoc_get _ _).
  - intros [= _ <-] _. exact Hm.
  - unfold bind, alloc, modify, ret. simpl. intros [= <- _] Hno.
    exfalso. exact (Hno _ eq_refl).
Qed.

Lemma createReversedMapping_allocates mapping st l st' :
  _createReversedMappingObject mapping st = (Ok l, st') →
  (length (heap st) < length (heap st'))%nat.
Proof.
  unfold _createReversedMappingObject. intros Hrun.
  apply bind_inv in Hrun.
  destruct Hrun as [(m & st0 & Hd & Hrun)|[(e & _ & ?)|[_ ?]]]; try discriminate.
  unfold deref in Hd. destruct (heap st !! mapping); [|discriminate].
  injection Hd as -> <-.
  destruct (hasMapping_nokeys (destination m) (source m) st)
    as (hS & hD & st1 & _ & _ & Hh & _ & Hk).
  destruct (assoc_get (_getMappingKey hS hD) (_mappings st)).
  { rewrite (bind_Throw _ _ _ _ _ Hk) in Hrun. discriminate. }
  rewrite (bind_Ok _ _ _ _ _ Hk) in Hrun.
  unfold bind at 1, alloc at 1 in Hrun.
  match type of Hrun with
  | ?c ?s = _ =>
      assert (Hk' : preserves keeps_objects c);
      [|apply Hk' in Hrun; destruct Hrun as [Hlen _]; simpl in Hlen;
        rewrite length_app, Hh in Hlen; simpl in Hlen; lia]
  end.
  apply preserves_bind; [apply _| |].
  - destruct (baseDestination m); [|apply preserves_ret, _].
    destruct (baseSource m); [|apply preserves_ret, _].
    apply preserves_bind; [apply _| |].
    + apply preserves_getMappingForDestination;
        [apply _|apply keeps_objects_cache].
    + intros [b|]; [|apply preserves_ret, _].
      apply preserves_bind; [apply _|apply preserves_deref, _|].
      intros base. apply keeps_objects_update.
  - intros _. apply preserves_bind; [apply _|apply keeps_objects_store|].
    intros _. apply preserves_ret, _.
Qed.

Lemma registry_ok_initial : registry_ok initial.
Proof.
  repeat split; [constructor|constructor|apply wf_cache_initial].
Qed.

Lemma registry_ok_after_call st c : registry_ok st → registry_ok (after_call st c).
Proof.
  intros Hok. destruct c as [S D o|l|fuel s l o b|fuel elems l o]; simpl.
  - destruct (_createMappingObject S D o st) as [r st'] eqn:E. simpl.
    assert (Hk := keeps_objects_createMapping _ _ _ _ _ _ E).
    destruct r as [l|e|].
    + destruct (createMapping_Ok _ _ _ _ _ _ E)
        as (hS & hD & _ & _ & Hfree & Hm & Hl & _).
      destruct (createMapping_object _ _ _ _ _ _ E) as [Hh _].
      eapply registry_ok_append; try eassumption.
      rewrite Hh, length_app. simpl. lia.
    + eapply registry_ok_same; try eassumption.
      eapply createMapping_failed; [eassumption|discriminate].
    + eapply registry_ok_same; try eassumption.
      eapply createMapping_failed; [eassumption|discriminate].
  - destruct (_createReversedMappingObject l st) as [r st'] eqn:E. simpl.
    assert (Hk := keeps_objects_createReversedMapping _ _ _ _ E).
    destruct (createReversedMapping_spec _ _ _ _ E)
      as [_ [[Hm _]|(l' & key & -> & Hfree & Hm & Hl)]].
    + eapply registry_ok_same; eassumption.
    + eapply registry_ok_append; try eassumption.
      eapply createReversedMapping_allocates, E.
  - destruct (_map fuel s l o b st) as [r st'] eqn:E. simpl.
    destruct (keeps_registry_map _ _ _ _ _ _ _ _ E) as (Hm & Hlen & _ & Hwf).
    eapply registry_ok_same; [eassumption| |exact Hm].
    split; [lia|exact Hwf].
  - destruct (_mapArray fuel elems l o st) as [r st'] eqn:E. simpl.
    destruct (keeps_registry_mapArray _ _ _ _ _ _ _ E) as (Hm & Hlen & _ & Hwf).
    eapply registry_ok_same; [eassumption| |exact Hm].
    split; [lia|exact Hwf].
Qed.

Lemma registry_ok_after_any st c : registry_ok st → registry_ok (after_any st c).
Proof.
  destruct c as [|c]; [|apply registry_ok_after_call].
  intros _. repeat split; simpl; [constructor|constructor|].
  intros c h H. simpl in H. rewrite lookup_empty in H. discriminate.
Qed.

(** X8. In every state reached from the constructor by calls of the
    class ([_createMappingObject], [_createReversedMappingObject],
    [_map], [_mapArray], [_dispose]), whether they return or throw, the
    keys of [_mappings] are distinct, every entry refers to a [Mapping]
    object that exists, and every cached identity is the hash
    [_getHash] computes for its class. *)
Theorem registry_stays_well_formed calls :
  registry_ok (fold_left after_any calls initial).
Proof.
  assert (H : ∀ st, registry_ok st → registry_ok (fold_left after_any calls st)).
  { induction calls as [|c calls IH]; intros st Hok; simpl; [exact Hok|].
    apply IH, registry_ok_after_any, Hok. }
  apply H, registry_ok_initial.
Qed.

End Invariants.

(** * The identity hash *)

Lemma toInt32_range z : - 2 ^ 31 ≤ toInt32 z < 2 ^ 31.
Proof.
  unfold toInt32.
  assert (H := Z.mod_pos_bound (z + 2 ^ 31) (2 ^ 32) ltac:(lia)). lia.
Qed.

Lemma hash_loop_range s : ∀ hash,
  - 2 ^ 31 ≤ hash < 2 ^ 31 → - 2 ^ 31 ≤ hash_loop hash s < 2 ^ 31.
Proof.
  induction s as [|a s IH]; intros hash H; simpl; [exact H|].
  apply IH. unfold hash_step. apply toInt32_range.
Qed.

Lemma pretty_N_go_nonempty x : ∀ s,
  s ≠ EmptyString → pretty_N_go x s ≠ EmptyString.
Proof.
  induction (N.lt_wf_0 x) as [x _ IH]. intros s Hs.
  destruct (decide (x = 0%N)) as [->|Hx].
  - rewrite pretty_N_go_0. exact Hs.
  - rewrite pretty_N_go_step by lia. apply IH.
    + apply N.div_lt; lia.
    + discriminate.
Qed.

Lemma pretty_N_nonempty (x : N) : pretty x ≠ EmptyString.
Proof.
  unfold pretty, pretty_N. case_decide as Hx.
  - discriminate.
  - rewrite pretty_N_go_step by lia. apply pretty_N_go_nonempty. discriminate.
Qed.

Lemma toString_nonempty z : toString z ≠ EmptyString.
Proof.
  unfold toString, pretty, pretty_Z. destruct z as [|p|p].
  - discriminate.
  - apply (pretty_N_nonempty (Npos p)).
  - discriminate.
Qed.

Section IdentityHash.
Context {U : Utils}.

Lemma identity_hash_nonempty c : identity_hash c ≠ EmptyString.
Proof. apply toString_nonempty. Qed.

(** X9. The identity [_getHash] computes is the decimal rendering of a
    signed 32-bit integer: it is never the empty string (the answer of
    [_getHash(c, false)] for an unknown class), and two classes get the
    same identity exactly when their serialized definitions have the same
    32-bit hash. *)
Theorem identity_is_int32 c :
  identity_hash c ≠ EmptyString ∧
  (∃ z, - 2 ^ 31 ≤ z < 2 ^ 31 ∧ identity_hash c = toString z) ∧
  ∀ c',
    identity_hash c' = identity_hash c ↔
    hash_loop 0 (trim (_wrapMappingKey (csource c'))) =
    hash_loop 0 (trim (_wrapMappingKey (csource c))).
Proof.
  repeat split.
  - apply identity_hash_nonempty.
  - eexists. split; [|reflexivity]. apply hash_loop_range. lia.
  - unfold identity_hash, toString. intros H. exact (pretty_Z_inj _ _ H).
  - unfold identity_hash. intros ->. reflexivity.
Qed.

(** X10. In a registry whose cached identities are hashes,
    [_getHash(c, false)] answers the empty string exactly when neither
    the class nor what [_getProto] gives for it has an identity; in every
    case it leaves the state as it is. *)
Theorem unknown_class_has_empty_identity c st :
  wf_cache st →
  ∃ h,
    _getHash c false st = (Ok h, st) ∧
    (h = EmptyString ↔
     _classNameMap st !! c = None ∧
     ∀ proto, _getProto c = Some proto → _classNameMap st !! proto = None).
Proof.
  intros Hwf. unfold _getHash, bind, gets.
  destruct (_classNameMap st !! c) as [h|] eqn:Ec.
  - exists h. split; [reflexivity|]. split.
    + intros ->. exfalso.
      apply (identity_hash_nonempty c). symmetry. exact (Hwf _ _ Ec).
    + intros [H _]. discriminate.
  - destruct (_getProto c) as [proto|] eqn:Ep.
    + destruct (_classNameMap st !! proto) as [h|] eqn:Eh.
      * exists h. split; [reflexivity|]. split.
        -- intros ->. exfalso.
           apply (identity_hash_nonempty proto). symmetry. exact (Hwf _ _ Eh).
        -- intros [_ H]. specialize (H proto eq_refl). rewrite Eh in H.
           discriminate.
      * exists EmptyString. split; [reflexivity|]. split; [|reflexivity].
        intros _. split; [reflexivity|]. intros p [= <-]. exact Eh.
    + exists EmptyString. split; [reflexivity|]. split; [|reflexivity].
      intros _. split; [reflexivity|]. intros p Hp. discriminate.
Qed.

End IdentityHash.
(** * Arrays *)

Lemma mapM_length {A B} (f : A → M B) l : ∀ st ys st',
  mapM f l st = (Ok ys, st') → length ys = length l.
Proof.
  induction l as [|x l IH]; intros st ys st' H; simpl in H.
  - injection H as <- _. reflexivity.
  - apply bind_inv in H.
    destruct H as [(y & st1 & _ & H)|[(e & _ & ?)|[_ ?]]]; try discriminate.
    apply bind_inv in H.
    destruct H as [(ys' & st2 & H & Hret)|[(e & _ & ?)|[_ ?]]]; try discriminate.
    injection Hret as <- _. simpl. f_equal. exact (IH _ _ _ H).
Qed.

Section Arrays.
Context {U : Utils}.

(** [sourceArray.map(s => this._map(s, mapping, {}, true))] returns when
    every element was mapped in turn. *)
Lemma mapM_in_turn fuel mapping sources : ∀ st destinations st',
  mapM (fun s => _map fuel s mapping emptyOptions true) sources st =
    (Ok destinations, st') ↔
  mapped_in_turn fuel mapping st sources destinations st'.
Proof.
  induction sources as [|s sources IH]; intros st destinations st'; simpl.
  - destruct destinations as [|d destinations]; split.
    + intros [= <-]. reflexivity.
    + intros ->. reflexivity.
    + discriminate.
    + contradiction.
  - split.
    + intros H. apply bind_inv in H.
      destruct H as [(d & st1 & Hs & H)|[(e & _ & ?)|[_ ?]]];
        try discriminate.
      apply bind_inv in H.
      destruct H as [(ds & st2 & Hm & Hret)|[(e & _ & ?)|[_ ?]]];
        try discriminate.
      injection Hret as <- <-. exists st1. split; [exact Hs|].
      apply IH, Hm.
    + destruct destinations as [|d destinations]; [contradiction|].
      intros (st1 & Hs & Hrest). apply IH in Hrest.
      rewrite (bind_Ok _ _ _ _ _ Hs), (bind_Ok _ _ _ _ _ Hrest).
      reflexivity.
Qed.

(** The three phases of a call of [_mapArray]: the per-call callback
    before, the elements, the per-call callback after. *)
Lemma mapArray_phases fuel sourceArray mapping option st r st' :
  _mapArray fuel sourceArray mapping option st = (r, st') →
  match action_result (beforeMap option) (VArr sourceArray) (VArr []) with
  | Throws e =>
      r = Throw e ∧
      st' = with_trace
              (fun t => t ++ [EvCall "_mapArray"
                                (batch_hook Before (beforeMap option))]) st
  | Returns _ =>
      ∃ elements st1,
        mapM (fun s => _map fuel s mapping emptyOptions true) sourceArray
          (with_trace (fun _ => batch_hook Before (beforeMap option)) st) =
          (elements, st1) ∧
        match elements with
        | Ok destination0 =>
            r = returned
                  (action_result (afterMap option) (VArr sourceArray)
                     (VArr destination0)) ∧
            st' = with_trace
                    (fun _ => trace st ++
                       [EvCall "_mapArray"
                          (trace st1 ++ batch_hook After (afterMap option))])
                    st1
        | Throw e =>
            r = Throw e ∧
            st' = with_trace
                    (fun _ => trace st ++ [EvCall "_mapArray" (trace st1)]) st1
        | OutOfFuel =>
            r = OutOfFuel ∧
            st' = with_trace
                    (fun _ => trace st ++ [EvCall "_mapArray" (trace st1)]) st1
        end
  end.
Proof.
  unfold _mapArray, _mapArray_body, call. intros Hrun.
  set (st0 := with_trace (fun _ => []) st) in Hrun.
  match type of Hrun with
  | (let '(_, _) := ?c st0 in _) = _ => destruct (c st0) as [r1 st2] eqn:Hbody
  end.
  injection Hrun as <- <-.
  unfold bind at 1 in Hbody.
  assert (Hb :
    match beforeMap option with
    | Some h => run_hook Before PerCall h (VArr sourceArray) (VArr [])
    | None => ret VUndefined
    end st0 =
    (match action_result (beforeMap option) (VArr sourceArray) (VArr []) with
     | Returns _ =>
         Ok (match beforeMap option with
             | Some h =>
                 match action h (VArr sourceArray) (VArr []) with
                 | Returns d => d
                 | Throws _ => VUndefined
                 end
             | None => VUndefined
             end)
     | Throws e => Throw e
     end,
     with_trace (fun _ => batch_hook Before (beforeMap option)) st)).
  { unfold action_result, batch_hook, run_hook, bind, emit, modify, ret, throw.
    destruct (beforeMap option) as [h|].
    - destruct (action h (VArr sourceArray) (VArr [])); destruct st; reflexivity.
    - destruct st. reflexivity. }
  rewrite Hb in Hbody.
  destruct (action_result (beforeMap option) (VArr sourceArray) (VArr []))
    as [d|e].
  - destruct (mapM (fun s => _map fuel s mapping emptyOptions true) sourceArray
                (with_trace (fun _ => batch_hook Before (beforeMap option)) st))
      as [elements st1] eqn:Hm.
    exists elements, st1. split; [reflexivity|].
    unfold bind at 1 in Hbody. rewrite Hm in Hbody.
    destruct elements as [destination0|e|].
    + unfold action_result, batch_hook.
      destruct (afterMap option) as [h|].
      * unfold run_hook, bind, emit, modify, ret, throw in Hbody.
        destruct (action h (VArr sourceArray) (VArr destination0));
          injection Hbody as <- <-; split; try reflexivity;
          destruct st1, st; reflexivity.
      * injection Hbody as <- <-. split; [reflexivity|].
        destruct st1, st. unfold with_trace. simpl. rewrite app_nil_r.
        reflexivity.
    + injection Hbody as <- <-. split; reflexivity.
    + injection Hbody as <- <-. split; reflexivity.
  - injection Hbody as <- <-. split; [reflexivity|].
    destruct st. reflexivity.
Qed.

(** X11. When [_mapArray] returns, the per-call [beforeMap], if one is
    given, was called on the source array and an empty array and
    returned; every element was then mapped, in order, by
    [_map(s, mapping, {}, true)], each on the state the one before it
    left, and each of these calls returned: the array built holds what
    they returned, one destination per source element; and what
    [_mapArray] returns is what the per-call [afterMap] made of that
    array, or the array itself without one. On the empty array the
    outcome is that of the two callbacks alone, whatever the budget and
    the reference. *)
Theorem mapArray_shape fuel sourceArray mapping option st v st' :
  _mapArray fuel sourceArray mapping option st = (Ok v, st') →
  (∃ destination0 st1,
     (∃ d, action_result (beforeMap option) (VArr sourceArray) (VArr []) =
             Returns d) ∧
     mapped_in_turn fuel mapping
       (with_trace (fun _ => batch_hook Before (beforeMap option)) st)
       sourceArray destination0 st1 ∧
     length destination0 = length sourceArray ∧
     action_result (afterMap option) (VArr sourceArray) (VArr destination0) =
       Returns v) ∧
  fst (_mapArray 0 [] mapping option st) =
    match action_result (beforeMap option) (VArr []) (VArr []) with
    | Throws e => Throw e
    | Returns _ => returned (action_result (afterMap option) (VArr []) (VArr []))
    end.
Proof.
  intros Hrun. split.
  - apply mapArray_phases in Hrun.
    destruct (action_result (beforeMap option) (VArr sourceArray) (VArr []))
      as [d|e]; [|destruct Hrun; discriminate].
    destruct Hrun as (elements & st1 & Hm & Hrest).
    destruct elements as [destination0|e|];
      [|destruct Hrest; discriminate..].
    destruct Hrest as [Hr _].
    exists destination0, st1. split; [exists d; reflexivity|].
    split; [apply mapM_in_turn, Hm|].
    split; [exact (mapM_length _ _ _ _ _ Hm)|].
    destruct (action_result (afterMap option) (VArr sourceArray)
                (VArr destination0)); [|discriminate].
    injection Hr as ->. reflexivity.
  - destruct (_mapArray 0 [] mapping option st) as [r0 st0] eqn:E.
    apply mapArray_phases in E. simpl.
    destruct (action_result (beforeMap option) (VArr []) (VArr [])) as [d|e];
      [|exact (proj1 E)].
    destruct E as (elements & st1 & Hm & Hrest).
    simpl in Hm. injection Hm as <- _. exact (proj1 Hrest).
Qed.

(** X12. The callbacks of a batch. [_mapArray] itself calls the per-call
    callbacks only: when [beforeMap] throws, the call throws and no
    element is mapped; the elements are then mapped by
    [_map(s, mapping, {}, true)], and the first of these calls that does
    not return ends the batch without [afterMap] being called; when all
    returned, [afterMap] is called on the source array and the array
    built, and what it returns or throws is the outcome. A call of [_map]
    made for an element applies no callback at all, neither a per-call one
    nor the ones configured on the mapping: the rules are mapped onto a
    fresh instance of the destination, and the outcome is that of the
    loop and the check. *)
Theorem mapArray_hooks fuel sourceArray mapping option st r st' :
  _mapArray fuel sourceArray mapping option st = (r, st') →
  match action_result (beforeMap option) (VArr sourceArray) (VArr []) with
  | Throws e =>
      r = Throw e ∧
      st' = with_trace
              (fun t => t ++ [EvCall "_mapArray"
                                (batch_hook Before (beforeMap option))]) st
  | Returns _ =>
      ∃ elements st1,
        mapM (fun s => _map fuel s mapping emptyOptions true) sourceArray
          (with_trace (fun _ => batch_hook Before (beforeMap option)) st) =
          (elements, st1) ∧
        match elements with
        | Ok destination0 =>
            r = returned
                  (action_result (afterMap option) (VArr sourceArray)
                     (VArr destination0)) ∧
            st' = with_trace
                    (fun _ => trace st ++
                       [EvCall "_mapArray"
                          (trace st1 ++ batch_hook After (afterMap option))])
                    st1
        | Throw e =>
            r = Throw e ∧
            st' = with_trace
                    (fun _ => trace st ++ [EvCall "_mapArray" (trace st1)]) st1
        | OutOfFuel =>
            r = OutOfFuel ∧
            st' = with_trace
                    (fun _ => trace st ++ [EvCall "_mapArray" (trace st1)]) st1
        end
  end ∧
  ∀ fuel' s o m st0 r0 st0',
    heap st0 !! mapping = Some m →
    _map (S fuel') s mapping o true st0 = (r0, st0') →
    ∃ members st1,
      _map_properties (_map fuel') m mapping
        (if instanceOf s (source m) then s
         else instantiate (source m) (Some s))
        (instantiate (destination m) None, [])
        (List.map snd (properties m))
        (with_trace (fun _ => []) st0) = (members, st1) ∧
      own_hooks (trace st1) = [] ∧
      r0 = checked members ∧
      st0' = with_trace (fun _ => trace st0 ++ [EvCall "_map" (trace st1)]) st1.
Proof.
  intros Hrun. split; [exact (mapArray_phases _ _ _ _ _ _ _ Hrun)|].
  intros fuel' s o m st0 r0 st0' Hm Hs.
  destruct (map_phases _ _ _ _ _ _ _ _ _ Hm Hs)
    as (members & st1 & Hloop & Hquiet & Hrest).
  exists members, st1. split; [exact Hloop|]. split; [exact Hquiet|].
  destruct (checked members) as [d1|e|]; destruct Hrest as [-> ->];
    split; try reflexivity.
  rewrite app_nil_r. reflexivity.
Qed.

End Arrays.

(** * The coverage check and the budget of [_map] *)

Section Coverage.
Context {U : Utils}.

(** The loop of [_map] pushes the destination path of every rule, in
    order, whether the rule is dispatched or skipped by its
    [preCondition]. *)
Lemma map_properties_keys rec_map m mapping sourceObj props :
  ∀ d keys st d' keys' st',
    _map_properties rec_map m mapping sourceObj (d, keys) props st =
      (Ok (d', keys'), st') →
    keys' = keys ++ List.map destinationMemberPath props.
Proof.
  induction props as [|p props IH]; intros d keys st d' keys' st' H; simpl in H.
  - injection H as _ <- _. rewrite app_nil_r. reflexivity.
  - apply bind_inv in H.
    destruct H as [([d1 keys1] & st1 & Hp & H)|[(e & _ & ?)|[_ ?]]];
      try discriminate.
    rewrite (IH _ _ _ _ _ _ H). simpl.
    assert (Hk : keys1 = keys ++ [destinationMemberPath p]).
    { unfold _map_property in Hp.
      destruct (match preCondition _ with Some pc => _ | None => false end).
      - injection Hp as _ <- _. reflexivity.
      - apply bind_inv in Hp.
        destruct Hp as [(d2 & st2 & _ & Hp)|[(e & _ & ?)|[_ ?]]];
          try discriminate.
        injection Hp as _ <- _. reflexivity. }
    rewrite Hk, <- app_assoc. reflexivity.
Qed.

(** X13. A call of [_map] returns only after [_assertMappingErrors]
    accepted the destination object together with the destination paths
    of all the rules of the mapping, in their order in [properties]
    (rules skipped by a failed [preCondition] included); the object
    returned is that checked object, or what the after-callback chosen
    for the call returned for it if there is one. *)
Theorem map_returns_checked_object
  fuel sourceObj mapping m option isArrayMap st v st' :
  heap st !! mapping = Some m →
  _map (S fuel) sourceObj mapping option isArrayMap st = (Ok v, st') →
  ∃ destinationObj,
    _assertMappingErrors destinationObj
      (List.map destinationMemberPath (List.map snd (properties m))) = None ∧
    let sourceObj' :=
      if instanceOf sourceObj (source m) then sourceObj
      else instantiate (source m) (Some sourceObj) in
    if isArrayMap then v = destinationObj
    else match afterMap option, afterMapAction m with
         | Some h, _ => action h sourceObj' destinationObj = Returns v
         | None, Some h => action h sourceObj' destinationObj = Returns v
         | None, None => v = destinationObj
         end.
Proof.
  intros Hm. simpl. unfold _map_body, call.
  set (st0 := with_trace (fun _ => []) st).
  match goal with |- (let '(_, _) := ?c st0 in _) = _ → _ => set (body := c) end.
  destruct (body st0) as [r1 st1] eqn:Hbody. intros [= -> _].
  unfold body in Hbody. clear body.
  assert (Hd : deref mapping st0 = (Ok m, st0))
    by (unfold deref; simpl; rewrite Hm; reflexivity).
  rewrite (bind_Ok _ _ _ _ _ Hd) in Hbody.
  apply bind_inv in Hbody.
  destruct Hbody as [(d1 & st2 & _ & Hbody)|[(e & _ & ?)|[_ ?]]]; try discriminate.
  apply bind_inv in Hbody.
  destruct Hbody as [([d2 keys] & st3 & Hp & Hbody)|[(e & _ & ?)|[_ ?]]];
    try discriminate.
  apply map_properties_keys in Hp. simpl in Hp. subst keys.
  exists d2.
  destruct (_assertMappingErrors d2 _) as [e|]; [discriminate|].
  split; [reflexivity|]. cbv zeta.
  unfold _map_hook in Hbody. destruct isArrayMap.
  - injection Hbody as <- _. reflexivity.
  - destruct (afterMap option) as [h|].
    + unfold run_hook, bind, emit, modify, ret, throw in Hbody.
      destruct (action h _ d2); [|discriminate].
      injection Hbody as <- _. reflexivity.
    + destruct (afterMapAction m) as [h|].
      * unfold run_hook, bind, emit, modify, ret, throw in Hbody.
        destruct (action h _ d2); [|discriminate].
        injection Hbody as <- _. reflexivity.
      * injection Hbody as <- _. reflexivity.
Qed.

End Coverage.

(** ** The budget is only a cut-off *)

Lemma refines_refl {A} (m : M A) : refines m m.
Proof. intros st r st' H _. exact H. Qed.

Lemma refines_bind {A B} (m m' : M A) (k k' : A → M B) :
  refines m m' → (∀ a, refines (k a) (k' a)) →
  refines (bind m k) (bind m' k').
Proof.
  intros Hm Hk st r st' Hrun Hr. apply bind_inv in Hrun.
  destruct Hrun as [(a & st1 & H1 & H2)|[(e & H1 & ->)|[_ ->]]].
  - rewrite (bind_Ok _ _ _ _ _ (Hm _ _ _ H1 ltac:(discriminate))).
    exact (Hk _ _ _ _ H2 Hr).
  - exact (bind_Throw _ _ _ _ _ (Hm _ _ _ H1 ltac:(discriminate))).
  - contradiction.
Qed.

Lemma refines_call {A} callee (m m' : M A) :
  refines m m' → refines (call callee m) (call callee m').
Proof.
  intros Hm st r st'. unfold call.
  destruct (m (with_trace (fun _ => []) st)) as [r1 st1] eqn:E.
  intros [= <- <-] Hr. rewrite (Hm _ _ _ E Hr). reflexivity.
Qed.

Lemma refines_mapM {A B} (f g : A → M B) l :
  (∀ a, refines (f a) (g a)) → refines (mapM f l) (mapM g l).
Proof.
  intros Hf. induction l as [|x l IH]; simpl; [apply refines_refl|].
  apply refines_bind; [apply Hf|]. intros y.
  apply refines_bind; [exact IH|]. intros ys. apply refines_refl.
Qed.

Section Budget.
Context {U : Utils}.
Variables rec_map rec_map' : JSValue → loc → MapActionOptions → bool → M JSValue.
Hypothesis rec_refines : ∀ s l o b, refines (rec_map s l o b) (rec_map' s l o b).

Lemma refines_mapArray_body elems l o :
  refines (_mapArray_body rec_map elems l o) (_mapArray_body rec_map' elems l o).
Proof.
  unfold _mapArray_body. apply refines_call.
  apply refines_bind; [apply refines_refl|]. intros _.
  apply refines_bind; [|intros ds; apply refines_refl].
  apply refines_mapM. intros s. apply rec_refines.
Qed.

Lemma refines_mapMember d path s spath l t :
  refines (_mapMember_body rec_map d path s spath l t)
          (_mapMember_body rec_map' d path s spath l t).
Proof.
  unfold _mapMember_body.
  destruct (type (transformationType t)); try apply refines_refl.
  - (* MapWith *)
    destruct (_isEmpty _); [apply refines_refl|].
    destruct (negb _); [apply refines_refl|].
    destruct (mapWith t) as [mw|]; [|apply refines_refl].
    destruct (constructorOf _) as [c|]; [|apply refines_refl].
    apply refines_bind; [apply refines_refl|].
    intros [lm|]; [|apply refines_refl].
    destruct (mw_fromValue mw s);
      try (apply refines_bind; [apply rec_refines|intros r; apply refines_refl]).
    destruct (_isEmpty _); [apply refines_refl|].
    apply refines_bind; [apply refines_mapArray_body|].
    intros r. apply refines_refl.
  - (* MapInitialize *)
    destruct (mapFrom t) as [[sel|res]|]; try apply refines_refl.
    assert (Hnested :
      refines
        (if typeof_object (sel s) && _isClass (sel s)
         then
           let* nestedMapping := _getMappingForNestedKey (sel s) in
           let* r := rec_map (sel s) nestedMapping defaultMapActionOptions false in
           ret (lodash_set d path r)
         else ret (lodash_set d path (sel s)))
        (if typeof_object (sel s) && _isClass (sel s)
         then
           let* nestedMapping := _getMappingForNestedKey (sel s) in
           let* r := rec_map' (sel s) nestedMapping defaultMapActionOptions false in
           ret (lodash_set d path r)
         else ret (lodash_set d path (sel s)))).
    { destruct (_ && _); [|apply refines_refl].
      apply refines_bind; [apply refines_refl|]. intros lm.
      apply refines_bind; [apply rec_refines|]. intros r. apply refines_refl. }
    destruct (sel s) eqn:Hval; try apply refines_refl;
      (destruct (_isObjectLike _); [|exact Hnested]);
      (destruct (_isDate _); [apply refines_refl|]);
      try exact Hnested.
    destruct (_isEmpty _); [apply refines_refl|].
    destruct (negb _); [apply refines_refl|].
    apply refines_bind; [apply refines_refl|]. intros lm.
    apply refines_bind; [apply refines_mapArray_body|].
    intros r. apply refines_refl.
Qed.

Lemma refines_map_properties m l s props : ∀ acc,
  refines (_map_properties rec_map m l s acc props)
          (_map_properties rec_map' m l s acc props).
Proof.
  induction props as [|p props IH]; intros acc; simpl; [apply refines_refl|].
  apply refines_bind; [|intros acc'; apply IH].
  unfold _map_property. destruct acc as [d keys].
  destruct (match preCondition _ with Some pc => _ | None => false end);
    [apply refines_refl|].
  apply refines_bind; [apply refines_mapMember|].
  intros d'. apply refines_refl.
Qed.

Lemma refines_map_body s l o b :
  refines (_map_body rec_map s l o b) (_map_body rec_map' s l o b).
Proof.
  unfold _map_body. apply refines_call.
  apply refines_bind; [apply refines_refl|]. intros m.
  apply refines_bind; [apply refines_refl|]. intros d.
  apply refines_bind; [apply refines_map_properties|].
  intros [d' keys]. apply refines_refl.
Qed.

End Budget.

Section BudgetOfMap.
Context {U : Utils}.

Lemma map_refines_more fuel : ∀ more s l o b,
  refines (_map fuel s l o b) (_map (fuel + more) s l o b).
Proof.
  induction fuel as [|fuel IH]; intros more s l o b.
  - intros st r st' [= <- _] Hr. contradiction.
  - simpl. apply refines_map_body. intros s' l' o' b'. apply IH.
Qed.

(** The outcome of [_map] and [_mapArray] does not depend on the budget
    of the model: a call that returns or throws within some budget
    returns the same value, or throws the same error, and leaves the same
    state within every larger one. *)
Theorem more_fuel_same_outcome fuel more sourceObj sourceArray mapping option
  isArrayMap st :
  (∀ r st',
     _map fuel sourceObj mapping option isArrayMap st = (r, st') →
     r ≠ OutOfFuel →
     _map (fuel + more) sourceObj mapping option isArrayMap st = (r, st')) ∧
  (∀ r st',
     _mapArray fuel sourceArray mapping option st = (r, st') →
     r ≠ OutOfFuel →
     _mapArray (fuel + more) sourceArray mapping option st = (r, st')).
Proof.
  split.
  - intros r st'. apply map_refines_more.
  - intros r st'. unfold _mapArray. apply refines_mapArray_body.
    intros s l o b. apply map_refines_more.
Qed.

End BudgetOfMap.

(** * Reverse mappings and nested lookups *)

Section Reverse.
Context {U : Utils}.

Lemma assoc_get_In {V} key (v : V) t : assoc_get key t = Some v → (key, v) ∈ t.
Proof.
  induction t as [|[k w] t IH]; simpl; [discriminate|].
  destruct (String.eqb k key) eqn:E.
  - intros [= ->]. apply String.eqb_eq in E. subst. apply list_elem_of_here.
  - intros H. apply list_elem_of_further, IH, H.
Qed.

(** The merge of the rules of the reversed base mapping, lines 441-453:
    it touches the new object only. *)
Lemma inherit_step (m r0 : Mapping) (l0 : loc) st u st' :
  heap st !! l0 = Some r0 →
  match baseDestination m, baseSource m with
  | Some reversedBaseSource, Some reversedBaseDestination =>
      let* reversedBaseMapping :=
        _getMappingForDestination
          reversedBaseDestination reversedBaseSource true in
      match reversedBaseMapping with
      | Some b =>
          let* base := deref b in
          update l0 (fun r => _inheritBaseMapping r base)
      | None => ret tt
      end
  | _, _ => ret tt
  end st = (u, st') →
  _mappings st' = _mappings st ∧ _classNameMap st' = _classNameMap st ∧
  (∀ j, j ≠ l0 → heap st' !! j = heap st !! j) ∧
  ∃ r,
    heap st' !! l0 = Some r ∧
    (r = r0 ∨ ∃ base, r = _inheritBaseMapping r0 base) ∧
    (baseSource m = None ∨ baseDestination m = None → r = r0).
Proof.
  intros Hl0 Hrun.
  assert (Hsame : st' = st →
    _mappings st' = _mappings st ∧ _classNameMap st' = _classNameMap st ∧
    (∀ j, j ≠ l0 → heap st' !! j = heap st !! j) ∧
    ∃ r,
      heap st' !! l0 = Some r ∧
      (r = r0 ∨ ∃ base, r = _inheritBaseMapping r0 base) ∧
      (baseSource m = None ∨ baseDestination m = None → r = r0)).
  { intros ->. repeat split; auto. exists r0. auto. }
  destruct (baseDestination m) as [bs|] eqn:Ebd;
    [|injection Hrun as _ <-; auto].
  destruct (baseSource m) as [bd|] eqn:Ebs;
    [|injection Hrun as _ <-; auto].
  apply bind_inv in Hrun.
  destruct Hrun as [(ob & st1 & Hg & Hrun)|[(e & Hg & _)|[Hg _]]];
    apply getMappingForDestination_state in Hg; subst; auto.
  destruct ob as [b|]; [|injection Hrun as _ <-; auto].
  apply bind_inv in Hrun.
  destruct Hrun as [(base & st2 & Hd & Hrun)|[(e & Hd & _)|[Hd _]]];
    unfold deref in Hd; destruct (heap st !! b) as [base'|] eqn:Eb;
    try discriminate; injection Hd as ? <-; auto.
  subst base'. unfold update, modify in Hrun. injection Hrun as _ <-.
  simpl. rewrite Hl0. repeat split; auto.
  - intros j Hj. apply list_lookup_insert_ne. auto.
  - exists (_inheritBaseMapping r0 base). repeat split.
    + apply list_lookup_insert_eq. eapply lookup_lt_Some, Hl0.
    + right. eauto.
    + intros [?|?]; discriminate.
Qed.

(** The object [_createReversedMappingObject] stores, and where. *)
Lemma reversed_object_spec mapping m st l st' :
  heap st !! mapping = Some m →
  _createReversedMappingObject mapping st = (Ok l, st') →
  (∃ r,
     heap st' !! l = Some r ∧
     (r = reversed_mapping m ∨
      ∃ base, r = _inheritBaseMapping (reversed_mapping m) base) ∧
     (baseSource m = None ∨ baseDestination m = None →
      r = reversed_mapping m)) ∧
  heap st' !! mapping = Some m ∧
  _getMapping (destination m) (source m) st' = (Ok l, st').
Proof.
  intros Hm Hrun. unfold _createReversedMappingObject in Hrun.
  assert (Hderef : deref mapping st = (Ok m, st))
    by (unfold deref; rewrite Hm; reflexivity).
  rewrite (bind_Ok _ _ _ _ _ Hderef) in Hrun.
  destruct (getHashedNames_true_spec (destination m) (source m) st)
    as (hS & hD & st1 & E & HS & HD & Hmp & Hh & _).
  destruct (hasMapping_nokeys (destination m) (source m) st)
    as (hS' & hD' & st1' & E' & _ & _ & _ & Hk).
  rewrite E in E'. injection E' as <- <- <-.
  destruct (assoc_get (_getMappingKey hS hD) (_mappings st)) eqn:Efree.
  { rewrite (bind_Throw _ _ _ _ _ Hk) in Hrun. discriminate. }
  rewrite (bind_Ok _ _ _ _ _ Hk) in Hrun.
  unfold bind at 1, alloc at 1 in Hrun.
  fold (reversed_mapping m) in Hrun.
  set (st2 := with_heap (fun h => h ++ [reversed_mapping m]) st1) in Hrun.
  assert (Hl0 : heap st2 !! length (heap st1) = Some (reversed_mapping m)).
  { unfold st2. simpl. rewrite lookup_app_r by lia.
    rewrite Nat.sub_diag. reflexivity. }
  apply bind_inv in Hrun.
  destruct Hrun as [(u & st3 & Hinh & Hrest)|[(e & _ & ?)|[_ ?]]];
    try discriminate.
  destruct (inherit_step m _ _ _ _ _ Hl0 Hinh)
    as (Hm3 & Hc3 & Hother & r & Hr & Hcases & Hnobase).
  unfold bind, modify, ret in Hrest. injection Hrest as <- <-. simpl.
  assert (Hlt : (mapping < length (heap st1))%nat)
    by (rewrite Hh; eapply lookup_lt_Some, Hm).
  repeat split.
  - exists r. repeat split; [exact Hr|exact Hcases|exact Hnobase].
  - rewrite Hother by lia. unfold st2. simpl.
    rewrite lookup_app_l by exact Hlt. rewrite Hh. exact Hm.
  - assert (HS3 : _classNameMap st3 !! destination m = Some hS)
      by (rewrite Hc3; exact HS).
    assert (HD3 : _classNameMap st3 !! source m = Some hD)
      by (rewrite Hc3; exact HD).
    rewrite (getMapping_cached (destination m) (source m) hS hD
               (with_mappings _ st3) HS3 HD3).
    simpl. rewrite assoc_get_set_eq. reflexivity.
Qed.

(** X14. When [_createReversedMappingObject] returns, the new object is
    the forward mapping with source and destination, their names, the two
    naming conventions and the two base classes swapped, without
    callbacks, and with the rules of
    [_initializeReversedMappingProperties]; the rules of a reversed base
    mapping may have been merged in by [_inheritBaseMapping], never when
    the forward mapping has no base pair. The forward mapping is left as
    it was, and the new object is what [_getMapping(destination, source)]
    then resolves to. *)
Theorem createReversedMapping_object mapping m st l st' :
  heap st !! mapping = Some m →
  _createReversedMappingObject mapping st = (Ok l, st') →
  (∃ r,
     heap st' !! l = Some r ∧
     (r = reversed_mapping m ∨
      ∃ base, r = _inheritBaseMapping (reversed_mapping m) base) ∧
     (baseSource m = None ∨ baseDestination m = None →
      r = reversed_mapping m)) ∧
  heap st' !! mapping = Some m ∧
  _getMapping (destination m) (source m) st' = (Ok l, st').
Proof. exact (reversed_object_spec mapping m st l st'). Qed.

(** [_createReversedMappingObject] on a mapping whose reversed pair is
    registered. *)
Lemma reversed_pair_is_refused mapping m st :
  heap st !! mapping = Some m →
  registered st (destination m) (source m) →
  _createReversedMappingObject mapping st =
    (Throw (DuplicateMappingError (cname (destination m)) (cname (source m))),
     st).
Proof.
  intros Hm (hS & hD & l & HS & HD & Hl). unfold _createReversedMappingObject.
  assert (Hderef : deref mapping st = (Ok m, st))
    by (unfold deref; rewrite Hm; reflexivity).
  rewrite (bind_Ok _ _ _ _ _ Hderef). apply bind_Throw.
  rewrite (hasMapping_key _ _ hS hD None None st HS HD
             (or_introl eq_refl) (or_introl eq_refl)).
  rewrite Hl. reflexivity.
Qed.

(** X15. A reverse mapping is derived once: after
    [_createReversedMappingObject(mapping)] has returned, deriving the
    reverse of the same mapping again throws the duplicate-mapping error
    and changes nothing; and when the forward pair is registered and has
    no base pair, deriving the reverse of the reverse mapping throws it
    too (the forward pair is taken). *)
Theorem reverse_is_derived_once mapping m st l st' :
  heap st !! mapping = Some m →
  _createReversedMappingObject mapping st = (Ok l, st') →
  _createReversedMappingObject mapping st' =
    (Throw (DuplicateMappingError (cname (destination m)) (cname (source m))),
     st') ∧
  (registered st (source m) (destination m) →
   baseSource m = None ∨ baseDestination m = None →
   _createReversedMappingObject l st' =
     (Throw (DuplicateMappingError (cname (source m)) (cname (destination m))),
      st')).
Proof.
  intros Hm Hrun.
  destruct (reversed_object_spec _ _ _ _ _ Hm Hrun)
    as ((r & Hr & _ & Hnobase) & Hm' & Hget).
  assert (Hreg' : registered st' (destination m) (source m)).
  { destruct (getMapping_run _ _ _ _ _ Hget)
      as (_ & _ & _ & hS & hD & HS & HD & Hres).
    destruct (assoc_get (_getMappingKey hS hD) (_mappings st')) eqn:Eg;
      [|discriminate].
    exists hS, hD, l0. auto. }
  split.
  - apply reversed_pair_is_refused; assumption.
  - intros Hreg Hbase. rewrite (Hnobase Hbase) in Hr.
    apply (reversed_pair_is_refused l (reversed_mapping m) st' Hr).
    simpl. eapply grows_registered; [|exact Hreg].
    exact (grows_createReversedMapping _ _ _ _ Hrun).
Qed.

Lemma find_none_all {A} (f : A → bool) l :
  (∀ x, In x l → f x = false) → List.find f l = None.
Proof.
  induction l as [|x l IH]; intros H; simpl; [reflexivity|].
  rewrite (H x (or_introl eq_refl)). apply IH.
  intros y Hy. apply H. right. exact Hy.
Qed.

Lemma find_app_none {A} (f : A → bool) l1 l2 :
  List.find f l1 = None → List.find f (l1 ++ l2) = List.find f l2.
Proof.
  induction l1 as [|x l1 IH]; simpl; [reflexivity|].
  destruct (f x); [discriminate|exact IH].
Qed.

Lemma assoc_get_NoDup {V} key (v : V) t :
  NoDup (List.map fst t) → (key, v) ∈ t → assoc_get key t = Some v.
Proof.
  induction t as [|[k w] t IH]; simpl; intros Hnd Hin.
  - apply elem_of_nil in Hin. contradiction.
  - apply NoDup_cons in Hnd. destruct Hnd as [Hk Hnd].
    apply elem_of_cons in Hin. destruct Hin as [[= -> ->]|Hin].
    + rewrite String.eqb_refl. reflexivity.
    + destruct (String.eqb k key) eqn:E; [|apply IH; assumption].
      apply String.eqb_eq in E. subst k. exfalso. apply Hk.
      apply (list_elem_of_fmap_2 fst t (key, v)), Hin.
Qed.

(** X16. [_getMappingForNestedKey(val)] looks for the mapping of a value
    by the name of its class: when no stored mapping has that name as its
    [sourceKey] (in particular on an empty registry) it throws the
    not-found error naming the class alone and leaves the state as it
    was. *)
Theorem nestedKey_not_found val c st :
  constructorOf val = Some c →
  (∀ key l m,
     (key, l) ∈ _mappings st → heap st !! l = Some m →
     sourceKey m ≠ cname c) →
  _getMappingForNestedKey val st =
    (Throw (MappingNotFoundError (cname c) None), st).
Proof.
  unfold _getMappingForNestedKey. intros -> Hnone.
  destruct (getHash_false_spec c st) as [h Hh].
  rewrite (bind_Ok _ _ _ _ _ Hh). unfold bind at 1, gets at 1.
  match goal with
  | |- context [List.find ?p ?t] =>
      assert (Hfind : List.find p t = None)
  end.
  { apply find_none_all. intros [key l0] Hin.
    apply List.filter_In in Hin. destruct Hin as [_ _].
    destruct (assoc_get key (_mappings st)) as [l|] eqn:Eg; [|reflexivity].
    destruct (heap st !! l) as [m|] eqn:El; [|reflexivity].
    apply String.eqb_neq. eapply Hnone; [|exact El].
    apply assoc_get_In, Eg. }
  rewrite Hfind. reflexivity.
Qed.

(** X17. [_getMappingForNestedKey(val)] resolves a value of a class with
    a cached identity to the first entry of [_mappings], in registration
    order, whose key contains that identity and whose mapping has the
    name of the class as its [sourceKey]: the result is what
    [_getMapping] gives for the class and the destination of that entry,
    whatever mappings of the same class were registered later. *)
Theorem nestedKey_first_match val c h st before key l m after :
  registry_ok st →
  constructorOf val = Some c →
  _classNameMap st !! c = Some h →
  _mappings st = before ++ (key, l) :: after →
  heap st !! l = Some m →
  includes key h = true →
  sourceKey m = cname c →
  (∀ key' l' m',
     (key', l') ∈ before → heap st !! l' = Some m' →
     includes key' h = true → sourceKey m' ≠ cname c) →
  _getMappingForNestedKey val st = _getMapping c (destination m) st.
Proof.
  intros (Hnd & _ & _) Hc Hh Hsplit Hm Hinc Hname Hbefore.
  unfold _getMappingForNestedKey. rewrite Hc.
  assert (Hhash : _getHash c false st = (Ok h, st))
    by (apply getHash_cached; exact Hh).
  rewrite (bind_Ok _ _ _ _ _ Hhash). unfold bind at 1, gets at 1.
  assert (Hget : ∀ key' l', (key', l') ∈ _mappings st →
                 assoc_get key' (_mappings st) = Some l')
    by (intros; apply assoc_get_NoDup; assumption).
  match goal with
  | |- context [List.find ?p ?t] =>
      set (found := p); assert (Hfind : List.find found t = Some (key, l))
  end.
  { rewrite Hsplit. rewrite List.filter_app. simpl. rewrite Hinc.
    rewrite find_app_none.
    - unfold found. simpl.
      rewrite (Hget key l), Hm, Hname, String.eqb_refl; [reflexivity|].
      rewrite Hsplit. apply elem_of_app. right. apply list_elem_of_here.
    - apply find_none_all. intros [key' l'] Hin.
      apply List.filter_In in Hin. destruct Hin as [Hin Hinc'].
      assert (Hel : (key', l') ∈ before) by (apply list_elem_of_In; exact Hin).
      unfold found.
      rewrite (Hget key' l')
        by (rewrite Hsplit; apply elem_of_app; left; exact Hel).
      destruct (heap st !! l') as [m'|] eqn:El; [|reflexivity].
      apply String.eqb_neq. eapply Hbefore; eauto. }
  rewrite Hfind.
  assert (Hderef : deref l st = (Ok m, st))
    by (unfold deref; rewrite Hm; reflexivity).
  rewrite (bind_Ok _ _ _ _ _ Hderef). reflexivity.
Qed.

(** X18. A [MapWith] rule on a single nested object maps it by [_map]
    through the mapping registered for the pair (class of the value,
    destination of the rule), with the default options, and writes the
    result at the destination path; when that pair has no mapping it
    throws the not-found error and writes nothing. *)
Theorem mapWith_object fuel destinationObj path sourceObj spath mapping t mw
  c fields hC hD st :
  type (transformationType t) = MapWith →
  mapWith t = Some mw →
  mw_fromValue mw sourceObj = VObj c fields →
  _isEmpty (VObj c fields) = false →
  _isClass (VObj c fields) = true →
  _classNameMap st !! c = Some hC →
  _classNameMap st !! mw_destination mw = Some hD →
  _mapMember fuel destinationObj path sourceObj spath mapping t st =
    match assoc_get (_getMappingKey hC hD) (_mappings st) with
    | Some nested =>
        (let* r := _map fuel (VObj c fields) nested defaultMapActionOptions false in
         ret (lodash_set destinationObj path r)) st
    | None => (Throw (MappingNotFoundError "Function" (Some "Function")), st)
    end.
Proof.
  intros Hty Hmw Hsel Hempty Hclass HC HD.
  unfold _mapMember, _mapMember_body. rewrite Hty, Hmw, Hsel, Hempty, Hclass.
  simpl.
  assert (Hg := getMappingForDestination_cached c (mw_destination mw) hC hD
                  false st HC HD).
  destruct (assoc_get (_getMappingKey hC hD) (_mappings st)).
  - rewrite (bind_Ok _ _ _ _ _ Hg). reflexivity.
  - exact (bind_Throw _ _ _ _ _ Hg).
Qed.

End Reverse.

(** * Order of the asynchronous calls *)

Section AsyncOrder.
Context {U : Utils}.


End AsyncOrder.

(** * The properties on concrete runs *)

Module Runs.
Import Model Examples Cases.

Lemma createMapping_duplicate_witness :
  registered st_person Person PersonDTO ∧
  _createMappingObject Person PersonDTO noConventions st_person =
    (Throw (DuplicateMappingError "Person" "PersonDTO"), st_person) ∧
  _mappings (snd (_createMappingObject Person PersonDTO noConventions st_person))
    = _mappings st_person.
Proof.
  split.
  - exists "-200005819", "-260417856", 0%nat. vm_compute. auto.
  - apply (createMapping_duplicate Person PersonDTO noConventions st_person).
    exists "-200005819", "-260417856", 0%nat. vm_compute. auto.
Defined.

Lemma createReversedMapping_duplicate_witness :
  heap st_both !! 0%nat = Some person_mapping ∧
  _createReversedMappingObject 0%nat st_both =
    (Throw (DuplicateMappingError "PersonDTO" "Person"), st_both).
Proof.
  split.
  - vm_compute. reflexivity.
  - apply (createReversedMapping_duplicate 0%nat person_mapping st_both).
    + vm_compute. reflexivity.
    + exists "-260417856", "-200005819", 1%nat. vm_compute. auto.
Defined.

(** The reverse mapping is stored when the reversed pair is free. *)
Example createReversedMapping_stores :
  fst (_createReversedMappingObject 0%nat st_person) = Ok 1%nat ∧
  _mappings (snd (_createReversedMappingObject 0%nat st_person)) =
    [("-200005819->-260417856", 0%nat); ("-260417856->-200005819", 1%nat)].
Proof. vm_compute. auto. Qed.

(** Against C2: [User] and [User'] are two definitions with the same
    text. Registering (User, UserDTO) succeeds; registering
    (User', UserDTO) then throws the duplicate-mapping error, and the two
    classes have one and the same identity. *)
Lemma same_text_same_identity :
  User ≠ User' ∧
  fst (_createMappingObject User UserDTO noConventions initial) = Ok 0%nat ∧
  (let st1 := snd (_createMappingObject User UserDTO noConventions initial) in
   let second := _createMappingObject User' UserDTO noConventions st1 in
   fst second = Throw (DuplicateMappingError "User" "UserDTO") ∧
   _classNameMap (snd second) !! User = Some "-944352399" ∧
   _classNameMap (snd second) !! User' = Some "-944352399").
Proof.
  split; [discriminate|]. vm_compute. auto.
Qed.

Lemma identity_is_hash_of_definition_witness :
  wf_cache initial ∧
  _createMappingObject User UserDTO noConventions initial =
    (Ok 0%nat, snd (_createMappingObject User UserDTO noConventions initial)) ∧
  identity_hash User' = identity_hash User ∧
  ∃ st2,
    _createMappingObject User' UserDTO noConventions
      (snd (_createMappingObject User UserDTO noConventions initial)) =
      (Throw (DuplicateMappingError (cname User') (cname UserDTO)), st2) ∧
    _classNameMap st2 !! User = Some (identity_hash User) ∧
    _classNameMap st2 !! User' = Some (identity_hash User) ∧
    _mappings st2 =
      _mappings (snd (_createMappingObject User UserDTO noConventions initial)).
Proof.
  assert (Hfst :
    fst (_createMappingObject User UserDTO noConventions initial) = Ok 0%nat)
    by (vm_compute; reflexivity).
  assert (Hrun :
    _createMappingObject User UserDTO noConventions initial =
      (Ok 0%nat, snd (_createMappingObject User UserDTO noConventions initial)))
    by (rewrite <- Hfst; apply surjective_pairing).
  assert (Hsame : identity_hash User' = identity_hash User)
    by (vm_compute; reflexivity).
  split; [exact wf_cache_initial|]. split; [exact Hrun|]. split; [exact Hsame|].
  exact (proj1 (identity_is_hash_of_definition User User' UserDTO
                  noConventions noConventions initial 0%nat
                  (snd (_createMappingObject User UserDTO noConventions initial))
                  wf_cache_initial Hrun) Hsame).
Defined.



(** A mapping set without [MapFrom] rules is left as it was. *)
Example map_without_mapFrom_keeps_mappings :
  let run :=
    _map 3 (order (VArr [VNum 1; VNum 2])) 1%nat emptyOptions false
      st_order_plain in
  fst run = Ok (VObj OrderDTO [("items", VArr [VNum 1; VNum 2])]) ∧
  heap (snd run) = heap st_order_plain.
Proof.
  cbv zeta. split; [vm_compute; reflexivity|].
  apply (map_keeps_mapFrom_free 3 (order (VArr [VNum 1; VNum 2])) 1%nat
           emptyOptions false st_order_plain
           (fst (_map 3 (order (VArr [VNum 1; VNum 2])) 1%nat emptyOptions false
                   st_order_plain))).
  - apply surjective_pairing.
  - vm_compute. repeat constructor; discriminate.
Qed.

(** C4 on the code: a [Condition] rule whose predicate fails and whose
    configured default is 0, false or the empty string writes null, not
    the configured default; a truthy default is written as configured. *)
Lemma condition_falsy_default_is_dropped :
  (∀ v, v ∈ [VNum 0; VBool false; VStr EmptyString] →
        _mapMember 0 (VObj PersonDTO []) "age" ada "age" 0%nat
          (condition_never v) st_person =
          (Ok (VObj PersonDTO [("age", VNull)]), st_person)) ∧
  fst (_map 1 ada 0%nat emptyOptions false
         (forMember 0%nat "age" (condition_never (VNum 0)) st_person)) =
    Ok (VObj PersonDTO [("age", VNull)]) ∧
  fst (_map 1 ada 0%nat emptyOptions false
         (forMember 0%nat "age" (condition_never (VNum 7)) st_person)) =
    Ok (VObj PersonDTO [("age", VNum 7)]).
Proof.
  split; [|split; vm_compute; reflexivity].
  intros v Hv. repeat (apply elem_of_cons in Hv; destruct Hv as [->|Hv]);
    [reflexivity..|]. apply elem_of_nil in Hv. contradiction.
Qed.

(** C5 on the code: a rule whose [preCondition] fails and whose
    configured default is 0 writes null, not 0; the rule itself (here
    [fromValue(42)]) is skipped. A truthy default is written as
    configured. *)
Lemma preCondition_falsy_default_is_dropped :
  fst (_map 1 ada 0%nat emptyOptions false
         (forMember 0%nat "age" (preCondition_never (VNum 0)) st_person)) =
    Ok (VObj PersonDTO [("age", VNull)]) ∧
  fst (_map 1 ada 0%nat emptyOptions false
         (forMember 0%nat "age" (preCondition_never (VNum 7)) st_person)) =
    Ok (VObj PersonDTO [("age", VNum 7)]).
Proof. split; vm_compute; reflexivity. Qed.

(** C6 on the code: with [Item -> ItemDTO] registered, a [MapWith] rule
    to [ItemDTO] throws on every array source, because the mapping is
    looked up for [Array]: neither the empty array for a missing first
    element nor the element-wise mapping is produced. The inferred rule
    on the same arrays does both. *)
Lemma mapWith_array_is_never_mapped :
  (∀ items,
     items ∈ [VArr [VNull]; VArr []; VArr [item 1; item 2]] →
     fst (_map 3 (order items) 1%nat emptyOptions false st_order_mapWith) =
       Throw (MappingNotFoundError "Function" (Some "Function"))) ∧
  fst (_map 3 (order (VArr [VNull])) 1%nat emptyOptions false st_order_inferred) =
    Ok (VObj OrderDTO [("items", VArr [])]) ∧
  fst (_map 3 (order (VArr [])) 1%nat emptyOptions false st_order_inferred) =
    Ok (VObj OrderDTO [("items", VArr [])]) ∧
  fst (_map 3 (order (VArr [item 1; item 2])) 1%nat emptyOptions false
         st_order_inferred) =
    Ok (VObj OrderDTO
          [("items", VArr [VObj ItemDTO [("identifier", VNum 1)];
                           VObj ItemDTO [("identifier", VNum 2)]])]).
Proof.
  split; [|repeat split; vm_compute; reflexivity].
  intros items H. repeat (apply elem_of_cons in H; destruct H as [->|H]);
    [vm_compute; reflexivity..|]. apply elem_of_nil in H. contradiction.
Qed.

Lemma ignore_sets_null_witness :
  _mapMember 0 (VObj PersonDTO []) "secret" ada "secret" 0%nat (bare Ignore)
    st_person =
    (Ok (lodash_set (VObj PersonDTO []) "secret" VNull), st_person).
Proof.
  apply (ignore_sets_null 0 person_mapping (VObj PersonDTO []) "secret" ada
           "secret" 0%nat (bare Ignore) st_person).
  reflexivity.
Defined.

(** Through [_map]: the destination gets null at the ignored path. *)
Example ignore_through_map :
  fst (_map 1 ada 0%nat emptyOptions false
         (forMember 0%nat "secret" (bare Ignore) st_person)) =
    Ok (VObj PersonDTO [("secret", VNull)]).
Proof. vm_compute. reflexivity. Qed.

Lemma one_hook_per_side_witness :
  let option := {| beforeMap := Some (stamp "callBefore"); afterMap := None |} in
  let run := _map 1 ada 0%nat option false st_hooks in
  heap st_hooks !! 0%nat = Some hooked_mapping ∧
  fst run =
    Ok (VObj PersonDTO
          [("callBefore", VBool true); ("configuredAfter", VBool true)]) ∧
  ∃ inner,
    trace (snd run) = trace st_hooks ++ [EvCall "_map" inner] ∧
    own_hooks inner =
      [EvHook Before PerCall "callBefore";
       EvHook After Configured "configuredAfter"].
Proof.
  cbv zeta.
  assert (Hm : heap st_hooks !! 0%nat = Some hooked_mapping)
    by (vm_compute; reflexivity).
  split; [exact Hm|].
  pose proof (one_hook_per_side 0 ada 0%nat hooked_mapping
                {| beforeMap := Some (stamp "callBefore"); afterMap := None |}
                st_hooks _ _ Hm (surjective_pairing _)) as H.
  cbv zeta in H. cbn [beforeMap afterMap chosen_action action_result action
                      stamp chosen_hook action_name] in H.
  destruct H as (members & st1 & Hloop & Hquiet & Hrest).
  assert (Hmembers :
    members = Ok (VObj PersonDTO [("callBefore", VBool true)], []))
    by (apply (f_equal fst) in Hloop; cbn [fst] in Hloop;
        rewrite <- Hloop; vm_compute; reflexivity).
  subst members.
  assert (Hchecked :
    checked (Ok (VObj PersonDTO [("callBefore", VBool true)], [])) =
      Ok (VObj PersonDTO [("callBefore", VBool true)]))
    by (vm_compute; reflexivity).
  rewrite Hchecked in Hrest. destruct Hrest as [Hr Hst].
  split.
  - rewrite Hr. vm_compute. reflexivity.
  - exists (trace st1 ++
            chosen_hook After None (afterMapAction hooked_mapping)).
    rewrite Hst. split; [reflexivity|].
    rewrite own_hooks_app, Hquiet. reflexivity.
Defined.

(** A [NullSubstitution] rule: the substitute when the source lacks the
    field, the value of the source otherwise. *)
Example nullSubstitution_rule :
  fst (_map 1 ada 0%nat emptyOptions false
         (forMember 0%nat "nickname" (nullSubstitution_of (VStr "n/a"))
            st_person)) =
    Ok (VObj PersonDTO [("nickname", VStr "n/a")]) ∧
  fst (_map 1 ada 0%nat emptyOptions false
         (forMember 0%nat "firstName" (nullSubstitution_of (VStr "n/a"))
            st_person)) =
    Ok (VObj PersonDTO [("firstName", VStr "Ada")]).
Proof. split; vm_compute; reflexivity. Qed.

(** The reverse mapping derived after Ada was mapped copies [fullName]
    back and does not invert the concatenation. *)
Example reverse_after_map :
  let st := snd (_map 1 ada 0%nat emptyOptions false st_fullName) in
  fst (_createReversedMappingObject 0%nat st) = Ok 1%nat ∧
  fst (_map 1 (VObj PersonDTO [("fullName", VStr "Ada Lovelace")]) 1%nat
         emptyOptions false (snd (_createReversedMappingObject 0%nat st))) =
    Ok (VObj Person [("fullName", VStr "Ada Lovelace")]).
Proof. split; vm_compute; reflexivity. Qed.

(** The promise of [_mapAsync] is fulfilled with the DTO [_map] returns. *)
Example async_fulfilled :
  let el := {| mapper := st_fullName; microtasks := []; promises := [] |} in
  let '(p, el') := _mapAsync 1 ada 0%nat emptyOptions false el in
  promises (drain el') !! p =
    Some (Some (Ok (VObj PersonDTO [("fullName", VStr "Ada Lovelace")]))).
Proof. vm_compute. reflexivity. Qed.

End Runs.
(** * The further properties on concrete runs *)

Module MoreRuns.
Import Model Examples Cases.

Lemma lookup_after_create_witness :
  heap st_person !! 0%nat = Some (new_mapping Person PersonDTO noConventions) ∧
  _getMapping Person PersonDTO
    (fold_left after_call [CreateReversedMapping 0%nat] st_person) =
    (Ok 0%nat, fold_left after_call [CreateReversedMapping 0%nat] st_person) ∧
  ∀ isInherit,
    _getMappingForDestination PersonDTO Person isInherit
      (fold_left after_call [CreateReversedMapping 0%nat] st_person) =
      (Ok (Some 0%nat),
       fold_left after_call [CreateReversedMapping 0%nat] st_person).
Proof.
  assert (Hfst :
    fst (_createMappingObject Person PersonDTO noConventions initial) = Ok 0%nat)
    by (vm_compute; reflexivity).
  assert (Hrun :
    _createMappingObject Person PersonDTO noConventions initial =
      (Ok 0%nat, st_person))
    by (rewrite <- Hfst; apply surjective_pairing).
  exact (lookup_after_create Person PersonDTO noConventions initial 0%nat
           st_person [CreateReversedMapping 0%nat] Hrun).
Defined.

Lemma getMapping_outcome_witness :
  _mappings (snd (_getMapping Person PersonDTO initial)) = _mappings initial ∧
  heap (snd (_getMapping Person PersonDTO initial)) = heap initial ∧
  trace (snd (_getMapping Person PersonDTO initial)) = trace initial ∧
  ∃ hS hD,
    _classNameMap (snd (_getMapping Person PersonDTO initial)) !! Person = Some hS ∧
    _classNameMap (snd (_getMapping Person PersonDTO initial)) !! PersonDTO = Some hD ∧
    fst (_getMapping Person PersonDTO initial) =
      match assoc_get (_getMappingKey hS hD) (_mappings initial) with
      | Some l => Ok l
      | None => Throw (MappingNotFoundError (cname Person) (Some (cname PersonDTO)))
      end.
Proof.
  apply (getMapping_outcome Person PersonDTO initial
           (fst (_getMapping Person PersonDTO initial))
           (snd (_getMapping Person PersonDTO initial))).
  apply surjective_pairing.
Defined.

Lemma lookup_through_prototype_witness :
  _classNameMap st_animal !! Dog = None ∧
  _getProto Dog = Some Animal ∧
  _getHash Dog false st_animal = (Ok (identity_hash Animal), st_animal) ∧
  ∀ isInherit,
    _getMappingForDestination AnimalDTO Dog isInherit st_animal =
      (Ok (Some 0%nat), st_animal).
Proof.
  assert (Hsub : _classNameMap st_animal !! Dog = None)
    by (vm_compute; reflexivity).
  assert (Hproto : _getProto Dog = Some Animal) by reflexivity.
  assert (HB : _classNameMap st_animal !! Animal = Some (identity_hash Animal))
    by (vm_compute; reflexivity).
  assert (HD : _classNameMap st_animal !! AnimalDTO =
               Some (identity_hash AnimalDTO))
    by (vm_compute; reflexivity).
  assert (Hl : assoc_get
                 (_getMappingKey (identity_hash Animal) (identity_hash AnimalDTO))
                 (_mappings st_animal) = Some 0%nat)
    by (vm_compute; reflexivity).
  split; [exact Hsub|]. split; [exact Hproto|].
  destruct (lookup_through_prototype Dog Animal AnimalDTO st_animal Hsub Hproto)
    as [Hfound _].
  split.
  - exact (proj1 (Hfound _ _ _ false HB HD Hl)).
  - intros isInherit. exact (proj2 (Hfound _ _ _ isInherit HB HD Hl)).
Defined.

Lemma identity_is_stable_witness :
  _getHash Person false
    (fold_left after_call
       [CreateMapping Person PersonDTO noConventions;
        Map 1 ada 0%nat emptyOptions false]
       (snd (_getHash Person true initial))) =
    (Ok (identity_hash Person),
     fold_left after_call
       [CreateMapping Person PersonDTO noConventions;
        Map 1 ada 0%nat emptyOptions false]
       (snd (_getHash Person true initial))).
Proof.
  assert (Hfst : fst (_getHash Person true initial) = Ok (identity_hash Person))
    by (vm_compute; reflexivity).
  assert (Hrun :
    _getHash Person true initial =
      (Ok (identity_hash Person), snd (_getHash Person true initial)))
    by (rewrite <- Hfst; apply surjective_pairing).
  exact (identity_is_stable Person initial (identity_hash Person)
           (snd (_getHash Person true initial))
           [CreateMapping Person PersonDTO noConventions;
            Map 1 ada 0%nat emptyOptions false]
           false Hrun).
Defined.

Lemma unknown_class_has_empty_identity_witness :
  wf_cache st_animal ∧
  ∃ h,
    _getHash Dog false st_animal = (Ok h, st_animal) ∧
    (h = EmptyString ↔
     _classNameMap st_animal !! Dog = None ∧
     ∀ proto, _getProto Dog = Some proto → _classNameMap st_animal !! proto = None).
Proof.
  assert (Hwf : wf_cache st_animal)
    by exact (proj2 (proj2 (registry_ok_after_call initial
                              (CreateMapping Animal AnimalDTO noConventions)
                              registry_ok_initial))).
  split; [exact Hwf|].
  exact (unknown_class_has_empty_identity Dog st_animal Hwf).
Defined.

Lemma mapArray_shape_witness :
  fst (_mapArray 1 [item 1; item 2] 0%nat emptyOptions st_items) =
    Ok (VArr [VObj ItemDTO [("identifier", VNum 1)];
              VObj ItemDTO [("identifier", VNum 2)]]) ∧
  ∃ st1,
    mapped_in_turn 1 0%nat
      (with_trace (fun _ => batch_hook Before (beforeMap emptyOptions)) st_items)
      [item 1; item 2]
      [VObj ItemDTO [("identifier", VNum 1)];
       VObj ItemDTO [("identifier", VNum 2)]]
      st1.
Proof.
  assert (Hfst :
    fst (_mapArray 1 [item 1; item 2] 0%nat emptyOptions st_items) =
      Ok (VArr [VObj ItemDTO [("identifier", VNum 1)];
                VObj ItemDTO [("identifier", VNum 2)]]))
    by (vm_compute; reflexivity).
  assert (Hrun :
    _mapArray 1 [item 1; item 2] 0%nat emptyOptions st_items =
      (Ok (VArr [VObj ItemDTO [("identifier", VNum 1)];
                 VObj ItemDTO [("identifier", VNum 2)]]),
       snd (_mapArray 1 [item 1; item 2] 0%nat emptyOptions st_items)))
    by (rewrite <- Hfst; apply surjective_pairing).
  split; [exact Hfst|].
  destruct (mapArray_shape 1 [item 1; item 2] 0%nat emptyOptions st_items _ _
              Hrun)
    as [(destination0 & st1 & _ & Hturn & _ & Hafter) _].
  cbn [action_result afterMap emptyOptions] in Hafter.
  injection Hafter as Hafter. subst destination0.
  exists st1. exact Hturn.
Defined.

Lemma mapArray_hooks_witness :
  fst (_mapArray 1 [ada; ada] 0%nat batch_options st_hooks) =
    returned
      (action (stamp "batchAfter") (VArr [ada; ada])
         (VArr [VObj PersonDTO []; VObj PersonDTO []])) ∧
  ∀ s,
    fst (_map 1 s 0%nat batch_options true st_hooks) =
      Ok (VObj PersonDTO []).
Proof.
  assert (Hm : heap st_hooks !! 0%nat = Some hooked_mapping)
    by (vm_compute; reflexivity).
  destruct (mapArray_hooks 1 [ada; ada] 0%nat batch_options st_hooks _ _
              (surjective_pairing _))
    as [Hbatch Helement].
  split.
  - cbn [action_result beforeMap afterMap batch_options action stamp] in Hbatch.
    destruct Hbatch as (elements & st1 & Helems & Hrest).
    assert (Hds :
      elements = Ok [VObj PersonDTO []; VObj PersonDTO []])
      by (apply (f_equal fst) in Helems; cbn [fst] in Helems;
          rewrite <- Helems; vm_compute; reflexivity).
    subst elements. exact (proj1 Hrest).
  - intros s.
    destruct (Helement 0%nat s batch_options hooked_mapping st_hooks _ _ Hm
                (surjective_pairing _))
      as (members & st1 & Hloop & _ & Hr & _).
    rewrite Hr. apply (f_equal fst) in Hloop. cbn [fst] in Hloop.
    rewrite <- Hloop. reflexivity.
Defined.

Lemma map_returns_checked_object_witness :
  heap st_fullName !! 0%nat = Some fullName_mapping ∧
  ∃ destinationObj,
    _assertMappingErrors destinationObj ["fullName"] = None ∧
    fst (_map 1 ada 0%nat emptyOptions false st_fullName) = Ok destinationObj.
Proof.
  assert (Hm : heap st_fullName !! 0%nat = Some fullName_mapping)
    by (vm_compute; reflexivity).
  assert (Hfst :
    ∃ d, fst (_map 1 ada 0%nat emptyOptions false st_fullName) = Ok d)
    by (eexists; vm_compute; reflexivity).
  destruct Hfst as [d Hfst].
  assert (Hrun :
    _map 1 ada 0%nat emptyOptions false st_fullName =
      (Ok d, snd (_map 1 ada 0%nat emptyOptions false st_fullName)))
    by (rewrite <- Hfst; apply surjective_pairing).
  split; [exact Hm|].
  destruct (map_returns_checked_object 0 ada 0%nat fullName_mapping emptyOptions
              false st_fullName d _ Hm Hrun)
    as (destinationObj & Hchecked & Hv).
  exists destinationObj. split; [exact Hchecked|].
  cbv zeta in Hv.
  cbn [afterMap emptyOptions afterMapAction fullName_mapping with_properties
       person_mapping] in Hv.
  rewrite Hfst, Hv. reflexivity.
Defined.

(** A larger budget gives the same run. *)
Example more_fuel_same_run :
  _map (1 + 5) ada 0%nat emptyOptions false st_fullName =
    _map 1 ada 0%nat emptyOptions false st_fullName.
Proof.
  assert (Hfst :
    ∃ d, fst (_map 1 ada 0%nat emptyOptions false st_fullName) = Ok d)
    by (eexists; vm_compute; reflexivity).
  destruct Hfst as [d Hfst].
  rewrite (proj1 (more_fuel_same_outcome 1 5 ada [] 0%nat emptyOptions false
                    st_fullName)
             (fst (_map 1 ada 0%nat emptyOptions false st_fullName))
             (snd (_map 1 ada 0%nat emptyOptions false st_fullName))
             (surjective_pairing _)).
  - symmetry. apply surjective_pairing.
  - rewrite Hfst. discriminate.
Qed.

Lemma createReversedMapping_object_witness :
  heap st_person !! 0%nat = Some person_mapping ∧
  heap (snd (_createReversedMappingObject 0%nat st_person)) !! 1%nat =
    Some (reversed_mapping person_mapping) ∧
  heap (snd (_createReversedMappingObject 0%nat st_person)) !! 0%nat =
    Some person_mapping ∧
  _getMapping PersonDTO Person (snd (_createReversedMappingObject 0%nat st_person)) =
    (Ok 1%nat, snd (_createReversedMappingObject 0%nat st_person)).
Proof.
  assert (Hm : heap st_person !! 0%nat = Some person_mapping)
    by (vm_compute; reflexivity).
  assert (Hfst : fst (_createReversedMappingObject 0%nat st_person) = Ok 1%nat)
    by (vm_compute; reflexivity).
  assert (Hrun :
    _createReversedMappingObject 0%nat st_person =
      (Ok 1%nat, snd (_createReversedMappingObject 0%nat st_person)))
    by (rewrite <- Hfst; apply surjective_pairing).
  split; [exact Hm|].
  destruct (createReversedMapping_object 0%nat person_mapping st_person 1%nat _
              Hm Hrun)
    as ((r & Hr & _ & Hplain) & Hkept & Hget).
  rewrite (Hplain (or_introl eq_refl)) in Hr.
  split; [exact Hr|]. split; [exact Hkept|exact Hget].
Defined.

Lemma reverse_is_derived_once_witness :
  _createReversedMappingObject 0%nat
    (snd (_createReversedMappingObject 0%nat st_person)) =
    (Throw (DuplicateMappingError "PersonDTO" "Person"),
     snd (_createReversedMappingObject 0%nat st_person)) ∧
  _createReversedMappingObject 1%nat
    (snd (_createReversedMappingObject 0%nat st_person)) =
    (Throw (DuplicateMappingError "Person" "PersonDTO"),
     snd (_createReversedMappingObject 0%nat st_person)).
Proof.
  assert (Hm : heap st_person !! 0%nat = Some person_mapping)
    by (vm_compute; reflexivity).
  assert (Hfst : fst (_createReversedMappingObject 0%nat st_person) = Ok 1%nat)
    by (vm_compute; reflexivity).
  assert (Hrun :
    _createReversedMappingObject 0%nat st_person =
      (Ok 1%nat, snd (_createReversedMappingObject 0%nat st_person)))
    by (rewrite <- Hfst; apply surjective_pairing).
  assert (Hreg : registered st_person Person PersonDTO)
    by (exists "-200005819", "-260417856", 0%nat; vm_compute; auto).
  destruct (reverse_is_derived_once 0%nat person_mapping st_person 1%nat _
              Hm Hrun)
    as [Hagain Hback].
  split; [exact Hagain|]. exact (Hback Hreg (or_introl eq_refl)).
Defined.

Lemma nestedKey_not_found_witness :
  _getMappingForNestedKey ada st_items =
    (Throw (MappingNotFoundError (cname Person) None), st_items).
Proof.
  apply (nestedKey_not_found ada Person st_items); [reflexivity|].
  intros key l m Hin Hm.
  assert (Hl : l = 0%nat ∨ l = 1%nat).
  { vm_compute in Hin.
    repeat (apply elem_of_cons in Hin; destruct Hin as [Hin|Hin];
            [injection Hin as _ ->; auto|]).
    apply elem_of_nil in Hin. contradiction. }
  destruct Hl as [-> | ->]; vm_compute in Hm; injection Hm as <-;
    simpl; discriminate.
Defined.

Lemma mapWith_object_witness :
  fst (_mapMember 1 (VObj OrderDTO []) "first" (order_of (item 7)) "first" 1%nat
         mapWith_first st_items) =
    Ok (VObj OrderDTO [("first", VObj ItemDTO [("identifier", VNum 7)])]).
Proof.
  rewrite (mapWith_object 1 (VObj OrderDTO []) "first" (order_of (item 7))
             "first" 1%nat mapWith_first
             {| mw_destination := ItemDTO;
                mw_fromValue := fun s => get s VUndefined "first" |}
             Item [("id", VNum 7)]
             (identity_hash Item) (identity_hash ItemDTO) st_items).
  - vm_compute. reflexivity.
  - reflexivity.
  - reflexivity.
  - reflexivity.
  - reflexivity.
  - reflexivity.
  - vm_compute. reflexivity.
  - vm_compute. reflexivity.
Defined.

Lemma nestedKey_first_match_witness :
  _getMappingForNestedKey (item 1) st_two_views =
    _getMapping Item ItemDTO st_two_views ∧
  fst (_getMapping Item ItemDTO st_two_views) = Ok 1%nat ∧
  fst (_getMapping Item ItemView st_two_views) = Ok 2%nat.
Proof.
  split; [|split; vm_compute; reflexivity].
  apply (nestedKey_first_match (item 1) Item (identity_hash Item) st_two_views
           [(_getMappingKey (identity_hash Order) (identity_hash OrderDTO), 0%nat)]
           (_getMappingKey (identity_hash Item) (identity_hash ItemDTO)) 1%nat
           (new_mapping Item ItemDTO noConventions)
           [(_getMappingKey (identity_hash Item) (identity_hash ItemView), 2%nat)]).
  - cbv [st_two_views fold_left].
    do 3 apply registry_ok_after_any. exact registry_ok_initial.
  - reflexivity.
  - vm_compute. reflexivity.
  - vm_compute. reflexivity.
  - vm_compute. reflexivity.
  - vm_compute. reflexivity.
  - reflexivity.
  - intros key' l' m' Hin _ Hinc.
    apply elem_of_cons in Hin. destruct Hin as [Hin|Hin].
    + assert (Hkey : key' =
        _getMappingKey (identity_hash Order) (identity_hash OrderDTO))
        by exact (f_equal fst Hin).
      rewrite Hkey in Hinc. vm_compute in Hinc. discriminate Hinc.
    + apply elem_of_nil in Hin. contradiction.
Defined.

End MoreRuns.
